(** * paperbot: a shallow embedding of [paperbot.py]

    The script fetches an arXiv RSS feed, diffs it against a JSON archive
    on disk and publishes every unseen entry to Bluesky.  This file embeds
    the parts of the script that carry logic:

    - [parse_urls] and [parse_facets] (the URL scanner and the facet
      builder), including the byte regular expression of [parse_urls] and
      a backtracking matcher with the priorities of Python's [re];
    - [get_arxiv_feed] (the normalisation of feed entries);
    - [get_and_write_feed_json] (archive load, merge and conditional
      rewrite);
    - [main] (post composition, the posting loop and the placeholder).

    Python values are modelled as follows: a [str] is a list of code
    points, a [bytes] object is a list of [ascii], a [dict] is an
    insertion-ordered association list, exceptions are a sum type.

    The second part proves what the script does: the facet builder
    follows the scanner, the composer truncates and appends its suffix,
    the differ selects the unseen entries and the archive only grows,
    what a match of the URL pattern looks like, and that URLs the pattern
    takes whole are all found between white space. *)

From Stdlib Require Import Ascii String NArith ZArith Bool Arith Lia List.
From Equations Require Import Equations.
Import ListNotations.

Set Implicit Arguments.

(** ** Exceptions and results *)

Inductive exn : Type :=
| UnicodeEncodeError
| UnicodeDecodeError
| AttributeError
| FileNotFoundError
| JSONDecodeError.

Inductive result (A : Type) : Type :=
| Ok (a : A)
| Raise (e : exn).

Arguments Ok {A} a.
Arguments Raise {A} e.

Definition bind {A B : Type} (r : result A) (f : A -> result B) : result B :=
  match r with
  | Ok a => f a
  | Raise e => Raise e
  end.

Notation "x <- r ;; k" := (bind r (fun x => k))
  (at level 61, r at next level, right associativity).

(** A Python [for] loop whose body may raise: the loop state is threaded
    through the items from left to right and the first exception stops
    the loop. *)
Fixpoint for_each {A S : Type} (body : S -> A -> result S)
         (xs : list A) (s : S) : result S :=
  match xs with
  | [] => Ok s
  | x :: xs' => s' <- body s x ;; for_each body xs' s'
  end.

(** ** Strings and bytes *)

(** A Python [str]: the sequence of its code points. *)
Definition str : Type := list N.

(** A Python [bytes] object. *)
Definition bytes : Type := list ascii.

(** An ASCII literal as a [str]. *)
Definition lit (s : string) : str := map N_of_ascii (list_ascii_of_string s).

(** An ASCII literal as [bytes]. *)
Definition blit (s : string) : bytes := list_ascii_of_string s.

Definition str_eqb (a b : str) : bool :=
  if list_eq_dec N.eq_dec a b then true else false.

(** [s[a:b]] for [0 <= a]. *)
Definition slice {A : Type} (l : list A) (a b : nat) : list A :=
  firstn (b - a) (skipn a l).

(** *** UTF-8 *)

Definition byte_of (n : N) : ascii := ascii_of_N n.

(** [str.encode("UTF-8")] on one code point.  Surrogates cannot be
    encoded; values above U+10FFFF do not occur in a [str]. *)
Definition encode_cp (c : N) : result bytes :=
  (if c <? 0x80 then Ok [byte_of c]
   else if c <? 0x800 then
     Ok [byte_of (0xC0 + c / 0x40); byte_of (0x80 + c mod 0x40)]
   else if c <? 0x10000 then
     if (0xD800 <=? c) && (c <=? 0xDFFF) then Raise UnicodeEncodeError
     else Ok [byte_of (0xE0 + c / 0x1000);
              byte_of (0x80 + (c / 0x40) mod 0x40);
              byte_of (0x80 + c mod 0x40)]
   else if c <? 0x110000 then
     Ok [byte_of (0xF0 + c / 0x40000);
         byte_of (0x80 + (c / 0x1000) mod 0x40);
         byte_of (0x80 + (c / 0x40) mod 0x40);
         byte_of (0x80 + c mod 0x40)]
   else Raise UnicodeEncodeError)%N.

Fixpoint encode (text : str) : result bytes :=
  match text with
  | [] => Ok []
  | c :: text' =>
      b <- encode_cp c ;;
      bs <- encode text' ;;
      Ok (b ++ bs)
  end.

Definition is_cont (b : ascii) : bool :=
  ((0x80 <=? N_of_ascii b) && (N_of_ascii b <=? 0xBF))%N.

Definition cont_bits (b : ascii) : N := (N_of_ascii b - 0x80)%N.

(** [bytes.decode("UTF-8")], strict: shortest forms only, no surrogates,
    nothing above U+10FFFF. *)
Fixpoint decode (bs : bytes) : result str :=
  match bs with
  | [] => Ok []
  | b0 :: t0 =>
      let n0 := N_of_ascii b0 in
      if (n0 <? 0x80)%N then
        s <- decode t0 ;; Ok (n0 :: s)
      else if ((0xC2 <=? n0) && (n0 <=? 0xDF))%N then
        match t0 with
        | b1 :: t1 =>
            if is_cont b1 then
              s <- decode t1 ;;
              Ok (((n0 - 0xC0) * 0x40 + cont_bits b1)%N :: s)
            else Raise UnicodeDecodeError
        | _ => Raise UnicodeDecodeError
        end
      else if ((0xE0 <=? n0) && (n0 <=? 0xEF))%N then
        match t0 with
        | b1 :: b2 :: t2 =>
            let c := ((n0 - 0xE0) * 0x1000 + cont_bits b1 * 0x40
                      + cont_bits b2)%N in
            if is_cont b1 && is_cont b2 && (0x800 <=? c)%N
               && negb ((0xD800 <=? c) && (c <=? 0xDFFF))%N then
              s <- decode t2 ;; Ok (c :: s)
            else Raise UnicodeDecodeError
        | _ => Raise UnicodeDecodeError
        end
      else if ((0xF0 <=? n0) && (n0 <=? 0xF4))%N then
        match t0 with
        | b1 :: b2 :: b3 :: t3 =>
            let c := ((n0 - 0xF0) * 0x40000 + cont_bits b1 * 0x1000
                      + cont_bits b2 * 0x40 + cont_bits b3)%N in
            if is_cont b1 && is_cont b2 && is_cont b3
               && (0x10000 <=? c)%N && (c <? 0x110000)%N then
              s <- decode t3 ;; Ok (c :: s)
            else Raise UnicodeDecodeError
        | _ => Raise UnicodeDecodeError
        end
      else Raise UnicodeDecodeError
  end.

(** ** Regular expressions over bytes, as [re] runs them *)

Module Re.

(** One item of a bracketed class. *)
Inductive item : Type :=
| Ch (c : ascii)              (* a literal byte *)
| Rg (lo hi : ascii)          (* lo-hi *)
| NotWord.                    (* \W *)

(** The syntax the pattern of [parse_urls] uses. *)
Inductive regex : Type :=
| Lit (c : ascii)                           (* a literal byte *)
| Class (items : list item)                 (* [...] *)
| Boundary                                  (* \b *)
| Cat (r1 r2 : regex)                       (* r1 r2 *)
| Repeat (lo : nat) (hi : option nat) (r : regex)  (* greedy r{lo,hi} *)
| Group (n : nat) (r : regex).              (* the n-th capturing (...) *)

(** In a bytes pattern [\w] is ASCII only: [a-zA-Z0-9_]. *)
Definition is_word (c : ascii) : bool :=
  let n := N_of_ascii c in
  (((97 <=? n) && (n <=? 122)) || ((65 <=? n) && (n <=? 90))
   || ((48 <=? n) && (n <=? 57)) || (n =? 95))%N.

Definition item_matches (i : item) (c : ascii) : bool :=
  match i with
  | Ch d => Ascii.eqb d c
  | Rg lo hi => ((N_of_ascii lo <=? N_of_ascii c)
                 && (N_of_ascii c <=? N_of_ascii hi))%N
  | NotWord => negb (is_word c)
  end.

Definition class_matches (items : list item) (c : ascii) : bool :=
  existsb (fun i => item_matches i c) items.

(** The matcher's cursor: the byte before the position (for [\b]), the
    position, the bytes from the position on, and the groups closed so
    far. *)
Record cursor : Type := Cursor {
  before : option ascii;
  pos : nat;
  rest : bytes;
  caps : list (nat * (nat * nat))
}.

Definition advance (c : ascii) (t : bytes) (st : cursor) : cursor :=
  Cursor (Some c) (S (pos st)) t (caps st).

Definition close_group (n start : nat) (st : cursor) : cursor :=
  Cursor (before st) (pos st) (rest st) ((n, (start, pos st)) :: caps st).

Definition word_at (o : option ascii) : bool :=
  match o with
  | Some c => is_word c
  | None => false
  end.

Definition at_boundary (st : cursor) : bool :=
  xorb (word_at (before st)) (word_at (hd_error (rest st))).

(** Greedy repetition: try one more iteration first and fall back to
    leaving the loop; [budget] bounds the iterations still allowed.  An
    iteration that consumes nothing is not taken. *)
Section Loop.
Variable iter : cursor -> (cursor -> option cursor) -> option cursor.
Variable k : cursor -> option cursor.

Fixpoint loop (budget lo : nat) (st : cursor) : option cursor :=
  let leave := if lo =? 0 then k st else None in
  match budget with
  | 0 => leave
  | S budget' =>
      match iter st (fun st' =>
               if pos st' =? pos st then None
               else loop budget' (Nat.pred lo) st') with
      | Some res => Some res
      | None => leave
      end
  end.
End Loop.

(** Backtracking matcher in continuation-passing style: [run r st k]
    matches [r] at [st] and hands every way of doing so to [k], in
    priority order, until [k] accepts. *)
Fixpoint run (r : regex) (st : cursor) (k : cursor -> option cursor)
  : option cursor :=
  match r with
  | Lit c =>
      match rest st with
      | d :: t => if Ascii.eqb c d then k (advance d t st) else None
      | [] => None
      end
  | Class items =>
      match rest st with
      | d :: t => if class_matches items d then k (advance d t st) else None
      | [] => None
      end
  | Boundary => if at_boundary st then k st else None
  | Cat r1 r2 => run r1 st (fun st' => run r2 st' k)
  | Repeat lo hi r' =>
      let budget := match hi with
                    | Some h => h
                    | None => length (rest st)
                    end in
      loop (run r') k budget lo st
  | Group n r' =>
      run r' st (fun st' => k (close_group n (pos st) st'))
  end.

(** A match object: the span of the whole match and of its groups. *)
Record match_obj : Type := Match {
  m_start : nat;
  m_end : nat;
  m_caps : list (nat * (nat * nat))
}.

Definition match_at (r : regex) (before : option ascii) (p : nat)
           (rest : bytes) : option match_obj :=
  match run r (Cursor before p rest []) Some with
  | Some st => Some (Match p (pos st) (caps st))
  | None => None
  end.

(** [re.finditer]: the non-overlapping matches from left to right.  The
    scan tries every position not before [resume]; after a match it
    resumes at the end of the match (one further after an empty one). *)
Fixpoint scan (r : regex) (before : option ascii) (p : nat) (rest : bytes)
         (resume : nat) : list match_obj :=
  match rest with
  | [] =>
      if p <? resume then []
      else match match_at r before p [] with
           | Some m => [m]
           | None => []
           end
  | c :: t =>
      if p <? resume then scan r (Some c) (S p) t resume
      else match match_at r before p rest with
           | Some m => m :: scan r (Some c) (S p) t (Nat.max (m_end m) (S p))
           | None => scan r (Some c) (S p) t resume
           end
  end.

Definition finditer (r : regex) (b : bytes) : list match_obj :=
  scan r None 0 b 0.

(** [m.span(n)] for a group that took part in the match. *)
Fixpoint lookup_group (n : nat) (cs : list (nat * (nat * nat)))
  : option (nat * nat) :=
  match cs with
  | [] => None
  | (g, sp) :: cs' => if g =? n then Some sp else lookup_group n cs'
  end.

Definition group_span (m : match_obj) (n : nat) : option (nat * nat) :=
  lookup_group n (m_caps m).

End Re.

Import Re.

(** ** parse_urls *)

Local Open Scope char_scope.

(** [[$|\W]] *)
Definition boundary_class : list item := [Ch "$"; Ch "|"; NotWord].

(** [[-a-zA-Z0-9@:%._\+~#=]] *)
Definition host_class : list item :=
  [Ch "-"; Rg "a" "z"; Rg "A" "Z"; Rg "0" "9"; Ch "@"; Ch ":"; Ch "%";
   Ch "."; Ch "_"; Ch "+"; Ch "~"; Ch "#"; Ch "="].

(** [[a-zA-Z0-9()]] *)
Definition tld_class : list item :=
  [Rg "a" "z"; Rg "A" "Z"; Rg "0" "9"; Ch "("; Ch ")"].

(** [[-a-zA-Z0-9()@:%_\+.~#?&//=]] *)
Definition path_class : list item :=
  [Ch "-"; Rg "a" "z"; Rg "A" "Z"; Rg "0" "9"; Ch "("; Ch ")"; Ch "@";
   Ch ":"; Ch "%"; Ch "_"; Ch "+"; Ch "."; Ch "~"; Ch "#"; Ch "?"; Ch "&";
   Ch "/"; Ch "/"; Ch "="].

(** [[-a-zA-Z0-9@%_\+~#//=]] *)
Definition last_class : list item :=
  [Ch "-"; Rg "a" "z"; Rg "A" "Z"; Rg "0" "9"; Ch "@"; Ch "%"; Ch "_";
   Ch "+"; Ch "~"; Ch "#"; Ch "/"; Ch "/"; Ch "="].

(** [([-a-zA-Z0-9()@:%_\+.~#?&//=]*[-a-zA-Z0-9@%_\+~#//=])] *)
Definition path_group : regex :=
  Group 3 (Cat (Repeat 0 None (Class path_class)) (Class last_class)).

(** [(www\.)] *)
Definition www_group : regex :=
  Group 2 (Cat (Lit "w") (Cat (Lit "w") (Cat (Lit "w") (Lit ".")))).

(** [https?:\/\/(www\.)?[...]{1,256}\.[...]{1,6}\b] *)
Definition url_head : regex :=
  Cat (Lit "h") (Cat (Lit "t") (Cat (Lit "t") (Cat (Lit "p")
  (Cat (Repeat 0 (Some 1) (Lit "s"))
  (Cat (Lit ":") (Cat (Lit "/") (Cat (Lit "/")
  (Cat (Repeat 0 (Some 1) www_group)
  (Cat (Repeat 1 (Some 256) (Class host_class))
  (Cat (Lit ".")
  (Cat (Repeat 1 (Some 6) (Class tld_class))
       Boundary))))))))))).

(** Group 1 of the pattern: [(] the head, then [(...)?)] *)
Definition url_group : regex :=
  Group 1 (Cat url_head (Repeat 0 (Some 1) path_group)).

(** The whole [url_regex]. *)
Definition url_regex : regex := Cat (Class boundary_class) url_group.

Local Close Scope char_scope.

(** The dictionary [{"start": .., "end": .., "url": ..}]. *)
Record span : Type := Span {
  span_start : nat;
  span_end : nat;
  span_url : str
}.

(** The body of the loop of [parse_urls]: [m.start(1)], [m.end(1)] and
    [m.group(1).decode("UTF-8")], appended to [spans]. *)
Definition span_of_match (text_bytes : bytes) (spans : list span)
           (m : match_obj) : result (list span) :=
  match group_span m 1 with
  | Some (s, e) =>
      url <- decode (slice text_bytes s e) ;;
      Ok (spans ++ [Span s e url])
  | None => Raise AttributeError
  end.

Definition parse_urls (text : str) : result (list span) :=
  text_bytes <- encode text ;;
  for_each (span_of_match text_bytes) (finditer url_regex text_bytes) [].

(** ** String methods *)

(** [s.startswith(p)] *)
Fixpoint starts_with (p s : str) : bool :=
  match p, s with
  | [], _ => true
  | _ :: _, [] => false
  | a :: p', b :: s' => (a =? b)%N && starts_with p' s'
  end.

(** [s.find(sub)]: the lowest index where [sub] occurs, if any. *)
Fixpoint find (sub s : str) : option nat :=
  if starts_with sub s then Some 0
  else match s with
       | [] => None
       | _ :: s' => option_map S (find sub s')
       end.

(** [s.split(sep)] for a non-empty separator: cut at the occurrences of
    [sep] found from left to right, each search starting after the
    previous occurrence.  (Python raises ValueError on an empty
    separator; the script only splits on non-empty literals, and the
    model returns [[s]] there.) *)
Equations? split (sep s : str) : list str by wf (length s) lt :=
  split [] s := [s];
  split (c :: sep') [] := [[]];
  split (c :: sep') (a :: s') with find (c :: sep') (a :: s') := {
    | None => [a :: s']
    | Some i =>
        firstn i (a :: s')
          :: split (c :: sep') (skipn (i + S (length sep')) (a :: s'))
  }.
Proof.
  rewrite Nat.add_succ_r. simpl. rewrite length_skipn. lia.
Qed.

(** [s.replace(old, new)] for a non-empty [old]: every occurrence found
    from left to right, each search starting after the previous
    occurrence, is replaced.  (The script only replaces non-empty
    literals; the model leaves [s] alone for an empty [old].) *)
Equations? replace (old new s : str) : str by wf (length s) lt :=
  replace [] new s := s;
  replace (c :: old') new [] := [];
  replace (c :: old') new (a :: s') with find (c :: old') (a :: s') := {
    | None => a :: s'
    | Some i =>
        firstn i (a :: s') ++ new
          ++ replace (c :: old') new (skipn (i + S (length old')) (a :: s'))
  }.
Proof.
  rewrite Nat.add_succ_r. simpl. rewrite length_skipn. lia.
Qed.

(** [str.isspace] on one code point (the table of CPython's
    [_PyUnicode_IsWhitespace]). *)
Definition isspace (c : N) : bool :=
  (((0x09 <=? c) && (c <=? 0x0D)) || ((0x1C <=? c) && (c <=? 0x20))
   || (c =? 0x85) || (c =? 0xA0) || (c =? 0x1680)
   || ((0x2000 <=? c) && (c <=? 0x200A))
   || (c =? 0x2028) || (c =? 0x2029) || (c =? 0x202F) || (c =? 0x205F)
   || (c =? 0x3000))%N.

Fixpoint lstrip (s : str) : str :=
  match s with
  | [] => []
  | c :: s' => if isspace c then lstrip s' else s
  end.

Definition rstrip (s : str) : str := rev (lstrip (rev s)).

(** [s.strip()] *)
Definition strip (s : str) : str := rstrip (lstrip s).

(** [sep.join(parts)] *)
Fixpoint join (sep : str) (parts : list str) : str :=
  match parts with
  | [] => []
  | [p] => p
  | p :: ps => p ++ sep ++ join sep ps
  end.

(** Iterating over a [str] yields its characters as strings of length
    one. *)
Definition chars (s : str) : list str := map (fun c => [c]) s.

(** ** Dictionaries *)

(** A [dict] with [str] keys: the items in insertion order. *)
Definition dict (V : Type) : Type := list (str * V).

Section Dict.
Context {V : Type}.

(** [d.get(k)] *)
Fixpoint dict_get (k : str) (d : dict V) : option V :=
  match d with
  | [] => None
  | (k', v) :: d' => if str_eqb k k' then Some v else dict_get k d'
  end.

(** [k in d] *)
Definition dict_mem (k : str) (d : dict V) : bool :=
  existsb (fun kv => str_eqb k (fst kv)) d.

(** [d[k] = v]: an existing key keeps its place and takes the new
    value, a new key goes last. *)
Fixpoint dict_set (k : str) (v : V) (d : dict V) : dict V :=
  match d with
  | [] => [(k, v)]
  | (k', v') :: d' =>
      if str_eqb k k' then (k', v) :: d' else (k', v') :: dict_set k v d'
  end.

Definition keys (d : dict V) : list str := map fst d.
End Dict.

(** ** The feed *)

(** What the script reads of a [feedparser] entry. *)
Record raw_entry : Type := RawEntry {
  raw_title : str;
  raw_link : str;
  raw_description : str
}.

(** The dictionary [{"title": .., "link": .., "description": ..}]. *)
Record entry : Type := Entry {
  title : str;
  link : str;
  description : str
}.

(** The value expression of the comprehension of [get_arxiv_feed]. *)
Definition entry_of (e : raw_entry) : entry :=
  Entry (strip (hd [] (split (lit ".") (raw_title e))))
        (strip (raw_link e))
        (strip (replace (lit "</p>") [] (replace (lit "<p>") [] (raw_description e)))).

(** [get_arxiv_feed], given the entries [feedparser.parse] returned: a
    dict comprehension keyed by the stripped link. *)
Definition get_arxiv_feed (entries : list raw_entry) : dict entry :=
  fold_left (fun res e => dict_set (strip (raw_link e)) (entry_of e) res)
            entries [].

(** ** The archive file *)

(** [combined.json] on disk: absent, present without being JSON, or a
    JSON object given by its members in file order, with the strings
    [json.load] returns for them.  (A file that is not UTF-8, and JSON
    values other than an object, are not modelled.  [json.load] reads back
    what [json.dump] wrote, except that a high surrogate followed by a low
    one comes back as one character: the model takes written strings to
    hold no such pair.) *)
Inductive file : Type :=
| Absent
| Corrupt
| Object (members : list (str * entry)).

(** [json.load] builds the dict member by member, so a repeated key keeps
    its first place and its last value. *)
Definition dict_of_members (members : list (str * entry)) : dict entry :=
  fold_left (fun d kv => dict_set (fst kv) (snd kv) d) members [].

(** [with open(filename, "r") as f: archive = json.load(f)] *)
Definition load (f : file) : result (dict entry) :=
  match f with
  | Absent => Raise FileNotFoundError
  | Corrupt => Raise JSONDecodeError
  | Object members => Ok (dict_of_members members)
  end.

Definition exn_eqb (a b : exn) : bool :=
  match a, b with
  | UnicodeEncodeError, UnicodeEncodeError
  | UnicodeDecodeError, UnicodeDecodeError
  | AttributeError, AttributeError
  | FileNotFoundError, FileNotFoundError
  | JSONDecodeError, JSONDecodeError => true
  | _, _ => false
  end.

(** [try: body except e: handler] *)
Definition try_except {A : Type} (body : result A) (e : exn)
           (handler : result A) : result A :=
  match body with
  | Ok a => Ok a
  | Raise e' => if exn_eqb e e' then handler else Raise e'
  end.

(** ** Facets and posts *)

(** The Python values [parse_facets] builds. *)
#[local] Unset Elimination Schemes.
Inductive pyval : Type :=
| PInt (n : nat)
| PStr (s : str)
| PList (l : list pyval)
| PDict (d : list (string * pyval)).
#[local] Set Elimination Schemes.

(** [v[k]] on a dictionary value. *)
Definition py_get (k : string) (v : pyval) : option pyval :=
  match v with
  | PDict d =>
      match List.find (fun kv => String.eqb k (fst kv)) d with
      | Some kv => Some (snd kv)
      | None => None
      end
  | _ => None
  end.

(** The dictionary appended for one span. *)
Definition facet_of (u : span) : pyval :=
  PDict [("index"%string,
          PDict [("byteStart"%string, PInt (span_start u));
                 ("byteEnd"%string, PInt (span_end u))]);
         ("features"%string,
          PList [PDict [("$type"%string, PStr (lit "app.bsky.richtext.facet#link"));
                        ("uri"%string, PStr (span_url u))]])].

Definition parse_facets (text : str) : result (list pyval) :=
  us <- parse_urls text ;;
  for_each (fun facets u => Ok (facets ++ [facet_of u])) us [].

(** The record sent to [com.atproto.repo.createRecord], without its
    timestamp: the text and, when there are any, the facets. *)
Record post : Type := Post {
  post_text : str;
  post_facets : option (list pyval)
}.

(** The state the script acts on: the archive file and the posts
    published so far.  The network calls are taken to succeed; sessions,
    timestamps and the pauses between posts are left out. *)
Record world : Type := World {
  disk : file;
  outbox : list post
}.

Definition create_post (text : str) (w : world) : result world :=
  facets <- (if 0 <? length text then
               fs <- parse_facets text ;;
               Ok (match fs with [] => None | _ => Some fs end)
             else Ok None) ;;
  Ok (World (disk w) (outbox w ++ [Post text facets])).

(** ** get_and_write_feed_json *)

(** The loop [for k, v in feed.items(): if k not in archive: new_archive[k] = v]. *)
Definition merge_step (archive : dict entry) (new_archive : dict entry)
           (kv : str * entry) : dict entry :=
  if negb (dict_mem (fst kv) archive) then dict_set (fst kv) (snd kv) new_archive
  else new_archive.

Definition get_and_write_feed_json (entries : list raw_entry) (w : world)
  : result (dict entry * dict entry * world) :=
  let feed := get_arxiv_feed entries in
  archive <- try_except (load (disk w)) FileNotFoundError (Ok []) ;;
  let new_archive := fold_left (merge_step archive) feed archive in
  let w' := if length archive <? length new_archive
            then World (Object new_archive) (outbox w)
            else w in
  Ok (feed, archive, w').

(** ** main *)

Definition newline : str := [10%N].

(** ["...📈🤖"] *)
Definition suffix : str := lit "..." ++ [0x1F4C8; 0x1F916]%N.

(** ["No new papers today! 📈🤖"] *)
Definition placeholder : str :=
  lit "No new papers today! " ++ [0x1F4C8; 0x1F916]%N.

(** [''.join(v['description']).split('Abstract:')[-1].strip()] *)
Definition abstract_fragment (d : str) : str :=
  strip (last (split (lit "Abstract:") (join [] (chars d))) []).

(** The f-string [f"{v['title']}\n{v['link']}\n{...}"]. *)
Definition content (v : entry) : str :=
  title v ++ newline ++ link v ++ newline ++ abstract_fragment (description v).

(** [post_str] *)
Definition compose_post (v : entry) : str :=
  firstn 293 (content v) ++ suffix.

(** The state of the loop of [main]. *)
Record loop_state : Type := LoopState {
  ls_archive : dict entry;
  ls_new_posts : Z;
  ls_world : world
}.

Definition main_step (st : loop_state) (kv : str * entry) : result loop_state :=
  let (k, v) := kv in
  if negb (dict_mem k (ls_archive st)) then
    w' <- create_post (compose_post v) (ls_world st) ;;
    Ok (LoopState (dict_set k v (ls_archive st)) (ls_new_posts st + 1) w')
  else Ok st.

(** [new_posts == 0 & (len(archive) > 2)]: [&] binds tighter than [==],
    and a bool is the integer 0 or 1. *)
Definition placeholder_test (new_posts : Z) (archive : dict entry) : bool :=
  Z.eqb new_posts (Z.land 0 (Z.b2z (2 <? length archive))).

Definition main (entries : list raw_entry) (w : world) : result world :=
  r <- get_and_write_feed_json entries w ;;
  let '(pull, archive, w1) := r in
  st <- for_each main_step pull (LoopState archive 0 w1) ;;
  if placeholder_test (ls_new_posts st) (ls_archive st)
  then create_post placeholder (ls_world st)
  else Ok (ls_world st).

(** * Properties *)

(** ** Loops that only append *)

Lemma for_each_append {A B : Type} (f : A -> B) (xs : list A) (acc : list B) :
  for_each (fun l x => Ok (l ++ [f x])) xs acc = Ok (acc ++ map f xs).
Proof.
  revert acc; induction xs as [|x xs IH]; intros acc; simpl.
  - now rewrite app_nil_r.
  - rewrite IH, <- app_assoc. reflexivity.
Qed.

(** ** The facet builder *)

(** [f["index"][k]] *)
Definition facet_index (k : string) (f : pyval) : option pyval :=
  match py_get "index" f with
  | Some idx => py_get k idx
  | None => None
  end.

(** What a facet [f] has to hold for the span [u]. *)
Definition facet_for (f : pyval) (u : span) : Prop :=
  facet_index "byteStart" f = Some (PInt (span_start u))
  /\ facet_index "byteEnd" f = Some (PInt (span_end u))
  /\ exists feature,
       py_get "features" f = Some (PList [feature])
       /\ py_get "$type" feature = Some (PStr (lit "app.bsky.richtext.facet#link"))
       /\ py_get "uri" feature = Some (PStr (span_url u))
       /\ py_get "url" feature = None.

Lemma facet_of_for (u : span) : facet_for (facet_of u) u.
Proof.
  repeat split. eexists. repeat split.
Qed.

(** C7. For every text, [parse_facets] returns one record per span that
    [parse_urls] returns on the same text, in the same order; each record
    carries the span's start and end as [byteStart] and [byteEnd] and one
    link feature whose field [uri] (there is no field [url]) is the span's
    url.  When [parse_urls] raises, [parse_facets] raises the same. *)
Theorem parse_facets_follows_parse_urls (text : str) :
  match parse_urls text with
  | Ok us =>
      parse_facets text = Ok (map facet_of us)
      /\ length (map facet_of us) = length us
      /\ Forall2 facet_for (map facet_of us) us
  | Raise e => parse_facets text = Raise e
  end.
Proof.
  unfold parse_facets. destruct (parse_urls text) as [us|e]; simpl; auto.
  split; [apply (for_each_append facet_of us [])|].
  split; [apply length_map|].
  induction us as [|u us IH]; simpl; constructor; auto using facet_of_for.
Qed.

(** ** The post composer *)

(** The entry of the specification's own example. *)
Definition foo_bar : entry :=
  Entry (lit "Foo bar") (lit "http://x") (lit "Abstract: hello world").

(** C3, as the specification states it, fails on that entry: no
    3-character suffix completes the truncated content to the composed
    post. *)
Lemma suffix_is_not_three_characters :
  ~ (exists sfx : str,
        length sfx = 3
        /\ compose_post foo_bar = firstn 293 (content foo_bar) ++ sfx).
Proof.
  intros [sfx [Hlen Heq]].
  apply (f_equal (@length N)) in Heq.
  rewrite length_app, Hlen in Heq. vm_compute in Heq. discriminate.
Qed.

(** C3, amended. The composed post is the content (title, newline, link,
    newline, abstract fragment) cut to its first 293 characters, followed
    by the fixed 5-character suffix (three periods and two emoji),
    whether or not anything was cut; content longer than 293 characters
    leaves exactly 293 characters before the suffix, shorter content is
    kept whole. *)
Theorem compose_post_truncates (v : entry) :
  content v
  = title v ++ [10%N] ++ link v ++ [10%N] ++ abstract_fragment (description v)
  /\ compose_post v = firstn 293 (content v) ++ suffix
  /\ length suffix = 5
  /\ length (firstn 293 (content v)) <= 293
  /\ (293 < length (content v) -> length (firstn 293 (content v)) = 293)
  /\ (length (content v) <= 293 -> firstn 293 (content v) = content v)
  /\ length (compose_post v) = Nat.min 293 (length (content v)) + 5.
Proof.
  repeat split.
  - rewrite length_firstn. lia.
  - intros H. rewrite length_firstn. lia.
  - intros H. now apply firstn_all2.
  - unfold compose_post. rewrite length_app, length_firstn. reflexivity.
Qed.

(** ** The placeholder *)

Lemma placeholder_test_spec (new_posts : Z) (archive : dict entry) :
  placeholder_test new_posts archive = (new_posts =? 0)%Z.
Proof.
  unfold placeholder_test. now rewrite Z.land_0_l.
Qed.

(** ** Dictionaries *)

Lemma str_eqb_eq (a b : str) : str_eqb a b = true <-> a = b.
Proof.
  unfold str_eqb. destruct (list_eq_dec N.eq_dec a b); split; auto; discriminate.
Qed.

Lemma str_eqb_neq (a b : str) : str_eqb a b = false <-> a <> b.
Proof.
  unfold str_eqb. destruct (list_eq_dec N.eq_dec a b); split; auto;
    try discriminate; contradiction.
Qed.

Section DictFacts.
Context {V : Type}.
Implicit Types (d : dict V) (k : str) (v : V).

Lemma dict_mem_In k d : dict_mem k d = true <-> In k (keys d).
Proof.
  unfold dict_mem, keys. rewrite existsb_exists, in_map_iff. split.
  - intros [kv [Hin Heq]]. apply str_eqb_eq in Heq. eauto.
  - intros [kv [Heq Hin]]. exists kv. split; auto. now apply str_eqb_eq.
Qed.

Lemma dict_mem_not_In k d : dict_mem k d = false <-> ~ In k (keys d).
Proof.
  rewrite <- dict_mem_In. destruct (dict_mem k d); split; auto;
    try discriminate; intros H; now contradiction H.
Qed.

Lemma dict_mem_app k d1 d2 :
  dict_mem k (d1 ++ d2) = dict_mem k d1 || dict_mem k d2.
Proof. apply existsb_app. Qed.

Lemma dict_set_absent k v d :
  dict_mem k d = false -> dict_set k v d = d ++ [(k, v)].
Proof.
  induction d as [|[k' v'] d IH]; simpl; auto.
  intros H. apply orb_false_elim in H as [H1 H2].
  rewrite H1. now rewrite IH.
Qed.

Lemma keys_dict_set k v d :
  keys (dict_set k v d) = if dict_mem k d then keys d else keys d ++ [k].
Proof.
  induction d as [|[k' v'] d IH]; simpl; auto.
  destruct (str_eqb k k') eqn:E; simpl; auto.
  rewrite IH. now destruct (dict_mem k d).
Qed.

Lemma NoDup_snoc (A : Type) (l : list A) (x : A) :
  NoDup l -> ~ In x l -> NoDup (l ++ [x]).
Proof.
  intros Hl Hx. apply NoDup_app; auto.
  - constructor; [intros []|constructor].
  - intros a Ha [<-|[]]. contradiction.
Qed.

Lemma NoDup_keys_dict_set k v d :
  NoDup (keys d) -> NoDup (keys (dict_set k v d)).
Proof.
  intros H. rewrite keys_dict_set. destruct (dict_mem k d) eqn:E; auto.
  apply NoDup_snoc; auto. now apply dict_mem_not_In.
Qed.


(** Filling a dictionary from items with distinct keys keeps the
    items. *)
Lemma fold_dict_set_NoDup (items acc : dict V) :
  NoDup (keys (acc ++ items)) ->
  fold_left (fun d kv => dict_set (fst kv) (snd kv) d) items acc
  = acc ++ items.
Proof.
  revert acc; induction items as [|[k v] items IH]; intros acc H; simpl.
  - now rewrite app_nil_r.
  - assert (Hk : dict_mem k acc = false).
    { apply dict_mem_not_In. unfold keys in *. rewrite map_app in H.
      simpl in H. apply NoDup_remove_2 in H. intros Hin. apply H.
      apply in_or_app. now left. }
    rewrite dict_set_absent by exact Hk.
    rewrite IH; rewrite <- app_assoc; auto.
Qed.

Lemma fold_dict_set_keys {A : Type} (key : A -> str) (val : A -> V)
      (xs : list A) (acc : dict V) :
  NoDup (keys acc) ->
  NoDup (keys (fold_left (fun d x => dict_set (key x) (val x) d) xs acc)).
Proof.
  revert acc; induction xs as [|x xs IH]; intros acc H; simpl; auto.
  apply IH. now apply NoDup_keys_dict_set.
Qed.
End DictFacts.

Lemma NoDup_keys_feed (entries : list raw_entry) :
  NoDup (keys (get_arxiv_feed entries)).
Proof.
  unfold get_arxiv_feed.
  apply (fold_dict_set_keys (fun e => strip (raw_link e)) entry_of).
  constructor.
Qed.

Lemma NoDup_keys_members (members : list (str * entry)) :
  NoDup (keys (dict_of_members members)).
Proof.
  unfold dict_of_members. apply (fold_dict_set_keys fst snd). constructor.
Qed.

(** Reloading what was dumped gives the dictionary back. *)
Lemma dict_of_members_dict (d : dict entry) :
  NoDup (keys d) -> dict_of_members d = d.
Proof.
  intros H. unfold dict_of_members. now rewrite fold_dict_set_NoDup.
Qed.

(** ** The archive differ *)

(** The fetched items whose key the archive does not hold. *)
Definition new_items (feed archive : dict entry) : dict entry :=
  filter (fun kv => negb (dict_mem (fst kv) archive)) feed.

Lemma merge_new_items (archive feed acc : dict entry) :
  NoDup (keys feed) ->
  (forall k, In k (keys feed) -> dict_mem k archive = false ->
             dict_mem k acc = false) ->
  fold_left (merge_step archive) feed acc = acc ++ new_items feed archive.
Proof.
  revert acc; induction feed as [|[k v] feed IH]; intros acc Hnd Hacc; simpl.
  - now rewrite app_nil_r.
  - inversion Hnd as [|? ? Hk Hnd']; subst.
    unfold merge_step at 2; simpl.
    destruct (dict_mem k archive) eqn:E; simpl.
    + apply IH; auto. intros k' Hin. apply Hacc. now right.
    + rewrite dict_set_absent by (apply Hacc; simpl; auto).
      rewrite IH; [now rewrite <- app_assoc | auto |].
      intros k' Hin Hk'. rewrite dict_mem_app, (Hacc k') by (simpl; auto).
      simpl. rewrite orb_false_r. apply str_eqb_neq. intros ->. contradiction.
Qed.

Lemma length_new_items (feed archive : dict entry) :
  (length archive <? length (archive ++ new_items feed archive))
  = match new_items feed archive with [] => false | _ => true end.
Proof.
  rewrite length_app. destruct (new_items feed archive); simpl.
  - rewrite Nat.add_0_r. apply Nat.ltb_irrefl.
  - apply Nat.ltb_lt. lia.
Qed.

(** What [get_and_write_feed_json] does once the archive is loaded. *)
Lemma get_and_write_loaded (entries : list raw_entry) (w : world)
      (archive : dict entry) :
  try_except (load (disk w)) FileNotFoundError (Ok []) = Ok archive ->
  get_and_write_feed_json entries w
  = Ok (get_arxiv_feed entries, archive,
        match new_items (get_arxiv_feed entries) archive with
        | [] => w
        | news => World (Object (archive ++ news)) (outbox w)
        end).
Proof.
  intros H. unfold get_and_write_feed_json. rewrite H. simpl.
  rewrite merge_new_items; auto using NoDup_keys_feed.
  rewrite length_new_items.
  now destruct (new_items (get_arxiv_feed entries) archive).
Qed.

Lemma new_items_spec (feed archive : dict entry) (k : str) (v : entry) :
  In (k, v) (new_items feed archive)
  <-> In (k, v) feed /\ ~ In k (keys archive).
Proof.
  unfold new_items. rewrite filter_In. simpl.
  rewrite negb_true_iff, dict_mem_not_In. reflexivity.
Qed.

Lemma new_items_nil_archive (feed : dict entry) : new_items feed [] = feed.
Proof.
  unfold new_items, dict_mem.
  induction feed as [|kv feed IH]; simpl; [reflexivity|].
  now f_equal.
Qed.

Lemma NoDup_keys_merge (archive feed acc : dict entry) :
  NoDup (keys acc) -> NoDup (keys (fold_left (merge_step archive) feed acc)).
Proof.
  revert acc; induction feed as [|kv feed IH]; intros acc H; simpl; auto.
  apply IH. unfold merge_step.
  destruct (negb (dict_mem (fst kv) archive)); auto using NoDup_keys_dict_set.
Qed.

Lemma loaded_NoDup (f : file) (archive : dict entry) :
  try_except (load f) FileNotFoundError (Ok []) = Ok archive ->
  NoDup (keys archive).
Proof.
  destruct f as [| |members]; simpl; intros [= <-].
  - constructor.
  - apply NoDup_keys_members.
Qed.

(** ** The loop of [main] *)

Lemma create_post_inv (text : str) (w w' : world) :
  create_post text w = Ok w' ->
  disk w' = disk w
  /\ map post_text (outbox w') = map post_text (outbox w) ++ [text].
Proof.
  unfold create_post.
  destruct (if 0 <? length text then _ else _) as [fs|e]; simpl;
    [|discriminate].
  intros [= <-]. simpl. now rewrite map_app.
Qed.

Lemma main_loop (archive0 feed : dict entry) (st st' : loop_state) :
  NoDup (keys feed) ->
  (forall k, In k (keys feed) ->
             dict_mem k (ls_archive st) = dict_mem k archive0) ->
  for_each main_step feed st = Ok st' ->
  ls_archive st' = ls_archive st ++ new_items feed archive0
  /\ ls_new_posts st'
     = (ls_new_posts st + Z.of_nat (length (new_items feed archive0)))%Z
  /\ disk (ls_world st') = disk (ls_world st)
  /\ map post_text (outbox (ls_world st'))
     = map post_text (outbox (ls_world st))
       ++ map (fun kv => compose_post (snd kv)) (new_items feed archive0).
Proof.
  revert st; induction feed as [|[k v] feed IH]; intros st Hnd Hmem; simpl.
  - intros [= <-]. rewrite !app_nil_r, Z.add_0_r. auto.
  - inversion Hnd as [|? ? Hk Hnd']; subst.
    rewrite (Hmem k) by (simpl; auto).
    destruct (dict_mem k archive0) eqn:E; simpl.
    + intros H. apply IH in H; auto. intros k' Hin. apply Hmem. now right.
    + destruct (create_post (compose_post v) (ls_world st)) as [w1|e] eqn:Ep;
        simpl; [|discriminate].
      apply create_post_inv in Ep as [Hd Ho].
      assert (Hk0 : dict_mem k (ls_archive st) = false)
        by (rewrite (Hmem k); simpl; auto).
      intros H. apply IH in H; auto.
      * simpl in H. destruct H as (Ha & Hn & Hd' & Ho').
        rewrite Ha, Hn, Hd', Ho', Hd, Ho.
        rewrite dict_set_absent by exact Hk0.
        rewrite <- !app_assoc. simpl. repeat split; auto. lia.
      * simpl. intros k' Hin.
        rewrite dict_set_absent by exact Hk0.
        rewrite dict_mem_app, (Hmem k') by (simpl; auto). simpl.
        assert (Hne : str_eqb k' k = false)
          by (apply str_eqb_neq; intros ->; contradiction).
        rewrite Hne. now rewrite !orb_false_r.
Qed.

(** What a run of [main] that ends normally leaves behind. *)
Lemma main_loaded (entries : list raw_entry) (w w' : world)
      (archive : dict entry) :
  try_except (load (disk w)) FileNotFoundError (Ok []) = Ok archive ->
  main entries w = Ok w' ->
  match new_items (get_arxiv_feed entries) archive with
  | [] =>
      disk w' = disk w
      /\ map post_text (outbox w') = map post_text (outbox w) ++ [placeholder]
  | news =>
      disk w' = Object (archive ++ news)
      /\ map post_text (outbox w')
         = map post_text (outbox w) ++ map (fun kv => compose_post (snd kv)) news
  end.
Proof.
  intros Hload. unfold main.
  rewrite (get_and_write_loaded entries w Hload). simpl.
  set (feed := get_arxiv_feed entries).
  set (w1 := match new_items feed archive with [] => w | _ => _ end).
  destruct (for_each main_step feed (LoopState archive 0 w1)) as [st|e] eqn:E;
    simpl; [|discriminate].
  apply (@main_loop archive) in E;
    [|apply NoDup_keys_feed|reflexivity].
  simpl in E. destruct E as (Ha & Hn & Hd & Ho).
  rewrite placeholder_test_spec, Hn.
  assert (Hw1 : outbox w1 = outbox w)
    by (subst w1; now destruct (new_items feed archive)).
  rewrite Hw1 in Ho.
  destruct (new_items feed archive) as [|kv news] eqn:En.
  - simpl. intros H. apply create_post_inv in H as [Hd' Ho'].
    rewrite Hd', Ho', Hd, Ho. simpl. now rewrite app_nil_r.
  - replace (0 + Z.of_nat (length (kv :: news)) =? 0)%Z with false
      by (symmetry; apply Z.eqb_neq; simpl length; lia).
    intros [= <-]. rewrite Hd, Ho. split; reflexivity.
Qed.

(** ** String methods *)

Lemma starts_with_app (p s : str) :
  starts_with p s = true <-> exists t, s = p ++ t.
Proof.
  revert s; induction p as [|a p IH]; intros s; simpl.
  - split; eauto.
  - destruct s as [|b s].
    + split; [discriminate|]. intros [t Ht]. discriminate.
    + rewrite andb_true_iff, N.eqb_eq, IH. split.
      * intros [-> [t ->]]. eauto.
      * intros [t [= -> ->]]. eauto.
Qed.

(** [find] returns the leftmost occurrence. *)
Lemma find_Some (sub s : str) (i : nat) :
  find sub s = Some i ->
  exists a b, s = a ++ sub ++ b /\ length a = i
              /\ forall a' b', s = a' ++ sub ++ b' -> i <= length a'.
Proof.
  revert i; induction s as [|c s IH]; intros i; cbn [find].
  - destruct (starts_with sub []) eqn:E; [|discriminate].
    intros [= <-]. apply starts_with_app in E as [t Ht].
    exists [], t. repeat split; auto. intros; lia.
  - destruct (starts_with sub (c :: s)) eqn:E.
    + intros [= <-]. apply starts_with_app in E as [t Ht].
      exists [], t. repeat split; auto. intros; lia.
    + destruct (find sub s) as [j|]; cbn [option_map]; [|discriminate].
      intros [= <-]. destruct (IH j eq_refl) as (a & b & -> & <- & Hmin).
      exists (c :: a), b. repeat split; auto.
      intros [|c' a'] b' H.
      * assert (starts_with sub (c :: a ++ sub ++ b) = true)
          by (apply starts_with_app; eauto).
        congruence.
      * simpl in H. injection H as -> H. apply Hmin in H. simpl; lia.
Qed.

Lemma find_None (sub s : str) :
  find sub s = None -> forall a b, s <> a ++ sub ++ b.
Proof.
  induction s as [|c s IH]; cbn [find].
  - destruct (starts_with sub []) eqn:E; [discriminate|].
    intros _ a b H.
    destruct a; simpl in H.
    + assert (starts_with sub [] = true) by (apply starts_with_app; eauto).
      congruence.
    + discriminate.
  - destruct (starts_with sub (c :: s)) eqn:E; [discriminate|].
    destruct (find sub s) as [j|]; cbn [option_map]; [discriminate|].
    intros _ [|c' a] b H.
    + assert (starts_with sub (c :: s) = true)
        by (apply starts_with_app; eauto).
      congruence.
    + simpl in H. injection H as -> H. now apply (IH eq_refl a b).
Qed.

(** The defining equation of [split], whatever [s] is. *)
Lemma split_at_find (c : N) (sep' s : str) :
  split (c :: sep') s
  = match find (c :: sep') s with
    | None => [s]
    | Some i =>
        firstn i s :: split (c :: sep') (skipn (i + S (length sep')) s)
    end.
Proof.
  destruct s as [|a s']; simp split; [reflexivity|].
  destruct (find (c :: sep') (a :: s')); reflexivity.
Qed.

Lemma split_not_nil (sep s : str) : split sep s <> [].
Proof.
  destruct sep as [|c sep']; [simp split; discriminate|].
  rewrite split_at_find. destruct (find (c :: sep') s); discriminate.
Qed.

Lemma split_absent (sep s : str) : find sep s = None -> split sep s = [s].
Proof.
  destruct sep as [|c sep']; [simp split; reflexivity|].
  intros H. now rewrite split_at_find, H.
Qed.

Lemma last_cons_not_nil {A : Type} (x : A) (l : list A) (d : A) :
  l <> [] -> last (x :: l) d = last l d.
Proof. destruct l; [contradiction|reflexivity]. Qed.

Lemma skipn_app_exact {A : Type} (a b : list A) (n : nat) :
  n = length a -> skipn n (a ++ b) = b.
Proof.
  intros ->. rewrite skipn_app, skipn_all, Nat.sub_diag. reflexivity.
Qed.

(** When the first character of the separator occurs nowhere else in
    it, two occurrences cannot overlap, and the last piece of the split
    is what follows the last occurrence. *)
Lemma split_last (c : N) (sep' pre post : str) :
  ~ In c sep' ->
  find (c :: sep') post = None ->
  last (split (c :: sep') (pre ++ (c :: sep') ++ post)) [] = post.
Proof.
  intros Hc Hpost.
  remember (length pre) as n eqn:Hn. revert pre Hn.
  induction n as [n IH] using lt_wf_ind. intros pre Hn.
  rewrite split_at_find.
  assert (Hlen : S (length sep') = length (c :: sep')) by reflexivity.
  rewrite Hlen. clear Hlen.
  remember (c :: sep') as sep eqn:Hsepdef.
  destruct (find sep (pre ++ sep ++ post)) as [i|] eqn:E.
  2:{ exfalso. exact (@find_None _ _ E pre post eq_refl). }
  apply find_Some in E as (a & b & Hs & Hi & Hmin).
  assert (Hle : i <= length pre) by (apply (Hmin pre post); reflexivity).
  rewrite last_cons_not_nil by apply split_not_nil.
  replace (i + length sep) with (length (a ++ sep))
    by (rewrite length_app; lia).
  rewrite Hs, app_assoc, skipn_app_exact by reflexivity.
  symmetry in Hs. apply app_eq_app in Hs as [l [[Ha Hb] | [Hp Hb]]].
  - (* the occurrence starts at or after the end of [pre] *)
    assert (l = []) as ->
        by (apply length_zero_iff_nil; subst a; rewrite length_app in *; lia).
    rewrite app_nil_l in Hb. apply app_inv_head in Hb. subst b.
    now rewrite split_absent.
  - apply app_eq_app in Hb as [l' [[Hsep Hb] | [Hl Hb]]].
    + destruct l as [|x l].
      * rewrite app_nil_l in Hsep. subst l'. apply app_inv_head in Hb.
        subst b. now rewrite split_absent.
      * destruct l' as [|y l'].
        -- (* the occurrence ends where [pre] ends *)
           rewrite app_nil_r in Hsep. rewrite app_nil_l in Hb. subst b.
           refine (IH 0 _ [] eq_refl).
           subst pre n. rewrite length_app. simpl. lia.
        -- (* the occurrence would overlap the last one *)
           exfalso. apply Hc.
           assert (y = c) as ->
               by (rewrite Hsepdef in Hb; simpl in Hb; congruence).
           rewrite Hsepdef in Hsep. simpl in Hsep.
           injection Hsep as _ Hsep.
           rewrite Hsep. apply in_or_app. right. now left.
    + (* the occurrence lies within [pre] *)
      subst b l.
      apply (IH (length l')); [|reflexivity].
      subst pre n. rewrite !length_app. subst sep. simpl. lia.
Qed.

Lemma join_chars (d : str) : join [] (chars d) = d.
Proof.
  induction d as [|c d IH]; [reflexivity|].
  unfold chars in *. simpl map. destruct d as [|c' d]; [reflexivity|].
  change (join [] ([c] :: map (fun c0 => [c0]) (c' :: d)))
    with ([c] ++ [] ++ join [] (map (fun c0 => [c0]) (c' :: d))).
  now rewrite IH.
Qed.

(** A string that does not start with white space. *)
Definition no_lead (s : str) : Prop :=
  match s with
  | [] => True
  | c :: _ => isspace c = false
  end.

Lemma lstrip_no_lead (s : str) : no_lead (lstrip s).
Proof.
  induction s as [|c s IH]; simpl; auto.
  destruct (isspace c) eqn:E; simpl; auto.
Qed.

Lemma lstrip_fixed (s : str) : no_lead s -> lstrip s = s.
Proof.
  destruct s as [|c s]; simpl; auto. now intros ->.
Qed.

Lemma lstrip_suffix (s : str) : exists sp, s = sp ++ lstrip s.
Proof.
  induction s as [|c s [sp IH]]; simpl.
  - now exists [].
  - destruct (isspace c).
    + exists (c :: sp). simpl. now f_equal.
    + now exists [].
Qed.

Lemma rstrip_prefix (s : str) : exists sp, s = rstrip s ++ sp.
Proof.
  unfold rstrip. destruct (lstrip_suffix (rev s)) as [sp H].
  exists (rev sp). rewrite <- rev_app_distr, <- H. now rewrite rev_involutive.
Qed.

Lemma rstrip_no_lead (s : str) : no_lead s -> no_lead (rstrip s).
Proof.
  destruct (rstrip_prefix s) as [sp H]. intros Hs.
  destruct (rstrip s) as [|c r]; simpl; auto.
  rewrite H in Hs. exact Hs.
Qed.

Lemma rstrip_idem (s : str) : rstrip (rstrip s) = rstrip s.
Proof.
  unfold rstrip. rewrite rev_involutive.
  now rewrite (@lstrip_fixed _ (lstrip_no_lead (rev s))).
Qed.

(** [strip] leaves a stripped string alone. *)
Lemma strip_idem (s : str) : strip (strip s) = strip s.
Proof.
  unfold strip.
  rewrite (@lstrip_fixed _ (@rstrip_no_lead _ (lstrip_no_lead s))).
  apply rstrip_idem.
Qed.

(** ** The abstract fragment *)

Lemma marker_head_unique :
  ~ In (N_of_ascii "A") (lit "bstract:").
Proof.
  vm_compute. intuition discriminate.
Qed.

(** C10. Without the marker ["Abstract:"] the abstract fragment is the
    whole description, stripped; for a description that [get_arxiv_feed]
    produced (markup removed and already stripped) it is the description
    itself.  With the marker, the fragment is the stripped text after the
    last occurrence, however many occurrences come before it. *)
Theorem abstract_fragment_uses_last_marker :
  (forall d : str,
      find (lit "Abstract:") d = None -> abstract_fragment d = strip d)
  /\ (forall e : raw_entry,
        find (lit "Abstract:") (description (entry_of e)) = None ->
        abstract_fragment (description (entry_of e)) = description (entry_of e))
  /\ (forall pre post : str,
        find (lit "Abstract:") post = None ->
        abstract_fragment (pre ++ lit "Abstract:" ++ post) = strip post).
Proof.
  unfold abstract_fragment. repeat split.
  - intros d H. now rewrite join_chars, split_absent.
  - intros e H. rewrite join_chars, split_absent by exact H.
    simpl. apply strip_idem.
  - intros pre post H. rewrite join_chars.
    change (lit "Abstract:") with (N_of_ascii "A" :: lit "bstract:") in *.
    rewrite split_last; auto using marker_head_unique.
Qed.

Example abstract_fragment_two_markers :
  abstract_fragment (lit "Abstract: one Abstract: two ") = lit "two".
Proof. vm_compute. reflexivity. Qed.

Example compose_post_example :
  map (fun kv => compose_post (snd kv))
      (get_arxiv_feed
         [RawEntry (lit "Foo bar. baz") (lit "http://x")
                   (lit "<p>Abstract: hello world</p>")])
  = [lit "Foo bar" ++ [10%N] ++ lit "http://x" ++ [10%N]
       ++ lit "hello world..." ++ [0x1F4C8; 0x1F916]%N].
Proof. vm_compute. reflexivity. Qed.

(** ** What the matcher accepts *)

(** [matches r st st']: from [st], [r] can match up to [st'].  A
    repetition records its lower bound only. *)
Inductive matches : regex -> cursor -> cursor -> Prop :=
| M_Lit (c : ascii) (t : bytes) (st : cursor) :
    rest st = c :: t -> matches (Lit c) st (advance c t st)
| M_Class (items : list item) (c : ascii) (t : bytes) (st : cursor) :
    rest st = c :: t -> class_matches items c = true ->
    matches (Class items) st (advance c t st)
| M_Boundary (st : cursor) :
    at_boundary st = true -> matches Boundary st st
| M_Cat (r1 r2 : regex) (st st1 st2 : cursor) :
    matches r1 st st1 -> matches r2 st1 st2 -> matches (Cat r1 r2) st st2
| M_Stop (hi : option nat) (r : regex) (st : cursor) :
    matches (Repeat 0 hi r) st st
| M_Iter (lo : nat) (hi hi' : option nat) (r : regex) (st st1 st2 : cursor) :
    matches r st st1 -> pos st1 <> pos st ->
    matches (Repeat (Nat.pred lo) hi' r) st1 st2 ->
    matches (Repeat lo hi r) st st2
| M_Group (n : nat) (r : regex) (st st' : cursor) :
    matches r st st' -> matches (Group n r) st (close_group n (pos st) st').

(** The bytes [r] can consume. *)
Fixpoint alphabet (r : regex) (c : ascii) : bool :=
  match r with
  | Lit d => Ascii.eqb d c
  | Class items => class_matches items c
  | Boundary => false
  | Cat r1 r2 => alphabet r1 c || alphabet r2 c
  | Repeat _ _ r' => alphabet r' c
  | Group _ r' => alphabet r' c
  end.

(** The byte before the position, after [consumed] has been read. *)
Definition last_of (consumed : bytes) (b : option ascii) : option ascii :=
  last (map Some consumed) b.

Lemma last_cons_default {A : Type} (x : A) (l : list A) (d : A) :
  last (x :: l) d = last l x.
Proof.
  revert x d; induction l as [|y l IH]; intros x d; [reflexivity|].
  change (last (x :: y :: l) d) with (last (y :: l) d).
  now rewrite !IH.
Qed.

Lemma last_of_cons (c : ascii) (cs : bytes) (b : option ascii) :
  last_of (c :: cs) b = last_of cs (Some c).
Proof. apply last_cons_default. Qed.

Lemma last_of_app (c1 c2 : bytes) (b : option ascii) :
  last_of (c1 ++ c2) b = last_of c2 (last_of c1 b).
Proof.
  revert b; induction c1 as [|x c1 IH]; intros b; [reflexivity|].
  simpl app. now rewrite !last_of_cons, IH.
Qed.

Lemma loop_sound (r : regex) (k : cursor -> option cursor)
      (Hrun : forall st k' res,
          run r st k' = Some res ->
          exists st', matches r st st' /\ k' st' = Some res)
      (hi : option nat) (budget lo : nat) (st res : cursor) :
  loop (run r) k budget lo st = Some res ->
  exists st', matches (Repeat lo hi r) st st' /\ k st' = Some res.
Proof.
  revert lo st hi; induction budget as [|budget IH]; intros lo st hi; simpl.
  - destruct lo; simpl; [|discriminate]. intros H. exists st. split; auto.
    constructor.
  - destruct (run r st _) as [res0|] eqn:E.
    + intros [= ->]. apply Hrun in E as (st1 & Hm & Hk).
      destruct (pos st1 =? pos st) eqn:Ep; [discriminate|].
      apply Nat.eqb_neq in Ep.
      apply (IH _ _ hi) in Hk as (st2 & Hm2 & Hk2).
      exists st2. split; auto. eapply M_Iter; eauto.
    + destruct lo; simpl; [|discriminate]. intros H. exists st. split; auto.
      constructor.
Qed.

(** Whatever the matcher returns went through a match of [r] and then
    through the continuation. *)
Lemma run_sound (r : regex) :
  forall (st : cursor) (k : cursor -> option cursor) (res : cursor),
    run r st k = Some res ->
    exists st', matches r st st' /\ k st' = Some res.
Proof.
  induction r as [c|items| |r1 IH1 r2 IH2|lo hi r IH|n r IH];
    intros st k res; simpl.
  - destruct (rest st) as [|d t] eqn:E; [discriminate|].
    destruct (Ascii.eqb c d) eqn:Ec; [|discriminate].
    apply Ascii.eqb_eq in Ec. subst d. intros H.
    exists (advance c t st). split; auto. now constructor.
  - destruct (rest st) as [|d t] eqn:E; [discriminate|].
    destruct (class_matches items d) eqn:Ec; [|discriminate].
    intros H. exists (advance d t st). split; auto. now constructor.
  - destruct (at_boundary st) eqn:E; [|discriminate].
    intros H. exists st. split; auto. now constructor.
  - intros H. apply IH1 in H as (st1 & Hm1 & H).
    apply IH2 in H as (st2 & Hm2 & H).
    exists st2. split; auto. econstructor; eauto.
  - apply loop_sound. exact IH.
  - intros H. apply IH in H as (st1 & Hm & H).
    exists (close_group n (pos st) st1). split; auto. now constructor.
Qed.

(** A match reads a run of bytes of the alphabet of [r] and moves the
    cursor over it. *)
Lemma matches_consumes (r : regex) (st st' : cursor) :
  matches r st st' ->
  exists consumed,
    rest st = consumed ++ rest st'
    /\ pos st' = pos st + length consumed
    /\ before st' = last_of consumed (before st)
    /\ Forall (fun c => alphabet r c = true) consumed.
Proof.
  induction 1 as [c t st E|items c t st E Ec|st E
                  |r1 r2 st st1 st2 _ IH1 _ IH2
                  |hi r st
                  |lo hi hi' r st st1 st2 _ IH1 Hp _ IH2
                  |n r st st' _ IH].
  - exists [c]. simpl. split; [exact E|]. split; [lia|]. split; [reflexivity|].
    constructor; auto. apply Ascii.eqb_refl.
  - exists [c]. simpl. split; [exact E|]. split; [lia|]. split; [reflexivity|].
    constructor; auto.
  - exists []. simpl. auto.
  - destruct IH1 as (c1 & R1 & P1 & B1 & F1).
    destruct IH2 as (c2 & R2 & P2 & B2 & F2).
    exists (c1 ++ c2). rewrite R1, R2, P2, P1, B2, B1, length_app, last_of_app.
    split; [apply app_assoc|]. split; [lia|]. split; [reflexivity|].
    apply Forall_app. split; simpl.
    + eapply Forall_impl; [|exact F1]. intros a ->. reflexivity.
    + eapply Forall_impl; [|exact F2]. intros a ->. apply orb_true_r.
  - exists []. simpl. auto.
  - destruct IH1 as (c1 & R1 & P1 & B1 & F1).
    destruct IH2 as (c2 & R2 & P2 & B2 & F2).
    exists (c1 ++ c2). rewrite R1, R2, P2, P1, B2, B1, length_app, last_of_app.
    split; [apply app_assoc|]. split; [lia|]. split; [reflexivity|].
    apply Forall_app. split; auto.
  - destruct IH as (c1 & R1 & P1 & B1 & F1).
    exists c1. simpl. auto.
Qed.

(** ** The shape of a URL match *)

Ltac inv H := inversion H; subst; clear H.

Ltac inv_cats :=
  repeat match goal with
         | H : matches (Cat _ _) _ _ |- _ => inv H
         end.

Lemma matches_pos_le (r : regex) (st st' : cursor) :
  matches r st st' -> pos st <= pos st'.
Proof.
  intros H. apply matches_consumes in H as (c & _ & P & _). lia.
Qed.

Lemma last_of_In (consumed : bytes) (b : option ascii) :
  consumed <> [] -> exists c, last_of consumed b = Some c /\ In c consumed.
Proof.
  revert b; induction consumed as [|x cs IH]; intros b H; [contradiction|].
  rewrite last_of_cons. destruct cs as [|y cs].
  - exists x. split; [reflexivity|now left].
  - destruct (IH (Some x)) as (c & Hc & Hin); [discriminate|].
    exists c. split; auto. now right.
Qed.

(** After at least one iteration over a class, the byte before the
    cursor belongs to the class. *)
Lemma repeat_class_last (lo : nat) (hi : option nat) (items : list item)
      (st st' : cursor) :
  matches (Repeat lo hi (Class items)) st st' -> 1 <= lo ->
  exists c, before st' = Some c /\ class_matches items c = true.
Proof.
  intros H Hlo.
  assert (Hp : pos st < pos st').
  { inv H; [lia|].
    match goal with
    | H1 : matches (Class _) _ _, H2 : matches (Repeat _ _ _) _ _ |- _ =>
        apply matches_pos_le in H2; inv H1; simpl in *; lia
    end. }
  apply matches_consumes in H as (cs & _ & P & B & F).
  destruct (@last_of_In cs (before st)) as (c & Hc & Hin).
  { intros ->. simpl in P. lia. }
  exists c. split; [congruence|].
  rewrite Forall_forall in F. now apply F.
Qed.

Lemma url_head_shape (st stB : cursor) :
  matches url_head st stB ->
  (exists t, rest st = blit "http" ++ t)
  /\ pos st + 4 <= pos stB
  /\ at_boundary stB = true
  /\ exists c, before stB = Some c /\ class_matches tld_class c = true.
Proof.
  unfold url_head. intros H. inv_cats.
  repeat match goal with
         | H : matches (Lit _) _ _ |- _ => inv H
         end.
  match goal with
  | H : matches Boundary _ _ |- _ => inv H
  end.
  assert (Hlast : exists c, before stB = Some c
                            /\ class_matches tld_class c = true)
    by (eapply repeat_class_last; eauto).
  repeat match goal with
         | H : matches _ _ _ |- _ =>
             pose proof (matches_pos_le H); clear H
         end.
  cbn [rest advance pos] in *. split; [|split; [|split]]; auto.
  - exists t3. subst. assumption.
  - lia.
Qed.

(** A loop whose lower bound is met returns when leaving it at once
    would. *)
Lemma loop_leave (iter : cursor -> (cursor -> option cursor) -> option cursor)
      (k : cursor -> option cursor) (budget : nat) (st : cursor) :
  k st <> None -> loop iter k budget 0 st <> None.
Proof.
  destruct budget; simpl; auto.
  destruct (iter st _); [discriminate|auto].
Qed.

(** The optional path: when a byte of the last class comes next, the
    path group matches, whatever follows it. *)
Lemma path_group_matches (st : cursor) (d : ascii) (t : bytes)
      (k : cursor -> option cursor) :
  rest st = d :: t ->
  class_matches last_class d = true ->
  (forall st', pos st' <> pos st -> k st' <> None) ->
  run path_group st k <> None.
Proof.
  intros Hr Hd Hk. unfold path_group.
  cbn [run]. apply loop_leave. cbn [run]. rewrite Hr, Hd.
  apply Hk. simpl. lia.
Qed.

(** A property checked on the 256 bytes holds of every byte. *)
Lemma ascii_forall (P : ascii -> bool) :
  forallb P (map ascii_of_nat (seq 0 256)) = true -> forall c, P c = true.
Proof.
  intros H c. rewrite forallb_forall in H. apply H.
  apply in_map_iff. exists (nat_of_ascii c). split.
  - apply ascii_nat_embedding.
  - apply in_seq. pose proof (nat_ascii_bounded c). lia.
Qed.

Lemma word_in_last_class (c : ascii) :
  is_word c = true -> class_matches last_class c = true.
Proof.
  intros H.
  assert (Hall : forallb
                   (fun c => implb (is_word c) (class_matches last_class c))
                   (map ascii_of_nat (seq 0 256)) = true)
    by (vm_compute; reflexivity).
  pose proof (ascii_forall _ Hall c) as Hc. cbv beta in Hc.
  rewrite H in Hc. exact Hc.
Qed.

Lemma run_optional (r : regex) (st : cursor) (k : cursor -> option cursor) :
  run (Repeat 0 (Some 1) r) st k
  = match run r st (fun st' => if pos st' =? pos st then None else k st') with
    | Some res => Some res
    | None => k st
    end.
Proof. reflexivity. Qed.

Lemma last_of_default (cs : bytes) (b b' : option ascii) :
  cs <> [] -> last_of cs b = last_of cs b'.
Proof.
  destruct cs; [contradiction|]. intros _. now rewrite !last_of_cons.
Qed.

Lemma app_prefix {A : Type} (a r p t : list A) :
  a ++ r = p ++ t -> length p <= length a -> exists t', a = p ++ t'.
Proof.
  intros H Hlen. apply app_eq_app in H as [l [[Ha _] | [Hp _]]].
  - eauto.
  - assert (l = []) as ->
        by (apply length_zero_iff_nil; subst p; rewrite length_app in Hlen; lia).
    rewrite app_nil_r in Hp. exists []. now rewrite app_nil_r.
Qed.

(** What a match of [url_regex] at position [p] looks like: one byte of
    [[$|\W]], then the URL, which is group 1. *)
Lemma url_match_shape (b0 : option ascii) (p : nat) (rest0 : bytes)
      (m : match_obj) :
  match_at url_regex b0 p rest0 = Some m ->
  exists b url rest',
    rest0 = b :: url ++ rest'
    /\ class_matches boundary_class b = true
    /\ m_start m = p
    /\ m_end m = S p + length url
    /\ group_span m 1 = Some (S p, S p + length url)
    /\ Forall (fun c => alphabet url_group c = true) url
    /\ (exists t, url = blit "http" ++ t)
    /\ (exists c, last_of url None = Some c
                  /\ class_matches last_class c = true).
Proof.
  unfold match_at.
  destruct (run url_regex (Cursor b0 p rest0 []) Some) as [res|] eqn:E;
    [|discriminate].
  intros [= <-].
  change (run url_regex (Cursor b0 p rest0 []) Some)
    with (run (Class boundary_class) (Cursor b0 p rest0 [])
              (fun st' => run url_group st' Some)) in E.
  apply run_sound in E as (st1 & Hb & E).
  inv Hb. cbn [rest] in *. subst rest0.
  set (st1 := advance c t (Cursor b0 p (c :: t) [])) in *.
  change (run url_group st1 Some)
    with (run url_head st1
              (fun s => run (Repeat 0 (Some 1) path_group) s
                            (fun st' => Some (close_group 1 (pos st1) st'))))
    in E.
  apply run_sound in E as (stB & Hhead & E).
  pose proof (url_head_shape Hhead) as ((t3 & Hhttp) & Hpos & Hbd & cT & HcT & HT).
  assert (Hend : exists stE,
             res = close_group 1 (pos st1) stE
             /\ matches (Repeat 0 (Some 1) path_group) stB stE
             /\ exists cl, before stE = Some cl
                           /\ class_matches last_class cl = true).
  { rewrite run_optional in E.
    destruct (run path_group stB _) as [res'|] eqn:Ep.
    - injection E as ->. apply run_sound in Ep as (stE & Hm & Hk).
      destruct (pos stE =? pos stB) eqn:Epos; [discriminate|].
      injection Hk as <-. exists stE. split; [reflexivity|]. split.
      + eapply M_Iter with (hi' := Some 0); eauto.
        * now apply Nat.eqb_neq.
        * constructor.
      + unfold path_group in Hm. inv Hm. inv_cats.
        match goal with
        | H : matches (Class last_class) _ _ |- _ => inv H
        end.
        eexists. split; [reflexivity|assumption].
    - injection E as <-. exists stB. split; [reflexivity|].
      split; [constructor|]. exists cT. split; [exact HcT|].
      destruct (is_word cT) eqn:Ew; [now apply word_in_last_class|].
      exfalso. unfold at_boundary in Hbd. rewrite HcT in Hbd. simpl in Hbd.
      rewrite Ew in Hbd. simpl in Hbd.
      destruct (rest stB) as [|d t'] eqn:Er; simpl in Hbd; [discriminate|].
      revert Ep. eapply path_group_matches; [exact Er| |].
      + now apply word_in_last_class.
      + intros st' Hne. apply Nat.eqb_neq in Hne. rewrite Hne. discriminate. }
  destruct Hend as (stE & -> & Hopt & cl & Hcl & Hlast).
  assert (Hall : matches (Cat url_head (Repeat 0 (Some 1) path_group)) st1 stE)
    by (econstructor; eauto).
  apply matches_consumes in Hall as (url & R & P & B & F).
  assert (Hlen : 4 <= length url).
  { apply matches_pos_le in Hopt. lia. }
  exists c, url, (rest stE). cbn [rest pos advance st1] in *.
  split; [now rewrite R|]. split; [assumption|]. split; [reflexivity|].
  split; [simpl; lia|].
  split.
  { unfold group_span. simpl. f_equal. f_equal. lia. }
  split; [exact F|]. split.
  - rewrite R in Hhttp. eapply app_prefix; [exact Hhttp|exact Hlen].
  - exists cl. split; [|exact Hlast].
    rewrite <- Hcl, B. apply last_of_default.
    intros ->. simpl in Hlen. lia.
Qed.

(** ** The scan *)

(** Matches in scan order: each starts at or after [lo], and the next
    ones start at or after its end. *)
Fixpoint ordered (lo : nat) (ms : list match_obj) : Prop :=
  match ms with
  | [] => True
  | m :: ms' => lo <= m_start m /\ ordered (m_end m) ms'
  end.

Lemma ordered_le (lo lo' : nat) (ms : list match_obj) :
  lo <= lo' -> ordered lo' ms -> ordered lo ms.
Proof.
  destruct ms as [|m ms]; simpl; auto. intros H [H1 H2]. split; auto. lia.
Qed.

(** [m] is what the matcher finds in [b] at the position [m_start m]. *)
Definition found_in (r : regex) (b : bytes) (m : match_obj) : Prop :=
  exists pre suf,
    b = pre ++ suf /\ length pre = m_start m
    /\ match_at r (last_of pre None) (m_start m) suf = Some m.

Lemma last_of_snoc (pre : bytes) (c : ascii) (b : option ascii) :
  last_of (pre ++ [c]) b = Some c.
Proof. now rewrite last_of_app, last_of_cons. Qed.

Lemma match_at_start (r : regex) (b : option ascii) (p : nat) (rest : bytes)
      (m : match_obj) :
  match_at r b p rest = Some m -> m_start m = p.
Proof.
  unfold match_at. destruct (run r _ Some); [|discriminate].
  now intros [= <-].
Qed.

Lemma scan_spec (r : regex) (rest : bytes) :
  forall (prefix : bytes) (resume : nat),
    let ms := scan r (last_of prefix None) (length prefix) rest resume in
    Forall (found_in r (prefix ++ rest)) ms
    /\ ordered (Nat.max (length prefix) resume) ms.
Proof.
  induction rest as [|c t IH]; intros prefix resume; simpl.
  - destruct (length prefix <? resume) eqn:E; [split; simpl; auto|].
    apply Nat.ltb_ge in E.
    destruct (match_at r (last_of prefix None) (length prefix) [])
      as [m|] eqn:Em; [|split; simpl; auto].
    pose proof (match_at_start _ _ _ _ Em) as Hs.
    split; [|simpl; split; auto; lia].
    constructor; [|constructor].
    exists prefix, []. rewrite Hs. auto.
  - assert (Hp : prefix ++ c :: t = (prefix ++ [c]) ++ t)
      by now rewrite <- app_assoc.
    assert (Hl : S (length prefix) = length (prefix ++ [c]))
      by (rewrite length_app; simpl; lia).
    assert (Hb : Some c = last_of (prefix ++ [c]) None)
      by now rewrite last_of_snoc.
    rewrite Hp, Hl, Hb.
    destruct (length prefix <? resume) eqn:E.
    + apply Nat.ltb_lt in E.
      destruct (IH (prefix ++ [c]) resume) as [H1 H2].
      split; [exact H1|]. eapply ordered_le; [|exact H2]. lia.
    + apply Nat.ltb_ge in E.
      destruct (match_at r (last_of prefix None) (length prefix) (c :: t))
        as [m|] eqn:Em.
      * pose proof (match_at_start _ _ _ _ Em) as Hs.
        destruct (IH (prefix ++ [c]) (Nat.max (m_end m) (length (prefix ++ [c]))))
          as [H1 H2].
        split.
        -- constructor; [|exact H1].
           exists prefix, (c :: t). rewrite Hs, <- Hp. auto.
        -- simpl. split; [lia|]. eapply ordered_le; [|exact H2]. lia.
      * destruct (IH (prefix ++ [c]) resume) as [H1 H2].
        split; [exact H1|]. eapply ordered_le; [|exact H2]. lia.
Qed.

Lemma finditer_spec (r : regex) (b : bytes) :
  Forall (found_in r b) (finditer r b) /\ ordered 0 (finditer r b).
Proof. exact (scan_spec r b [] 0). Qed.

(** ** The spans of [parse_urls] *)

Lemma decode_ascii (bs : bytes) :
  Forall (fun c => (N_of_ascii c < 128)%N) bs ->
  decode bs = Ok (map N_of_ascii bs).
Proof.
  induction 1 as [|c bs Hc _ IH]; [reflexivity|].
  cbn [decode map]. apply N.ltb_lt in Hc. rewrite Hc, IH. reflexivity.
Qed.

Lemma url_bytes_ascii (c : ascii) :
  alphabet url_group c = true -> (N_of_ascii c < 128)%N.
Proof.
  intros H.
  assert (Hall : forallb
                   (fun c => implb (alphabet url_group c)
                                   (N_of_ascii c <? 128)%N)
                   (map ascii_of_nat (seq 0 256)) = true)
    by (vm_compute; reflexivity).
  pose proof (ascii_forall _ Hall c) as Hc. cbv beta in Hc.
  rewrite H in Hc. now apply N.ltb_lt.
Qed.

(** No byte of a URL is white space, a quote, a comma or a bracket. *)
Lemma url_bytes_not_space (c : ascii) :
  alphabet url_group c = true -> isspace (N_of_ascii c) = false.
Proof.
  intros H.
  assert (Hall : forallb
                   (fun c => implb (alphabet url_group c)
                                   (negb (isspace (N_of_ascii c))))
                   (map ascii_of_nat (seq 0 256)) = true)
    by (vm_compute; reflexivity).
  pose proof (ascii_forall _ Hall c) as Hc. cbv beta in Hc.
  rewrite H in Hc. now apply negb_true_iff.
Qed.

(** What [parse_urls] guarantees of a span [u] of the encoded text [b]. *)
Record span_ok (b : bytes) (u : span) : Prop := SpanOk {
  ok_start : 1 <= span_start u;
  ok_nonempty : span_start u < span_end u;
  ok_end : span_end u <= length b;
  ok_url : decode (slice b (span_start u) (span_end u)) = Ok (span_url u);
  ok_before : exists c, nth_error b (span_start u - 1) = Some c
                        /\ class_matches boundary_class c = true;
  ok_scheme : exists t, span_url u = lit "http" ++ t;
  ok_last : exists c, last (map Some (span_url u)) None = Some (N_of_ascii c)
                      /\ class_matches last_class c = true;
  ok_alphabet : exists bs, span_url u = map N_of_ascii bs
                           /\ Forall (fun c => alphabet url_group c = true) bs
}.

(** Spans from left to right: each starts after [lo], and the next ones
    start after its end. *)
Fixpoint spans_ordered (lo : nat) (us : list span) : Prop :=
  match us with
  | [] => True
  | u :: us' => lo < span_start u /\ spans_ordered (span_end u) us'
  end.

Lemma last_map_Some {A B : Type} (f : A -> B) (l : list A) (x : A) :
  last (map Some l) None = Some x ->
  last (map Some (map f l)) None = Some (f x).
Proof.
  destruct l as [|a l]; [discriminate|].
  simpl map. rewrite !last_cons_default.
  revert a; induction l as [|a' l IH]; intros a; simpl map.
  - simpl. now intros [= ->].
  - rewrite !last_cons_default. apply IH.
Qed.

(** The span appended for a match found in the text. *)
Lemma span_of_found (b : bytes) (acc : list span) (m : match_obj) :
  found_in url_regex b m ->
  exists u,
    span_of_match b acc m = Ok (acc ++ [u])
    /\ span_ok b u
    /\ span_start u = S (m_start m)
    /\ span_end u = m_end m.
Proof.
  intros (pre & suf & Hb & Hlen & Hm).
  pose proof (match_at_start _ _ _ _ Hm) as Hs.
  apply url_match_shape in Hm
    as (c & url & rest' & Hsuf & Hc & _ & He & Hg & Hal & [t Ht] & cl & Hcl & Hl).
  set (p := m_start m) in *.
  assert (Hslice : slice b (S p) (S p + length url) = url).
  { unfold slice. subst b suf.
    replace (pre ++ c :: url ++ rest') with ((pre ++ [c]) ++ url ++ rest')
      by now rewrite <- app_assoc.
    rewrite skipn_app_exact by (rewrite length_app; simpl; lia).
    replace (S p + length url - S p) with (length url) by lia.
    rewrite firstn_app, Nat.sub_diag, firstn_all. simpl. apply app_nil_r. }
  assert (Hdec : decode url = Ok (map N_of_ascii url)).
  { apply decode_ascii. eapply Forall_impl; [|exact Hal].
    intros a. apply url_bytes_ascii. }
  exists (Span (S p) (S p + length url) (map N_of_ascii url)).
  unfold span_of_match. rewrite Hg, Hslice, Hdec. simpl.
  split; [reflexivity|]. split; [|split; [reflexivity|now rewrite He]].
  assert (H4 : 4 <= length url) by (subst url; rewrite length_app; simpl; lia).
  constructor; cbn [span_start span_end span_url].
  - lia.
  - lia.
  - subst b suf. rewrite length_app. simpl. rewrite length_app. lia.
  - change (S (p + length url)) with (S p + length url).
    now rewrite Hslice.
  - exists c. split; [|exact Hc].
    replace (S p - 1) with p by lia. subst b suf.
    rewrite nth_error_app2 by lia. now rewrite Hlen, Nat.sub_diag.
  - exists (map N_of_ascii t). subst url. now rewrite map_app.
  - exists cl. split; [|exact Hl]. now apply last_map_Some.
  - exists url. auto.
Qed.

Lemma parse_loop_spec (b : bytes) (ms : list match_obj) :
  forall (lo : nat) (acc : list span),
    Forall (found_in url_regex b) ms -> ordered lo ms ->
    exists us,
      for_each (span_of_match b) ms acc = Ok (acc ++ us)
      /\ Forall (span_ok b) us
      /\ spans_ordered lo us
      /\ length us = length ms.
Proof.
  induction ms as [|m ms IH]; intros lo acc Hf Ho; simpl.
  - exists []. rewrite app_nil_r. simpl. auto.
  - inversion Hf as [|? ? Hm Hf']; subst. destruct Ho as [Hlo Ho].
    destruct (@span_of_found b acc m Hm) as (u & Hu & Hok & Hs & He).
    rewrite Hu. simpl.
    destruct (IH (m_end m) (acc ++ [u]) Hf' Ho) as (us & Hus & Hoks & Hord & Hlen).
    exists (u :: us). rewrite Hus, <- app_assoc. simpl.
    repeat split; auto; try lia. now rewrite He.
Qed.

(** On a text that can be encoded, [parse_urls] returns normally, one
    span per match of the scan, and every span is as [span_ok] says. *)
Lemma parse_urls_spec (text : str) (b : bytes) :
  encode text = Ok b ->
  exists us,
    parse_urls text = Ok us
    /\ Forall (span_ok b) us
    /\ spans_ordered 0 us
    /\ length us = length (finditer url_regex b).
Proof.
  intros Henc. unfold parse_urls. rewrite Henc. simpl.
  destruct (finditer_spec url_regex b) as [Hf Ho].
  destruct (@parse_loop_spec b _ 0 [] Hf Ho) as (us & Hus & H).
  exists us. split; [exact Hus|exact H].
Qed.

Lemma parse_urls_encodes (text : str) (us : list span) :
  parse_urls text = Ok us -> exists b, encode text = Ok b.
Proof.
  unfold parse_urls. destruct (encode text) as [b|e]; [eauto|discriminate].
Qed.

Lemma parse_urls_span_ok (text : str) (b : bytes) (us : list span) (u : span) :
  encode text = Ok b -> parse_urls text = Ok us -> In u us -> span_ok b u.
Proof.
  intros Hb Hus Hin.
  destruct (@parse_urls_spec text b Hb) as (us' & Hus' & Hok & _).
  rewrite Hus in Hus'. injection Hus' as <-.
  rewrite Forall_forall in Hok. now apply Hok.
Qed.

Lemma boundary_class_not_word (c : ascii) :
  class_matches boundary_class c = true -> is_word c = false.
Proof.
  intros H.
  assert (Hall : forallb
                   (fun c => implb (class_matches boundary_class c)
                                   (negb (is_word c)))
                   (map ascii_of_nat (seq 0 256)) = true)
    by (vm_compute; reflexivity).
  pose proof (ascii_forall _ Hall c) as Hc. cbv beta in Hc.
  rewrite H in Hc. now apply negb_true_iff.
Qed.

(** ** A run on a feed that can be encoded *)

(** A code point UTF-8 can encode: a Unicode scalar value. *)
Definition encodable (c : N) : bool :=
  ((c <? 0xD800) || ((0xDFFF <? c) && (c <? 0x110000)))%N.

Lemma encode_cp_total (c : N) :
  encodable c = true -> exists b, encode_cp c = Ok b.
Proof.
  unfold encodable, encode_cp. intros H.
  destruct (c <? 0x80)%N; [eauto|].
  destruct (c <? 0x800)%N; [eauto|].
  destruct (c <? 0x10000)%N eqn:E3.
  - destruct ((0xD800 <=? c) && (c <=? 0xDFFF))%N eqn:Es; [|eauto].
    exfalso. apply andb_prop in Es as [E1 E2].
    apply N.leb_le in E1, E2.
    apply orb_prop in H as [H|H].
    + apply N.ltb_lt in H. lia.
    + apply andb_prop in H as [H _]. apply N.ltb_lt in H. lia.
  - apply orb_prop in H as [H|H].
    + apply N.ltb_lt in H. apply N.ltb_ge in E3. lia.
    + apply andb_prop in H as [_ H]. rewrite H. eauto.
Qed.

Lemma encode_total (s : str) :
  Forall (fun c => encodable c = true) s -> exists b, encode s = Ok b.
Proof.
  induction 1 as [|c s Hc _ [b Hb]]; simpl; [eauto|].
  destruct (encode_cp_total c Hc) as [bc Hbc]. rewrite Hbc, Hb. simpl. eauto.
Qed.

Section Preserved.
Variable P : N -> Prop.

Lemma Forall_lstrip (s : str) : Forall P s -> Forall P (lstrip s).
Proof.
  induction 1 as [|c s Hc Hs IH]; simpl; auto.
  destruct (isspace c); auto.
Qed.

Lemma Forall_strip (s : str) : Forall P s -> Forall P (strip s).
Proof.
  intros H. unfold strip, rstrip.
  apply Forall_rev, Forall_lstrip, Forall_rev, Forall_lstrip, H.
Qed.

Lemma Forall_skipn (n : nat) (s : str) : Forall P s -> Forall P (skipn n s).
Proof.
  intros H. rewrite <- (firstn_skipn n s) in H.
  now apply Forall_app in H.
Qed.

Lemma Forall_firstn (n : nat) (s : str) : Forall P s -> Forall P (firstn n s).
Proof.
  intros H. rewrite <- (firstn_skipn n s) in H.
  now apply Forall_app in H.
Qed.

Lemma Forall_split (sep s : str) :
  Forall P s -> Forall (Forall P) (split sep s).
Proof.
  destruct sep as [|c sep']; [simp split; auto|].
  remember (length s) as n eqn:Hn. revert s Hn.
  induction n as [n IH] using lt_wf_ind. intros s Hn Hs.
  rewrite split_at_find.
  destruct (find (c :: sep') s) as [i|] eqn:E; [|auto].
  constructor; [now apply Forall_firstn|].
  eapply IH; [|reflexivity|now apply Forall_skipn].
  apply find_Some in E as (a & b & -> & <- & _).
  subst n. rewrite length_skipn, !length_app. simpl. lia.
Qed.

Lemma replace_at_find (c : N) (old' new s : str) :
  replace (c :: old') new s
  = match find (c :: old') s with
    | None => s
    | Some i =>
        firstn i s ++ new
          ++ replace (c :: old') new (skipn (i + S (length old')) s)
    end.
Proof.
  destruct s as [|a s']; simp replace; [reflexivity|].
  destruct (find (c :: old') (a :: s')); reflexivity.
Qed.

Lemma Forall_replace (old new s : str) :
  Forall P new -> Forall P s -> Forall P (replace old new s).
Proof.
  intros Hnew. destruct old as [|c old']; [simp replace; auto|].
  remember (length s) as n eqn:Hn. revert s Hn.
  induction n as [n IH] using lt_wf_ind. intros s Hn Hs.
  rewrite replace_at_find.
  destruct (find (c :: old') s) as [i|] eqn:E; [|auto].
  apply Forall_app. split; [now apply Forall_firstn|].
  apply Forall_app. split; [exact Hnew|].
  eapply IH; [|reflexivity|now apply Forall_skipn].
  apply find_Some in E as (a & b & -> & <- & _).
  subst n. rewrite length_skipn, !length_app. simpl. lia.
Qed.

Lemma Forall_hd (l : list str) : Forall (Forall P) l -> Forall P (hd [] l).
Proof. destruct 1; simpl; auto. Qed.

Lemma Forall_last (l : list str) : Forall (Forall P) l -> Forall P (last l []).
Proof.
  induction 1 as [|x l Hx Hl IH]; simpl; auto.
  destruct l; auto.
Qed.

End Preserved.

Definition str_encodable (s : str) : Prop :=
  Forall (fun c => encodable c = true) s.

Definition entry_encodable (v : entry) : Prop :=
  str_encodable (title v) /\ str_encodable (link v)
  /\ str_encodable (description v).

Definition raw_encodable (e : raw_entry) : Prop :=
  str_encodable (raw_title e) /\ str_encodable (raw_link e)
  /\ str_encodable (raw_description e).

Lemma entry_of_encodable (e : raw_entry) :
  raw_encodable e -> entry_encodable (entry_of e).
Proof.
  intros (Ht & Hl & Hd). unfold entry_encodable, str_encodable. simpl.
  repeat split.
  - now apply Forall_strip, Forall_hd, Forall_split.
  - now apply Forall_strip.
  - apply Forall_strip, Forall_replace; [constructor|].
    apply Forall_replace; [constructor|exact Hd].
Qed.

Lemma compose_post_encodable (v : entry) :
  entry_encodable v -> str_encodable (compose_post v).
Proof.
  intros (Ht & Hl & Hd). unfold compose_post, content, str_encodable.
  apply Forall_app. split; [|unfold suffix; simpl; repeat constructor].
  apply Forall_firstn. unfold abstract_fragment. rewrite join_chars.
  repeat (apply Forall_app; split); auto;
    try (unfold newline; repeat constructor).
  now apply Forall_strip, Forall_last, Forall_split.
Qed.

(** [parse_facets] returns normally on a text that can be encoded. *)
Lemma parse_facets_total (text : str) :
  str_encodable text -> exists fs, parse_facets text = Ok fs.
Proof.
  intros H. destruct (encode_total H) as [b Hb].
  destruct (@parse_urls_spec text b Hb) as (us & Hus & _).
  unfold parse_facets. rewrite Hus. simpl.
  rewrite for_each_append. eauto.
Qed.

Lemma create_post_total (text : str) (w : world) :
  str_encodable text ->
  exists w', create_post text w = Ok w'.
Proof.
  intros H. unfold create_post.
  destruct (0 <? length text); simpl; [|eauto].
  destruct (parse_facets_total H) as [fs Hfs]. rewrite Hfs. simpl. eauto.
Qed.

Lemma main_loop_total (feed : dict entry) :
  Forall (fun kv => entry_encodable (snd kv)) feed ->
  forall st, exists st', for_each main_step feed st = Ok st'.
Proof.
  induction 1 as [|[k v] feed Hv _ IH]; intros st; simpl; [eauto|].
  destruct (negb (dict_mem k (ls_archive st))); simpl; [|apply IH].
  destruct (@create_post_total (compose_post v) (ls_world st)) as [w' Hw'];
    [now apply compose_post_encodable|].
  rewrite Hw'. simpl. apply IH.
Qed.

Lemma dict_set_values {V : Type} (Q : V -> Prop) (k : str) (v : V)
      (d : dict V) :
  Forall (fun kv => Q (snd kv)) d -> Q v ->
  Forall (fun kv => Q (snd kv)) (dict_set k v d).
Proof.
  induction 1 as [|[k' v'] d Hv' Hd IH]; intros Hv; simpl.
  - repeat constructor. exact Hv.
  - destruct (str_eqb k k'); constructor; auto.
Qed.

Lemma feed_encodable (entries : list raw_entry) :
  Forall raw_encodable entries ->
  Forall (fun kv => entry_encodable (snd kv)) (get_arxiv_feed entries).
Proof.
  unfold get_arxiv_feed. intros H.
  assert (Hgen : forall acc,
             Forall (fun kv => entry_encodable (snd kv)) acc ->
             Forall (fun kv => entry_encodable (snd kv))
                    (fold_left
                       (fun res e => dict_set (strip (raw_link e)) (entry_of e) res)
                       entries acc)).
  { induction H as [|e entries He _ IH]; intros acc Hacc; simpl; auto.
    apply IH. apply dict_set_values; auto using entry_of_encodable. }
  apply Hgen. constructor.
Qed.

(** A run whose archive file is absent or holds a JSON object, on a feed
    that can be encoded, ends normally. *)
Lemma main_total (entries : list raw_entry) (w : world)
      (archive : dict entry) :
  try_except (load (disk w)) FileNotFoundError (Ok []) = Ok archive ->
  Forall raw_encodable entries ->
  exists w', main entries w = Ok w'.
Proof.
  intros Hload Henc. unfold main.
  rewrite (get_and_write_loaded entries w Hload). simpl.
  match goal with
  | |- context [for_each main_step ?f ?s] =>
      destruct (@main_loop_total f (feed_encodable Henc) s) as [st Hst]
  end.
  rewrite Hst. simpl.
  destruct (placeholder_test _ _); [|eauto].
  apply create_post_total. unfold placeholder, str_encodable. simpl.
  repeat constructor.
Qed.

(** ** The archive file *)

(** A file [f] is read as an empty archive when, whatever the feed holds,
    [get_and_write_feed_json] returns normally with the empty archive. *)
Definition read_as_empty (f : file) : Prop :=
  forall (entries : list raw_entry) (ob : list post),
  exists w1,
    get_and_write_feed_json entries (World f ob)
    = Ok (get_arxiv_feed entries, [], w1).

(** C5, as the specification states it, fails on a file that is not
    JSON: the decoding error is not caught and ends the run. *)
Lemma corrupt_archive_ends_the_run :
  get_and_write_feed_json [] (World Corrupt []) = Raise JSONDecodeError
  /\ main [] (World Corrupt []) = Raise JSONDecodeError
  /\ ~ read_as_empty Corrupt.
Proof.
  repeat split. intros H. destruct (H [] []) as [w1 Hw1]. discriminate.
Qed.

(** C5, amended. When the archive file is absent the run goes on with an
    empty archive: every fetched entry counts as new, the file is created
    with the whole feed when the feed is not empty, and a run of [main]
    that ends normally has posted every fetched entry in feed order; on a
    feed that can be encoded the run does end normally.  A file that is
    present but is not JSON raises [JSONDecodeError] out of
    [get_and_write_feed_json] and [main]. *)
Theorem absent_archive_reads_as_empty
        (entries : list raw_entry) (ob : list post) :
  let feed := get_arxiv_feed entries in
  read_as_empty Absent
  /\ get_and_write_feed_json entries (World Absent ob)
     = Ok (feed, [],
           match feed with
           | [] => World Absent ob
           | _ => World (Object feed) ob
           end)
  /\ new_items feed [] = feed
  /\ (forall w', main entries (World Absent ob) = Ok w' ->
        map post_text (outbox w')
        = map post_text ob
          ++ match feed with
             | [] => [placeholder]
             | _ => map (fun kv => compose_post (snd kv)) feed
             end)
  /\ (Forall raw_encodable entries ->
      exists w', main entries (World Absent ob) = Ok w')
  /\ get_and_write_feed_json entries (World Corrupt ob) = Raise JSONDecodeError
  /\ main entries (World Corrupt ob) = Raise JSONDecodeError.
Proof.
  intros feed.
  assert (Hgw : forall es o,
             get_and_write_feed_json es (World Absent o)
             = Ok (get_arxiv_feed es, [],
                   match get_arxiv_feed es with
                   | [] => World Absent o
                   | _ => World (Object (get_arxiv_feed es)) o
                   end)).
  { intros es o.
    rewrite (@get_and_write_loaded es (World Absent o) []) by reflexivity.
    rewrite new_items_nil_archive. now destruct (get_arxiv_feed es). }
  split; [intros es o; eexists; apply Hgw|].
  split; [apply Hgw|].
  split; [apply new_items_nil_archive|].
  split; [|split; [|split; reflexivity]].
  2:{ apply (@main_total entries (World Absent ob) []). reflexivity. }
  intros w' H.
  apply (@main_loaded entries (World Absent ob) w' []) in H; [|reflexivity].
  subst feed. rewrite new_items_nil_archive in H.
  destruct (get_arxiv_feed entries); destruct H as [_ H]; exact H.
Qed.

(** C6. For every feed and every archive the run could load, the entries
    taken as new are the fetched items whose key the archive lacks, in
    feed order: [get_and_write_feed_json] appends exactly these to the
    archive and rewrites the file if and only if there is at least one,
    and a run of [main] that ends normally has posted exactly these, in
    that order; on a feed that can be encoded the run does end normally.
    With archive {A} and feed {A, B} the new items are {B}
    and the file is rewritten; with both empty nothing is new and the file
    is left alone. *)
Theorem differ_yields_new_entries
        (entries : list raw_entry) (w : world) (archive : dict entry)
        (Hload : try_except (load (disk w)) FileNotFoundError (Ok [])
                 = Ok archive) :
  let feed := get_arxiv_feed entries in
  let news := new_items feed archive in
  news = filter (fun kv => negb (dict_mem (fst kv) archive)) feed
  /\ (forall k v, In (k, v) news <-> In (k, v) feed /\ ~ In k (keys archive))
  /\ get_and_write_feed_json entries w
     = Ok (feed, archive,
           match news with
           | [] => w
           | _ => World (Object (archive ++ news)) (outbox w)
           end)
  /\ (forall w', main entries w = Ok w' ->
        map post_text (outbox w')
        = map post_text (outbox w)
          ++ match news with
             | [] => [placeholder]
             | _ => map (fun kv => compose_post (snd kv)) news
             end)
  /\ (Forall raw_encodable entries -> exists w', main entries w = Ok w')
  /\ (forall (a b : raw_entry) (ob : list post),
        strip (raw_link a) <> strip (raw_link b) ->
        let ka := strip (raw_link a) in
        let kb := strip (raw_link b) in
        get_arxiv_feed [a; b] = [(ka, entry_of a); (kb, entry_of b)]
        /\ new_items (get_arxiv_feed [a; b]) [(ka, entry_of a)]
           = [(kb, entry_of b)]
        /\ get_and_write_feed_json [a; b] (World (Object [(ka, entry_of a)]) ob)
           = Ok ([(ka, entry_of a); (kb, entry_of b)], [(ka, entry_of a)],
                 World (Object [(ka, entry_of a); (kb, entry_of b)]) ob))
  /\ (forall ob : list post,
        new_items (get_arxiv_feed []) [] = []
        /\ get_and_write_feed_json [] (World (Object []) ob)
           = Ok ([], [], World (Object []) ob)
        /\ get_and_write_feed_json [] (World Absent ob)
           = Ok ([], [], World Absent ob)).
Proof.
  intros feed news.
  split; [reflexivity|].
  split; [intros k v; apply new_items_spec|].
  split.
  { rewrite (get_and_write_loaded entries w Hload). subst news feed.
    now destruct (new_items (get_arxiv_feed entries) archive). }
  split.
  { intros w' H. apply (@main_loaded entries w w' archive Hload) in H. subst news feed.
    destruct (new_items (get_arxiv_feed entries) archive);
      destruct H as [_ H]; exact H. }
  split; [apply (@main_total entries w archive Hload)|].
  split; [|intros ob; repeat split].
  intros a b ob Hab ka kb.
  assert (Hfeed : get_arxiv_feed [a; b] = [(ka, entry_of a); (kb, entry_of b)]).
  { unfold get_arxiv_feed. simpl. fold ka kb.
    assert (E : str_eqb kb ka = false)
      by (apply str_eqb_neq; intros E; apply Hab; now symmetry).
    now rewrite E. }
  assert (Hnew : new_items [(ka, entry_of a); (kb, entry_of b)] [(ka, entry_of a)]
                 = [(kb, entry_of b)]).
  { unfold new_items, dict_mem. simpl.
    assert (E1 : str_eqb ka ka = true) by now apply str_eqb_eq.
    assert (E2 : str_eqb kb ka = false)
      by (apply str_eqb_neq; intros E; apply Hab; now symmetry).
    now rewrite E1, E2. }
  split; [exact Hfeed|]. split; [now rewrite Hfeed|].
  rewrite (@get_and_write_loaded [a; b] _ [(ka, entry_of a)]) by reflexivity.
  rewrite Hfeed, Hnew. reflexivity.
Qed.

Definition raw_A : raw_entry :=
  RawEntry (lit "A. first") (lit "http://arxiv.org/abs/1 ") (lit "<p>Abstract: a</p>").

Definition raw_B : raw_entry :=
  RawEntry (lit "B. second") (lit "http://arxiv.org/abs/2") (lit "<p>no marker</p>").

Lemma differ_yields_new_entries_witness :
  let w0 := World (Object [(lit "http://arxiv.org/abs/1", entry_of raw_A)]) [] in
  let a0 := [(lit "http://arxiv.org/abs/1", entry_of raw_A)] in
  try_except (load (disk w0)) FileNotFoundError (Ok []) = Ok a0
  /\ get_and_write_feed_json [raw_A; raw_B] w0
     = Ok (get_arxiv_feed [raw_A; raw_B], a0,
           World (Object [(lit "http://arxiv.org/abs/1", entry_of raw_A);
                          (lit "http://arxiv.org/abs/2", entry_of raw_B)]) []).
Proof.
  intros w0 a0.
  assert (Hl : try_except (load (disk w0)) FileNotFoundError (Ok []) = Ok a0)
    by reflexivity.
  split; [exact Hl|].
  destruct (@differ_yields_new_entries [raw_A; raw_B] w0 a0 Hl)
    as (_ & _ & H & _).
  exact H.
Defined.

Lemma NoDup_keys_new_archive (feed archive : dict entry) :
  NoDup (keys feed) -> NoDup (keys archive) ->
  NoDup (keys (archive ++ new_items feed archive)).
Proof.
  intros Hf Ha. rewrite <- merge_new_items; auto.
  now apply NoDup_keys_merge.
Qed.



(** C4. With an empty feed and no archive file the archive holds no
    entry, so it is not above the threshold, and still the placeholder is
    published: the test reads [new_posts == (0 & (len(archive) > 2))],
    which is [new_posts == 0] for every archive.  So every run without a
    new entry that ends normally publishes the placeholder, whatever the
    size of the archive. *)
Theorem placeholder_ignores_archive_size :
  main [] (World Absent []) = Ok (World Absent [Post placeholder None])
  /\ (forall (new_posts : Z) (archive : dict entry),
        placeholder_test new_posts archive = (new_posts =? 0)%Z)
  /\ forall (entries : list raw_entry) (w w' : world) (archive : dict entry),
      try_except (load (disk w)) FileNotFoundError (Ok []) = Ok archive ->
      new_items (get_arxiv_feed entries) archive = [] ->
      main entries w = Ok w' ->
      map post_text (outbox w') = map post_text (outbox w) ++ [placeholder].
Proof.
  split; [vm_compute; reflexivity|].
  split; [apply placeholder_test_spec|].
  intros entries w w' archive Hload Hnew H.
  apply (@main_loaded entries w w' archive Hload) in H.
  rewrite Hnew in H. apply H.
Qed.

(** ** A match does not depend on what surrounds it *)

Lemma run_rejected (r : regex) (st : cursor) :
  run r st (fun _ => None) = None.
Proof.
  destruct (run r st (fun _ => None)) as [res|] eqn:E; [|reflexivity].
  apply run_sound in E as (st' & _ & E). discriminate.
Qed.

(** [s] is a cursor on the same text as [st], not before it. *)
Definition after (st s : cursor) : Prop :=
  pos st <= pos s /\ pos s + length (rest s) = pos st + length (rest st).

Lemma after_refl (st : cursor) : after st st.
Proof. split; lia. Qed.

Lemma after_trans (st s s' : cursor) : after st s -> after s s' -> after st s'.
Proof. unfold after. intros [H1 H2] [H3 H4]. split; lia. Qed.

Section Shift.
Variable n : nat.
Variable tail : bytes.

(** The same cursor when the text stands [n] bytes further and [tail]
    follows it. *)
Definition shift_cap (c : nat * (nat * nat)) : nat * (nat * nat) :=
  (fst c, (fst (snd c) + n, snd (snd c) + n)).

Definition shift (st : cursor) : cursor :=
  Cursor (before st) (pos st + n) (rest st ++ tail) (map shift_cap (caps st)).

(** [k'] does on shifted cursors what [k] does, from [st] on. *)
Definition follows (st : cursor) (k k' : cursor -> option cursor) : Prop :=
  forall s, after st s -> k' (shift s) = option_map shift (k s).

Lemma follows_after (st s : cursor) (k k' : cursor -> option cursor) :
  after st s -> follows st k k' -> follows s k k'.
Proof.
  intros Hs Hk s' Hs'. apply Hk. eapply after_trans; eauto.
Qed.

Hypothesis tail_not_word :
  forall c, hd_error tail = Some c -> is_word c = false.

Lemma at_boundary_shift (st : cursor) :
  at_boundary (shift st) = at_boundary st.
Proof.
  unfold at_boundary, shift. simpl. f_equal.
  destruct (rest st) as [|d t]; [|reflexivity].
  simpl. destruct tail as [|c t]; [reflexivity|].
  simpl. now apply tail_not_word.
Qed.

Lemma loop_shift (r : regex)
      (IHr : forall st k k',
          follows st k k' ->
          run r (shift st) k' = option_map shift (run r st k)) :
  forall (b b' lo : nat) (st : cursor) (k k' : cursor -> option cursor),
    b <= b' -> b = b' \/ length (rest st) <= b ->
    follows st k k' ->
    loop (run r) k' b' lo (shift st) = option_map shift (loop (run r) k b lo st).
Proof.
  induction b as [|b IH]; intros b' lo st k k' Hle Hb Hk.
  - assert (Hleave : (if lo =? 0 then k' (shift st) else None)
                     = option_map shift (if lo =? 0 then k st else None)).
    { destruct (lo =? 0); [|reflexivity]. apply Hk, after_refl. }
    destruct b' as [|b']; simpl; [exact Hleave|].
    destruct Hb as [Hb|Hb]; [discriminate|].
    rewrite (IHr st (fun _ => None)).
    + rewrite run_rejected. simpl. exact Hleave.
    + intros s [Hs1 Hs2]. simpl.
      replace (pos s + n =? pos st + n) with true; [reflexivity|].
      symmetry. apply Nat.eqb_eq. lia.
  - destruct b' as [|b']; [lia|]. simpl.
    rewrite (IHr st (fun st' => if pos st' =? pos st then None
                                else loop (run r) k b (Nat.pred lo) st')).
    + destruct (run r st _); simpl; [reflexivity|].
      destruct (lo =? 0); [|reflexivity]. apply Hk, after_refl.
    + intros s Hs. simpl.
      destruct (pos s =? pos st) eqn:E.
      * apply Nat.eqb_eq in E. rewrite E, Nat.eqb_refl. reflexivity.
      * apply Nat.eqb_neq in E.
        replace (pos s + n =? pos st + n) with false
          by (symmetry; apply Nat.eqb_neq; lia).
        apply IH; [lia| |eapply follows_after; eauto].
        destruct Hs as [Hs1 Hs2].
        destruct Hb as [Hb|Hb]; [left; lia|right; lia].
Qed.

Lemma run_shift (r : regex) :
  (forall c, hd_error tail = Some c -> alphabet r c = false) ->
  forall (st : cursor) (k k' : cursor -> option cursor),
    follows st k k' ->
    run r (shift st) k' = option_map shift (run r st k).
Proof.
  induction r as [c|items| |r1 IH1 r2 IH2|lo hi r IH|g r IH];
    intros Ht st k k' Hk.
  - simpl. destruct (rest st) as [|d t] eqn:E; simpl.
    + destruct tail as [|d t]; [reflexivity|].
      specialize (Ht d eq_refl). simpl in Ht. now rewrite Ht.
    + destruct (Ascii.eqb c d); [|reflexivity].
      apply (Hk (advance d t st)). unfold after. simpl. rewrite E. simpl.
      split; lia.
  - simpl. destruct (rest st) as [|d t] eqn:E; simpl.
    + destruct tail as [|d t]; [reflexivity|].
      specialize (Ht d eq_refl). simpl in Ht. now rewrite Ht.
    + destruct (class_matches items d); [|reflexivity].
      apply (Hk (advance d t st)). unfold after. simpl. rewrite E. simpl.
      split; lia.
  - simpl. rewrite at_boundary_shift.
    destruct (at_boundary st); [|reflexivity]. apply Hk, after_refl.
  - simpl. apply IH1.
    + intros c Hc. specialize (Ht c Hc). simpl in Ht.
      now apply orb_false_elim in Ht.
    + intros s Hs. apply IH2.
      * intros c Hc. specialize (Ht c Hc). simpl in Ht.
        now apply orb_false_elim in Ht.
      * eapply follows_after; eauto.
  - simpl. apply loop_shift; auto.
    + destruct hi; [lia|]. rewrite length_app. lia.
    + destruct hi; [now left|now right].
  - simpl. apply IH; auto.
    intros s Hs.
    change (close_group g (pos st + n) (shift s))
      with (shift (close_group g (pos st) s)).
    apply Hk. destruct Hs as [Hs1 Hs2]. split; simpl; lia.
Qed.

End Shift.

(** ** URLs the pattern takes whole *)

(** [u] is a URL for the scanner when the pattern, tried on [u] standing
    alone after a space, takes all of [u]. *)
Definition accepts (u : bytes) : bool :=
  match match_at url_regex None 0 (" "%char :: u) with
  | Some m => m_end m =? S (length u)
  | None => false
  end.

Example accepts_examples :
  accepts (blit "http://a.com") = true
  /\ accepts (blit "https://www.example.com/a?b=c&d=e") = true
  /\ accepts (blit "http://example.technology") = false
  /\ accepts (blit "http://localhost:8080/") = false
  /\ accepts (blit "http://a.com/x.") = false.
Proof. repeat split; vm_compute; reflexivity. Qed.

(** A byte that can stand before a URL and cannot belong to one. *)
Definition sep_byte (c : ascii) : bool :=
  negb (is_word c) && negb (alphabet url_group c).

Lemma sep_byte_boundary (c : ascii) :
  sep_byte c = true -> class_matches boundary_class c = true.
Proof.
  unfold sep_byte. intros H. apply andb_prop in H as [H _].
  unfold boundary_class, class_matches. simpl. rewrite H.
  now rewrite !orb_true_r.
Qed.

Lemma run_url_regex_step (bf : option ascii) (q : nat) (w : ascii)
      (r : bytes) :
  class_matches boundary_class w = true ->
  run url_regex (Cursor bf q (w :: r) []) Some
  = run url_group (Cursor (Some w) (S q) r []) Some.
Proof.
  intros H. unfold url_regex. cbn [run rest]. rewrite H. reflexivity.
Qed.

(** The head of the pattern starts with a literal, so the byte before
    the cursor plays no part. *)
Lemma run_url_group_before (b1 b2 : option ascii) (p : nat) (r : bytes)
      (cs : list (nat * (nat * nat))) (k : cursor -> option cursor) :
  run url_group (Cursor b1 p r cs) k = run url_group (Cursor b2 p r cs) k.
Proof.
  unfold url_group, url_head. cbn [run rest pos].
  destruct r as [|d t]; reflexivity.
Qed.

Lemma lookup_group_shift (n g : nat) (cs : list (nat * (nat * nat))) :
  lookup_group g (map (shift_cap n) cs)
  = option_map (fun sp => (fst sp + n, snd sp + n)) (lookup_group g cs).
Proof.
  induction cs as [|[g' [a b]] cs IH]; simpl; [reflexivity|].
  destruct (g' =? g); [reflexivity|exact IH].
Qed.

Lemma accepts_shape (u : bytes) :
  accepts u = true ->
  exists res,
    run url_group (Cursor (Some " "%char) 1 u []) Some = Some res
    /\ pos res = S (length u)
    /\ lookup_group 1 (caps res) = Some (1, S (length u))
    /\ Forall (fun c => alphabet url_group c = true) u.
Proof.
  unfold accepts.
  destruct (match_at url_regex None 0 (" "%char :: u)) as [m|] eqn:E;
    [|discriminate].
  intros Hend. apply Nat.eqb_eq in Hend.
  pose proof (url_match_shape _ _ _ E)
    as (b & url & rest' & Hu & _ & _ & He & Hg & Hal & _).
  injection Hu as _ Hu.
  assert (Hlen : length url = length u) by lia.
  assert (Hurl : url = u).
  { apply (f_equal (@length ascii)) in Hu as Hl. rewrite length_app in Hl.
    assert (rest' = []) as -> by (apply length_zero_iff_nil; lia).
    now rewrite app_nil_r in Hu. }
  subst url. unfold match_at in E.
  rewrite run_url_regex_step in E by reflexivity.
  destruct (run url_group (Cursor (Some " "%char) 1 u []) Some) as [res|];
    [|discriminate].
  injection E as <-. exists res. simpl in *. unfold group_span in Hg.
  simpl in Hg. repeat split; auto.
Qed.

(** An accepted URL is matched whole wherever it stands after a
    separator and before a separator or the end of the text. *)
Lemma match_in_context (u tail : bytes) (w : ascii) (bf : option ascii)
      (q : nat) :
  accepts u = true -> sep_byte w = true ->
  (forall c, hd_error tail = Some c -> sep_byte c = true) ->
  exists m,
    match_at url_regex bf q (w :: u ++ tail) = Some m
    /\ m_start m = q
    /\ m_end m = S q + length u
    /\ group_span m 1 = Some (S q, S q + length u).
Proof.
  intros Hu Hw Htail.
  apply accepts_shape in Hu as (res & Hrun & Hpos & Hg & _).
  unfold match_at.
  rewrite run_url_regex_step by now apply sep_byte_boundary.
  rewrite (run_url_group_before (Some w) (Some " "%char)).
  change (Cursor (Some " "%char) (S q) (u ++ tail) [])
    with (shift q tail (Cursor (Some " "%char) 1 u [])).
  rewrite (@run_shift q tail) with (k := Some).
  - rewrite Hrun. simpl. eexists. split; [reflexivity|].
    unfold group_span. simpl. rewrite lookup_group_shift, Hg, Hpos. simpl.
    repeat split; auto; try lia. f_equal. f_equal; lia.
  - intros c Hc. apply Htail in Hc. unfold sep_byte in Hc.
    apply andb_prop in Hc as [Hc _]. now apply negb_true_iff.
  - intros c Hc. apply Htail in Hc. unfold sep_byte in Hc.
    apply andb_prop in Hc as [_ Hc]. now apply negb_true_iff.
  - intros s _. reflexivity.
Qed.

(** ** Scanning separators and URLs *)

(** The bytes that follow are empty or start with a separator. *)
Definition sep_next (rest : bytes) : Prop :=
  forall c, hd_error rest = Some c -> sep_byte c = true.

Lemma no_match_before_sep (bf : option ascii) (p : nat) (c : ascii)
      (rest : bytes) :
  sep_next rest -> match_at url_regex bf p (c :: rest) = None.
Proof.
  intros Hn.
  destruct (match_at url_regex bf p (c :: rest)) as [m|] eqn:E;
    [exfalso|reflexivity].
  apply url_match_shape in E as (b & url & rest' & Hr & _ & _ & _ & _ & _ & [t Ht] & _).
  subst url. injection Hr as _ ->. simpl in Hn.
  specialize (Hn "h"%char eq_refl). discriminate.
Qed.

Lemma no_match_at_end (bf : option ascii) (p : nat) :
  match_at url_regex bf p [] = None.
Proof. reflexivity. Qed.

Lemma sep_next_app (gap rest : bytes) :
  Forall (fun c => sep_byte c = true) gap -> sep_next rest ->
  sep_next (gap ++ rest).
Proof.
  intros Hg Hr. destruct Hg as [|c gap Hc _]; [exact Hr|].
  intros d [= <-]. exact Hc.
Qed.

(** The scan finds nothing in a run of separators that a separator or
    the end of the text follows. *)
Lemma scan_seps (gap : bytes) :
  forall (bf : option ascii) (p : nat) (rest : bytes) (resume : nat),
    Forall (fun c => sep_byte c = true) gap -> sep_next rest -> resume <= p ->
    scan url_regex bf p (gap ++ rest) resume
    = scan url_regex (last_of gap bf) (p + length gap) rest resume.
Proof.
  induction gap as [|c gap IH]; intros bf p rest resume Hg Hr Hp.
  - simpl. now rewrite Nat.add_0_r.
  - inversion Hg as [|? ? Hc Hg']; subst.
    simpl app. cbn [scan].
    replace (p <? resume) with false by (symmetry; apply Nat.ltb_ge; lia).
    rewrite no_match_before_sep by now apply sep_next_app.
    rewrite IH by (auto; lia).
    rewrite last_of_cons. simpl length. f_equal. lia.
Qed.

(** The scan passes over the bytes before the place it resumes at. *)
Lemma scan_skip (x : bytes) :
  forall (bf : option ascii) (p : nat) (rest : bytes) (resume : nat),
    p + length x <= resume ->
    scan url_regex bf p (x ++ rest) resume
    = scan url_regex (last_of x bf) (p + length x) rest resume.
Proof.
  induction x as [|c x IH]; intros bf p rest resume Hp.
  - simpl. now rewrite Nat.add_0_r.
  - simpl app. cbn [scan]. simpl length in *.
    replace (p <? resume) with true by (symmetry; apply Nat.ltb_lt; lia).
    rewrite IH by lia. rewrite last_of_cons. f_equal. lia.
Qed.

(** [m] is the match of the URL [u] in the text [b]. *)
Definition hit (b : bytes) (m : match_obj) (u : bytes) : Prop :=
  exists pre c post,
    b = pre ++ c :: u ++ post
    /\ m_start m = length pre
    /\ m_end m = S (length pre) + length u
    /\ group_span m 1 = Some (S (length pre), S (length pre) + length u).

(** The scanner finds nothing in the bytes taken alone. *)
Definition quiet (g : bytes) : Prop := finditer url_regex g = [].

(** Where the scan returns nothing, no match starts. *)
Lemma scan_nil_no_match (x : bytes) :
  forall (bf : option ascii) (p : nat) (c : ascii) (y : bytes)
         (resume : nat),
    scan url_regex bf p (x ++ c :: y) resume = [] -> resume <= p ->
    match_at url_regex (last_of x bf) (p + length x) (c :: y) = None.
Proof.
  induction x as [|a x IH]; intros bf p c y resume H Hp.
  - simpl app in H. cbn [scan] in H. simpl length. rewrite Nat.add_0_r.
    change (last_of [] bf) with bf. revert H.
    replace (p <? resume) with false by (symmetry; apply Nat.ltb_ge; lia).
    destruct (match_at url_regex bf p (c :: y)); [discriminate|reflexivity].
  - simpl app in H. cbn [scan] in H. revert H.
    replace (p <? resume) with false by (symmetry; apply Nat.ltb_ge; lia).
    destruct (match_at url_regex bf p (a :: x ++ c :: y)); [discriminate|].
    intros H. rewrite last_of_cons. simpl length.
    replace (p + S (length x)) with (S p + length x) by lia.
    apply (IH (Some a) (S p) c y resume H). lia.
Qed.

(** Whether a match starts at a byte depends neither on its position,
    nor on the byte before it, nor on what comes after a separator that
    follows the bytes. *)
Lemma no_match_in_context (c : ascii) (y tail : bytes)
      (bf bf' : option ascii) (p p' : nat) :
  sep_next tail ->
  match_at url_regex bf p (c :: y) = None ->
  match_at url_regex bf' p' (c :: y ++ tail) = None.
Proof.
  intros Htail. unfold match_at.
  destruct (class_matches boundary_class c) eqn:Hc.
  - rewrite !run_url_regex_step by exact Hc.
    replace (Cursor (Some c) (S p) y [])
      with (shift p [] (Cursor (Some c) 1 y []))
      by (unfold shift; simpl; now rewrite app_nil_r).
    change (Cursor (Some c) (S p') (y ++ tail) [])
      with (shift p' tail (Cursor (Some c) 1 y [])).
    rewrite (@run_shift p []) with (k := Some);
      [|intros d; discriminate|intros d; discriminate
       |intros st _; reflexivity].
    rewrite (@run_shift p' tail) with (k := Some).
    + destruct (run url_group (Cursor (Some c) 1 y []) Some);
        [discriminate|reflexivity].
    + intros d Hd. apply Htail in Hd. unfold sep_byte in Hd.
      apply andb_prop in Hd as [Hd _]. now apply negb_true_iff.
    + intros d Hd. apply Htail in Hd. unfold sep_byte in Hd.
      apply andb_prop in Hd as [_ Hd]. now apply negb_true_iff.
    + intros st _. reflexivity.
  - intros _. unfold url_regex. cbn [run rest]. rewrite Hc. reflexivity.
Qed.

(** No match starts among bytes in which the scanner finds nothing,
    when a separator or the end of the text follows them. *)
Lemma no_match_in_quiet (bf : option ascii) (p : nat) (x : bytes) (c : ascii)
      (y rest : bytes) :
  quiet (x ++ c :: y) -> sep_next rest ->
  match_at url_regex bf p (c :: y ++ rest) = None.
Proof.
  intros Hq Hn. unfold quiet, finditer in Hq.
  apply (@no_match_in_context c y rest (last_of x None) bf
                              (0 + length x) p Hn).
  exact (@scan_nil_no_match x None 0 c y 0 Hq (le_n 0)).
Qed.

(** The scan passes over such bytes. *)
Lemma scan_quiet (g : bytes) :
  forall (x : bytes) (bf : option ascii) (p : nat) (rest : bytes)
         (resume : nat),
    quiet (x ++ g) -> sep_next rest -> resume <= p ->
    scan url_regex bf p (g ++ rest) resume
    = scan url_regex (last_of g bf) (p + length g) rest resume.
Proof.
  induction g as [|c g IH]; intros x bf p rest resume Hq Hr Hp.
  - simpl. now rewrite Nat.add_0_r.
  - simpl app. cbn [scan].
    replace (p <? resume) with false by (symmetry; apply Nat.ltb_ge; lia).
    rewrite (@no_match_in_quiet bf p x c g rest Hq Hr).
    rewrite (IH (x ++ [c])); [|now rewrite <- app_assoc|exact Hr|lia].
    rewrite last_of_cons. simpl length. f_equal. lia.
Qed.

(** Bytes without [http]. *)
Definition no_http (g : bytes) : Prop :=
  forall x y, g <> x ++ blit "http" ++ y.

Lemma no_match_without_http (bf : option ascii) (p : nat) (x : bytes)
      (c : ascii) (y : bytes) :
  no_http (x ++ c :: y) -> match_at url_regex bf p (c :: y) = None.
Proof.
  intros Hq.
  destruct (match_at url_regex bf p (c :: y)) as [m|] eqn:E;
    [exfalso|reflexivity].
  apply url_match_shape in E
    as (b & url & rest' & Hr & _ & _ & _ & _ & _ & [t Ht] & _).
  subst url. injection Hr as _ ->.
  apply (Hq (x ++ [c]) (t ++ rest')). now rewrite <- !app_assoc.
Qed.

(** The scanner finds nothing in bytes without [http]. *)
Lemma no_http_quiet (g : bytes) : no_http g -> quiet g.
Proof.
  unfold quiet, finditer. intros Hq.
  assert (H : forall (g' x : bytes) (bf : option ascii) (p resume : nat),
             no_http (x ++ g') -> scan url_regex bf p g' resume = []).
  { induction g' as [|c g' IH]; intros x bf p resume Hx.
    - simpl. destruct (p <? resume); reflexivity.
    - cbn [scan]. rewrite (@no_match_without_http bf p x c g' Hx).
      assert (Hx' : no_http ((x ++ [c]) ++ g')) by now rewrite <- app_assoc.
      destruct (p <? resume); exact (IH _ _ _ _ Hx'). }
  exact (H g [] None 0 0 Hq).
Qed.

(** The pattern, tried on [u ++ p] standing alone after a space, takes
    [u] and leaves [p]. *)
Definition ends_at (u p : bytes) : bool :=
  match match_at url_regex None 0 (" "%char :: u ++ p) with
  | Some m => m_end m =? S (length u)
  | None => false
  end.

Lemma ends_at_shape (u p : bytes) :
  ends_at u p = true ->
  exists res,
    run url_group (Cursor (Some " "%char) 1 (u ++ p) []) Some = Some res
    /\ pos res = S (length u)
    /\ lookup_group 1 (caps res) = Some (1, S (length u))
    /\ Forall (fun c => alphabet url_group c = true) u.
Proof.
  unfold ends_at.
  destruct (match_at url_regex None 0 (" "%char :: u ++ p)) as [m|] eqn:E;
    [|discriminate].
  intros Hend. apply Nat.eqb_eq in Hend.
  pose proof (url_match_shape _ _ _ E)
    as (b & url & rest' & Hu & _ & _ & He & Hg & Hal & _).
  injection Hu as _ Hu.
  assert (Hlen : length url = length u) by lia.
  assert (Hurl : url = u).
  { destruct (@app_prefix _ u p url rest' Hu) as [t Ht]; [lia|].
    assert (t = []) as ->
        by (apply length_zero_iff_nil;
            apply (f_equal (@length ascii)) in Ht;
            rewrite length_app in Ht; lia).
    now rewrite app_nil_r in Ht. }
  subst url. unfold match_at in E.
  rewrite run_url_regex_step in E by reflexivity.
  destruct (run url_group (Cursor (Some " "%char) 1 (u ++ p) []) Some)
    as [res|]; [|discriminate].
  injection E as <-. exists res. simpl in *. unfold group_span in Hg.
  simpl in Hg. repeat split; auto.
Qed.

(** What the pattern takes of a URL and the bytes that follow it is the
    same wherever they stand after a byte of [[$|\W]] and before a
    separator or the end of the text. *)
Lemma match_before (u p tail : bytes) (w : ascii) (bf : option ascii)
      (q : nat) :
  ends_at u p = true -> class_matches boundary_class w = true ->
  sep_next tail ->
  exists m,
    match_at url_regex bf q (w :: u ++ p ++ tail) = Some m
    /\ m_start m = q
    /\ m_end m = S q + length u
    /\ group_span m 1 = Some (S q, S q + length u).
Proof.
  intros Hu Hw Htail.
  apply ends_at_shape in Hu as (res & Hrun & Hpos & Hg & _).
  unfold match_at.
  rewrite run_url_regex_step by exact Hw.
  rewrite (run_url_group_before (Some w) (Some " "%char)).
  rewrite app_assoc.
  change (Cursor (Some " "%char) (S q) ((u ++ p) ++ tail) [])
    with (shift q tail (Cursor (Some " "%char) 1 (u ++ p) [])).
  rewrite (@run_shift q tail) with (k := Some).
  - rewrite Hrun. simpl. eexists. split; [reflexivity|].
    unfold group_span. simpl. rewrite lookup_group_shift, Hg, Hpos. simpl.
    repeat split; auto; try lia. f_equal. f_equal; lia.
  - intros c Hc. apply Htail in Hc. unfold sep_byte in Hc.
    apply andb_prop in Hc as [Hc _]. now apply negb_true_iff.
  - intros c Hc. apply Htail in Hc. unfold sep_byte in Hc.
    apply andb_prop in Hc as [_ Hc]. now apply negb_true_iff.
  - intros s _. reflexivity.
Qed.

(** The text after the opening words, in bytes: separators, a URL and
    what follows it, and so on. *)
Fixpoint layout (items : list (bytes * bytes * bytes)) : bytes :=
  match items with
  | [] => []
  | (gap, u, rest) :: items' => gap ++ u ++ rest ++ layout items'
  end.

(** Separators stand before the URL; the scanner finds nothing in what
    follows it, and out of the URL and the bytes up to the next separator
    the pattern takes the URL. *)
Definition item_ok (it : bytes * bytes * bytes) : Prop :=
  let '(gap, u, rest) := it in
  gap <> []
  /\ Forall (fun c => sep_byte c = true) gap
  /\ quiet rest
  /\ exists p more, rest = p ++ more /\ sep_next more /\ ends_at u p = true.

Lemma sep_next_layout (items : list (bytes * bytes * bytes)) :
  Forall item_ok items -> sep_next (layout items).
Proof.
  intros Hi. destruct Hi as [|[[gap u] rest] items (Hne & Hg & _) _]; simpl.
  - intros d. discriminate.
  - destruct Hg as [|c gap Hc _]; [contradiction|].
    intros d [= <-]. exact Hc.
Qed.

Lemma sep_next_more (more rest : bytes) :
  sep_next more -> sep_next rest -> sep_next (more ++ rest).
Proof.
  intros Hm Hr. destruct more as [|c more]; [exact Hr|].
  intros d [= <-]. apply Hm. reflexivity.
Qed.

Lemma scan_layout (items : list (bytes * bytes * bytes)) :
  forall (prefix : bytes) (resume : nat),
    resume <= length prefix -> Forall item_ok items ->
    Forall2 (hit (prefix ++ layout items))
            (scan url_regex (last_of prefix None) (length prefix)
                  (layout items) resume)
            (map (fun it => snd (fst it)) items).
Proof.
  induction items as [|[[gap u] rest] items IH]; intros prefix resume Hp Hi.
  - simpl. destruct (length prefix <? resume); constructor.
  - inversion Hi as [|? ? Hit Hi']; subst. simpl in Hit.
    destruct Hit as (Hne & Hg & Hq & p & more & -> & Hmore & Hu).
    destruct (exists_last Hne) as (gap0 & w & ->).
    apply Forall_app in Hg as [Hg0 Hw]. inversion Hw as [|? ? Hw' _]; subst.
    assert (Hnext : sep_next (layout items)) by now apply sep_next_layout.
    simpl layout. rewrite <- !app_assoc. simpl app.
    rewrite scan_seps; auto; [|intros d [= <-]; exact Hw'].
    rewrite <- last_of_app, <- length_app.
    set (pre := prefix ++ gap0).
    destruct (@match_before u p (more ++ layout items) w (last_of pre None)
                (length pre) Hu (sep_byte_boundary w Hw')
                (sep_next_more Hmore Hnext)) as (m & Hm & Hs & He & Hgr).
    cbn [scan].
    replace (length pre <? resume) with false
      by (symmetry; apply Nat.ltb_ge; subst pre; rewrite length_app; lia).
    rewrite Hm, He.
    replace (Nat.max (S (length pre) + length u) (S (length pre)))
      with (S (length pre) + length u) by lia.
    rewrite scan_skip by lia.
    rewrite (app_assoc p more).
    rewrite (@scan_quiet (p ++ more) []) by (simpl; auto; lia).
    assert (Hb : prefix ++ gap0 ++ w :: u ++ (p ++ more) ++ layout items
                 = (pre ++ w :: u ++ p ++ more) ++ layout items).
    { subst pre. rewrite <- !app_assoc. simpl. now rewrite <- !app_assoc. }
    constructor.
    + exists pre, w, ((p ++ more) ++ layout items). subst pre.
      rewrite <- !app_assoc. simpl. auto.
    + rewrite Hb.
      replace (last_of (p ++ more) (last_of u (Some w)))
        with (last_of (pre ++ w :: u ++ p ++ more) None)
        by (rewrite !last_of_app, last_of_cons, !last_of_app; reflexivity).
      replace (S (length pre) + length u + length (p ++ more))
        with (length (pre ++ w :: u ++ p ++ more))
        by (rewrite !length_app; simpl; rewrite !length_app; lia).
      apply IH; [|exact Hi'].
      rewrite !length_app. simpl. rewrite !length_app.
      subst pre. rewrite length_app. lia.
Qed.

(** ** Encoding separators and URLs *)

Lemma encode_app (a b : str) (x y : bytes) :
  encode a = Ok x -> encode b = Ok y -> encode (a ++ b) = Ok (x ++ y).
Proof.
  revert x; induction a as [|c a IH]; intros x; simpl.
  - now intros [= <-].
  - destruct (encode_cp c) as [bc|]; simpl; [|discriminate].
    destruct (encode a) as [xa|]; simpl; [|discriminate].
    intros [= <-] Hb. rewrite (IH xa eq_refl Hb). simpl.
    now rewrite app_assoc.
Qed.

Lemma encode_ascii (u : bytes) :
  Forall (fun c => (N_of_ascii c < 128)%N) u ->
  encode (map N_of_ascii u) = Ok u.
Proof.
  induction 1 as [|c u Hc _ IH]; [reflexivity|].
  simpl. unfold encode_cp. apply N.ltb_lt in Hc. rewrite Hc, IH. simpl.
  unfold byte_of. now rewrite ascii_N_embedding.
Qed.

Lemma high_byte_sep (x : N) :
  (128 <= x < 256)%N -> sep_byte (byte_of x) = true.
Proof.
  intros [H1 H2].
  assert (Hall : forallb
                   (fun c => implb (128 <=? N_of_ascii c)%N (sep_byte c))
                   (map ascii_of_nat (seq 0 256)) = true)
    by (vm_compute; reflexivity).
  pose proof (ascii_forall _ Hall (byte_of x)) as Hc. cbv beta in Hc.
  unfold byte_of in *. rewrite N_ascii_embedding in Hc by exact H2.
  apply N.leb_le in H1. rewrite H1 in Hc. exact Hc.
Qed.

Lemma low_space_sep (c : N) :
  isspace c = true -> (c < 128)%N -> sep_byte (byte_of c) = true.
Proof.
  intros Hs Hc.
  assert (Hall : forallb
                   (fun a => implb (isspace (N_of_ascii a)
                                    && (N_of_ascii a <? 128)%N)
                                   (sep_byte a))
                   (map ascii_of_nat (seq 0 256)) = true)
    by (vm_compute; reflexivity).
  pose proof (ascii_forall _ Hall (byte_of c)) as Ha. cbv beta in Ha.
  unfold byte_of in *. rewrite N_ascii_embedding in Ha by lia.
  apply N.ltb_lt in Hc. rewrite Hs, Hc in Ha. exact Ha.
Qed.

Lemma isspace_cases (c : N) :
  isspace c = true ->
  (c < 0x80 \/ (0x80 <= c < 0x800) \/ (0x800 <= c < 0xD800))%N.
Proof.
  unfold isspace.
  rewrite !orb_true_iff, !andb_true_iff, !N.leb_le, !N.eqb_eq. lia.
Qed.

(** A white-space character encodes to separators. *)
Lemma encode_space (c : N) :
  isspace c = true ->
  exists bs, encode_cp c = Ok bs /\ bs <> []
             /\ Forall (fun b => sep_byte b = true) bs.
Proof.
  intros Hs. unfold encode_cp.
  destruct (isspace_cases c Hs) as [H|[H|H]].
  - replace (c <? 0x80)%N with true by (symmetry; apply N.ltb_lt; lia).
    eexists. split; [reflexivity|]. split; [discriminate|].
    constructor; auto using low_space_sep.
  - replace (c <? 0x80)%N with false by (symmetry; apply N.ltb_ge; lia).
    replace (c <? 0x800)%N with true by (symmetry; apply N.ltb_lt; lia).
    eexists. split; [reflexivity|]. split; [discriminate|].
    assert (Hq : (c / 0x40 < 0x20)%N)
      by (apply N.Div0.div_lt_upper_bound; lia).
    assert (Hr : (c mod 0x40 < 0x40)%N) by (apply N.mod_upper_bound; lia).
    revert Hq Hr. generalize (c / 0x40)%N (c mod 0x40)%N. intros q r Hq Hr.
    repeat constructor; apply high_byte_sep; lia.
  - replace (c <? 0x80)%N with false by (symmetry; apply N.ltb_ge; lia).
    replace (c <? 0x800)%N with false by (symmetry; apply N.ltb_ge; lia).
    replace (c <? 0x10000)%N with true by (symmetry; apply N.ltb_lt; lia).
    replace ((0xD800 <=? c) && (c <=? 0xDFFF))%N with false
      by (symmetry; apply andb_false_iff; left; apply N.leb_gt; lia).
    eexists. split; [reflexivity|]. split; [discriminate|].
    assert (Hq : (c / 0x1000 < 0x10)%N)
      by (apply N.Div0.div_lt_upper_bound; lia).
    assert (Hm : ((c / 0x40) mod 0x40 < 0x40)%N)
      by (apply N.mod_upper_bound; lia).
    assert (Hr : (c mod 0x40 < 0x40)%N) by (apply N.mod_upper_bound; lia).
    revert Hq Hm Hr.
    generalize (c / 0x1000)%N ((c / 0x40) mod 0x40)%N (c mod 0x40)%N.
    intros q m r Hq Hm Hr.
    repeat constructor; apply high_byte_sep; lia.
Qed.

Lemma encode_spaces (ws : str) :
  Forall (fun c => isspace c = true) ws ->
  exists gap, encode ws = Ok gap
              /\ Forall (fun b => sep_byte b = true) gap
              /\ (ws <> [] -> gap <> []).
Proof.
  induction 1 as [|c ws Hc _ (gap & Hg & Hs & _)].
  - exists []. simpl. repeat split; auto.
  - destruct (encode_space c Hc) as (bs & Hbs & Hne & Hsep).
    exists (bs ++ gap). simpl. rewrite Hbs, Hg. simpl.
    repeat split; [now apply Forall_app|].
    intros _ H. apply app_eq_nil in H as [H _]. contradiction.
Qed.

(** ** Whole URLs between words *)

(** The characters of a URL given by its bytes. *)
Definition url_text (u : bytes) : str := map N_of_ascii u.

Lemma accepts_ascii (u : bytes) :
  accepts u = true -> Forall (fun c => (N_of_ascii c < 128)%N) u.
Proof.
  intros H. apply accepts_shape in H as (_ & _ & _ & _ & H).
  eapply Forall_impl; [|exact H]. intros a. apply url_bytes_ascii.
Qed.

(** The span appended for the match of a URL. *)
Lemma span_of_hit (b : bytes) (acc : list span) (m : match_obj) (u : bytes) :
  hit b m u -> Forall (fun c => (N_of_ascii c < 128)%N) u ->
  span_of_match b acc m
  = Ok (acc ++ [Span (S (m_start m)) (m_end m) (url_text u)]).
Proof.
  intros (pre & c & post & Hb & Hs & He & Hg) Hu.
  unfold span_of_match. rewrite Hg.
  assert (Hslice : slice b (S (length pre)) (S (length pre) + length u) = u).
  { unfold slice. subst b.
    replace (pre ++ c :: u ++ post) with ((pre ++ [c]) ++ u ++ post)
      by now rewrite <- app_assoc.
    rewrite skipn_app_exact by (rewrite length_app; simpl; lia).
    replace (S (length pre) + length u - S (length pre)) with (length u)
      by lia.
    rewrite firstn_app, Nat.sub_diag, firstn_all. simpl. apply app_nil_r. }
  rewrite Hslice, (decode_ascii Hu), Hs, He. reflexivity.
Qed.

Lemma parse_loop_hits (b : bytes) (ms : list match_obj) (us : list bytes) :
  Forall2 (hit b) ms us ->
  Forall (Forall (fun c => (N_of_ascii c < 128)%N)) us ->
  forall acc,
  exists spans,
    for_each (span_of_match b) ms acc = Ok (acc ++ spans)
    /\ map span_url spans = map url_text us.
Proof.
  induction 1 as [|m u ms us Hm _ IH]; intros Hus acc.
  - exists []. simpl. now rewrite app_nil_r.
  - inversion Hus as [|? ? Hu Hus']; subst.
    simpl. rewrite (span_of_hit acc Hm Hu). simpl.
    destruct (IH Hus' (acc ++ [Span (S (m_start m)) (m_end m) (url_text u)]))
      as (spans & Hs & Hurls).
    eexists (_ :: spans). rewrite Hs, <- app_assoc. simpl.
    split; [reflexivity|]. now rewrite Hurls.
Qed.

Lemma Ok_inj {A : Type} (a b : A) : Ok a = Ok b -> a = b.
Proof. now intros [= ->]. Qed.

Lemma encode_app_inv (a b : str) (x : bytes) :
  encode (a ++ b) = Ok x ->
  exists xa xb, encode a = Ok xa /\ encode b = Ok xb /\ x = xa ++ xb.
Proof.
  revert x; induction a as [|c a IH]; intros x; simpl.
  - intros H. exists [], x. auto.
  - destruct (encode_cp c) as [bc|]; simpl; [|discriminate].
    destruct (encode (a ++ b)) as [y|] eqn:E; simpl; [|discriminate].
    intros [= <-]. destruct (IH y eq_refl) as (xa & xb & Ha & Hb & ->).
    rewrite Ha. simpl. exists (bc ++ xa), xb. rewrite app_assoc. auto.
Qed.

(** The bytes of a text that is empty or starts with white space. *)
Lemma sep_next_encode (post : str) (bpost : bytes) :
  (forall c, hd_error post = Some c -> isspace c = true) ->
  encode post = Ok bpost -> sep_next bpost.
Proof.
  intros Hp. destruct post as [|c post]; simpl.
  - intros [= <-] d. discriminate.
  - destruct (encode_space c (Hp c eq_refl)) as (bs & Hbs & Hne & Hsep).
    rewrite Hbs. simpl. destruct (encode post) as [y|]; simpl; [|discriminate].
    intros [= <-]. destruct Hsep as [|x bs Hx _]; [contradiction|].
    intros d [= <-]. exact Hx.
Qed.

(** A character below 128 is encoded as itself; the bytes of any other
    are all 128 or more. *)
Lemma encode_cp_cases (c : N) (bs : bytes) :
  encode_cp c = Ok bs ->
  ((c < 128)%N /\ bs = [byte_of c])
  \/ (bs <> [] /\ Forall (fun b => (128 <= N_of_ascii b)%N) bs).
Proof.
  unfold encode_cp.
  destruct (c <? 0x80)%N eqn:E1.
  { intros [= <-]. left. apply N.ltb_lt in E1. auto. }
  right. revert H.
  assert (Hhi : forall x, (128 <= x < 256)%N ->
                          (128 <= N_of_ascii (byte_of x))%N).
  { intros x Hx. unfold byte_of. rewrite N_ascii_embedding; lia. }
  apply N.ltb_ge in E1.
  destruct (c <? 0x800)%N eqn:E2.
  { apply N.ltb_lt in E2. intros H. apply Ok_inj in H. subst bs.
    split; [discriminate|].
    assert (Hq : (c / 0x40 < 0x20)%N)
      by (apply N.Div0.div_lt_upper_bound; lia).
    assert (Hr : (c mod 0x40 < 0x40)%N) by (apply N.mod_upper_bound; lia).
    revert Hq Hr. generalize (c / 0x40)%N (c mod 0x40)%N. intros q r Hq Hr.
    repeat (apply Forall_cons; [apply Hhi; lia|]). apply Forall_nil. }
  apply N.ltb_ge in E2.
  destruct (c <? 0x10000)%N eqn:E3.
  { apply N.ltb_lt in E3.
    destruct ((0xD800 <=? c) && (c <=? 0xDFFF))%N; [discriminate|].
    intros H. apply Ok_inj in H. subst bs. split; [discriminate|].
    assert (Hq : (c / 0x1000 < 0x10)%N)
      by (apply N.Div0.div_lt_upper_bound; lia).
    assert (Hm : ((c / 0x40) mod 0x40 < 0x40)%N)
      by (apply N.mod_upper_bound; lia).
    assert (Hr : (c mod 0x40 < 0x40)%N) by (apply N.mod_upper_bound; lia).
    revert Hq Hm Hr.
    generalize (c / 0x1000)%N ((c / 0x40) mod 0x40)%N (c mod 0x40)%N.
    intros q m r Hq Hm Hr.
    repeat (apply Forall_cons; [apply Hhi; lia|]). apply Forall_nil. }
  apply N.ltb_ge in E3.
  destruct (c <? 0x110000)%N eqn:E4; [|discriminate].
  apply N.ltb_lt in E4. intros H. apply Ok_inj in H. subst bs.
  split; [discriminate|].
  assert (Hq : (c / 0x40000 < 0x8)%N)
    by (apply N.Div0.div_lt_upper_bound; lia).
  assert (Hn : ((c / 0x1000) mod 0x40 < 0x40)%N)
    by (apply N.mod_upper_bound; lia).
  assert (Hm : ((c / 0x40) mod 0x40 < 0x40)%N)
    by (apply N.mod_upper_bound; lia).
  assert (Hr : (c mod 0x40 < 0x40)%N) by (apply N.mod_upper_bound; lia).
  revert Hq Hn Hm Hr.
  generalize (c / 0x40000)%N ((c / 0x1000) mod 0x40)%N
             ((c / 0x40) mod 0x40)%N (c mod 0x40)%N.
  intros q n m r Hq Hn Hm Hr.
  repeat (apply Forall_cons; [apply Hhi; lia|]). apply Forall_nil.
Qed.

Lemma app_cut {A : Type} (P : A -> Prop) (chunk r x y : list A) (a : A) :
  Forall P chunk -> ~ P a -> chunk ++ r = x ++ a :: y ->
  exists x', x = chunk ++ x' /\ r = x' ++ a :: y.
Proof.
  intros Hc Ha. revert x; induction Hc as [|b chunk Hb _ IH]; intros x H.
  - exists x. auto.
  - destruct x as [|x0 x]; simpl in H.
    + injection H as -> _. contradiction.
    + injection H as -> H. destruct (IH _ H) as (x' & -> & ->).
      exists x'. auto.
Qed.

(** A byte below 128 of an encoded text is a character of the text. *)
Lemma encode_low_split (s : str) :
  forall (x y : bytes) (a : ascii),
    encode s = Ok (x ++ a :: y) -> (N_of_ascii a < 128)%N ->
    exists s1 s2,
      s = s1 ++ N_of_ascii a :: s2 /\ encode s1 = Ok x /\ encode s2 = Ok y.
Proof.
  induction s as [|c s IH]; intros x y a; simpl.
  - intros [= H]. destruct x; discriminate.
  - destruct (encode_cp c) as [bc|] eqn:Ec; simpl; [|discriminate].
    destruct (encode s) as [bs|] eqn:Es; simpl; [|discriminate].
    intros H Ha. apply Ok_inj in H.
    destruct (encode_cp_cases _ Ec) as [[Hc ->]|[_ Hhigh]].
    + destruct x as [|x0 x]; simpl in H.
      * injection H as <- <-. exists [], s. simpl.
        unfold byte_of. rewrite N_ascii_embedding by lia. auto.
      * injection H as <- H.
        destruct (IH _ _ _ (f_equal Ok H) Ha) as (s1 & s2 & -> & H1 & H2).
        exists (c :: s1), s2. simpl. rewrite Ec, H1. simpl. auto.
    + destruct (@app_cut _ (fun b => (128 <= N_of_ascii b)%N) bc bs x y a)
        as (x' & -> & Hbs); auto; [lia|].
      destruct (IH _ _ _ (f_equal Ok Hbs) Ha) as (s1 & s2 & -> & H1 & H2).
      exists (c :: s1), s2. simpl. rewrite Ec, H1. simpl. auto.
Qed.

Lemma encode_nil_inv (s : str) : encode s = Ok [] -> s = [].
Proof.
  destruct s as [|c s]; [reflexivity|]. simpl.
  destruct (encode_cp c) as [bc|] eqn:Ec; simpl; [|discriminate].
  destruct (encode s) as [bs|]; simpl; [|discriminate].
  intros H. apply Ok_inj in H. apply app_eq_nil in H as [-> _].
  destruct (encode_cp_cases _ Ec) as [[_ H]|[H _]];
    [discriminate|contradiction].
Qed.

Lemma encode_low_prefix (u : bytes) :
  forall (s : str) (y : bytes),
    encode s = Ok (u ++ y) -> Forall (fun c => (N_of_ascii c < 128)%N) u ->
    exists s', s = url_text u ++ s' /\ encode s' = Ok y.
Proof.
  induction u as [|a u IH]; intros s y H Hu.
  - exists s. auto.
  - inversion Hu as [|? ? Ha Hu']; subst.
    destruct (@encode_low_split s [] (u ++ y) a H Ha)
      as (s1 & s2 & -> & H1 & H2).
    apply encode_nil_inv in H1 as ->.
    destruct (IH _ _ H2 Hu') as (s' & -> & Hs').
    exists s'. auto.
Qed.

(** Words without [http] encode to bytes without [http]. *)
Lemma encode_no_http (s : str) (g : bytes) :
  encode s = Ok g -> find (lit "http") s = None -> no_http g.
Proof.
  intros Hg Hf x y Hxy. subst g.
  change (blit "http" ++ y)
    with ("h"%char :: (blit "ttp" ++ y)) in Hg.
  destruct (@encode_low_split s x _ _ Hg) as (s1 & s2 & -> & _ & H2);
    [vm_compute; reflexivity|].
  destruct (@encode_low_prefix (blit "ttp") s2 y H2) as (s' & -> & _);
    [repeat constructor|].
  exact (@find_None _ _ Hf s1 s' eq_refl).
Qed.

(** Words around the URLs: a text in which, taken alone, the scanner
    finds no URL. *)
Definition plain (s : str) : Prop := parse_urls s = Ok [].

(** The characters before the first white space. *)
Fixpoint until_space (s : str) : str :=
  match s with
  | [] => []
  | c :: s' => if isspace c then [] else c :: until_space s'
  end.

(** Out of the URL [u] and what follows it up to the next white space,
    the pattern takes [u]. *)
Definition takes (u : bytes) (rest : str) : bool :=
  match encode (until_space rest) with
  | Ok p => ends_at u p
  | Raise _ => false
  end.

(** A white-space character, a URL, what follows it, and so on. *)
Fixpoint urls_text (items : list (N * bytes * str)) : str :=
  match items with
  | [] => []
  | (ws, u, rest) :: items' => [ws] ++ url_text u ++ rest ++ urls_text items'
  end.

(** Words, then the URLs, each right after a white-space character and
    with the words that follow it. *)
Definition text_of (words : str) (items : list (N * bytes * str)) : str :=
  words ++ urls_text items.

(** The URL stands right after a white-space character, it is what the
    pattern takes of the characters up to the next white space, and the
    scanner finds no URL in the words that follow. *)
Definition spaced (it : N * bytes * str) : Prop :=
  let '(ws, u, rest) := it in
  isspace ws = true /\ takes u rest = true /\ plain rest.

Example takes_examples :
  takes (blit "http://example.com") (lit " now") = true
  /\ takes (blit "http://a.com/x") (lit ". also") = true
  /\ takes (blit "http://a.com/x") (lit ".html") = false
  /\ takes (blit "http://example.technology") (lit " now") = false.
Proof. repeat split; vm_compute; reflexivity. Qed.

Lemma until_space_split (s : str) :
  exists r, s = until_space s ++ r
            /\ forall c, hd_error r = Some c -> isspace c = true.
Proof.
  induction s as [|c s (r & Hr & Hs)]; simpl.
  - exists []. split; [reflexivity|]. intros c. discriminate.
  - destruct (isspace c) eqn:E.
    + exists (c :: s). split; [reflexivity|]. now intros d [= <-].
    + exists r. split; [simpl; now rewrite <- Hr|exact Hs].
Qed.

Lemma encode_plain (s : str) :
  plain s -> exists g, encode s = Ok g /\ quiet g.
Proof.
  intros H. destruct (@parse_urls_encodes s [] H) as [g Hg].
  exists g. split; [exact Hg|].
  destruct (@parse_urls_spec s g Hg) as (us & Hus & _ & _ & Hlen).
  unfold plain in H. rewrite H in Hus. injection Hus as <-.
  unfold quiet. apply length_zero_iff_nil. now rewrite <- Hlen.
Qed.

(** Words that can be encoded and do not hold [http] are such a text. *)
Lemma words_without_http (s : str) :
  str_encodable s -> find (lit "http") s = None -> plain s.
Proof.
  intros He Hf. destruct (encode_total He) as [g Hg].
  unfold plain, parse_urls. rewrite Hg. simpl.
  rewrite (no_http_quiet (@encode_no_http s g Hg Hf)). reflexivity.
Qed.

Lemma takes_ascii (u : bytes) (rest : str) :
  takes u rest = true -> Forall (fun c => (N_of_ascii c < 128)%N) u.
Proof.
  unfold takes. destruct (encode (until_space rest)) as [p|]; [|discriminate].
  intros H. apply ends_at_shape in H as (_ & _ & _ & _ & H).
  eapply Forall_impl; [|exact H]. intros a. apply url_bytes_ascii.
Qed.

Lemma encode_urls_text (items : list (N * bytes * str)) :
  Forall spaced items ->
  exists items',
    encode (urls_text items) = Ok (layout items')
    /\ Forall item_ok items'
    /\ map (fun it => snd (fst it)) items' = map (fun it => snd (fst it)) items.
Proof.
  induction 1 as [|[[ws u] rest] items (Hws & Hu & Hrest) _
                   (items' & He & Hok & Hm)].
  - exists []. simpl. auto.
  - destruct (encode_space ws Hws) as (gap & Hgap & Hne & Hsep).
    destruct (encode_plain Hrest) as (g & Hg & Hq).
    exists ((gap, u, g) :: items'). simpl. split; [|split].
    + apply (@encode_app [ws]); [simpl; rewrite Hgap; simpl;
                                 now rewrite app_nil_r|].
      apply encode_app; [apply encode_ascii; now apply (@takes_ascii u rest)|].
      apply encode_app; [exact Hg|exact He].
    + constructor; [|exact Hok]. repeat split; auto.
      destruct (until_space_split rest) as (r & Hr & Hsp).
      unfold takes in Hu.
      destruct (encode (until_space rest)) as [p|] eqn:Ep; [|discriminate].
      rewrite Hr in Hg.
      apply encode_app_inv in Hg as (p' & more & Hp' & Hmore & ->).
      rewrite Ep in Hp'. injection Hp' as <-.
      exists p, more. repeat split; auto.
      exact (@sep_next_encode r more Hsp Hmore).
    + now rewrite Hm.
Qed.

(** On such a text [parse_urls] returns the URLs, one span each, in text
    order. *)
Lemma parse_urls_spaced (words : str) (items : list (N * bytes * str)) :
  plain words -> Forall spaced items ->
  exists spans,
    parse_urls (text_of words items) = Ok spans
    /\ length spans = length items
    /\ map span_url spans = map (fun it => url_text (snd (fst it))) items.
Proof.
  intros Hw Hi.
  destruct (encode_plain Hw) as (g & Hg & Hq).
  destruct (encode_urls_text Hi) as (items' & He & Hok & Hm).
  pose proof (@scan_layout items' g 0 (Nat.le_0_l _) Hok) as Hhits.
  assert (Hfind : finditer url_regex (g ++ layout items')
                  = scan url_regex (last_of g None) (length g)
                         (layout items') 0).
  { unfold finditer. rewrite (@scan_quiet g []); auto.
    now apply sep_next_layout. }
  rewrite <- Hfind in Hhits.
  assert (Hascii : Forall (Forall (fun c => (N_of_ascii c < 128)%N))
                          (map (fun it => snd (fst it)) items')).
  { rewrite Hm. apply Forall_map. eapply Forall_impl; [|exact Hi].
    intros [[ws u] rest] (_ & Hu & _). simpl.
    now apply (@takes_ascii u rest). }
  destruct (parse_loop_hits Hhits Hascii []) as (spans & Hsp & Hurls).
  exists spans. unfold parse_urls, text_of.
  rewrite (encode_app _ _ Hg He). simpl.
  split; [exact Hsp|].
  rewrite Hm in Hurls. rewrite map_map in Hurls.
  split; [|exact Hurls].
  apply (f_equal (@length str)) in Hurls. now rewrite !length_map in Hurls.
Qed.

(** ** The scanner on texts *)

Example scan_sentence :
  parse_urls (lit "see http://a.com/x. also http://b.org")
  = Ok [Span 4 18 (lit "http://a.com/x"); Span 25 37 (lit "http://b.org")].
Proof. vm_compute. reflexivity. Qed.

(** The punctuation that may stand inside a URL but not at its end, and
    marks that belong to no class of the pattern. *)
Definition trailing_punctuation : bytes := blit ".,:;!?()&".

(** C9. The match leaves trailing punctuation out.  On
    ["see http://a.com/x. also http://b.org"] the first span is
    ["http://a.com/x"] at bytes 4 to 18, and byte 18, the period, is
    outside it.  On every text, the last character of every span is one
    the pattern's closing class admits, hence none of [. , : ; ! ? ( ) &]. *)
Theorem trailing_period_excluded :
  (exists second,
      parse_urls (lit "see http://a.com/x. also http://b.org")
      = Ok [Span 4 18 (lit "http://a.com/x"); second]
      /\ nth_error (lit "see http://a.com/x. also http://b.org") 18
         = Some (N_of_ascii "."))
  /\ forall (text : str) (us : list span) (u : span),
      parse_urls text = Ok us -> In u us ->
      exists c,
        last (map Some (span_url u)) None = Some (N_of_ascii c)
        /\ class_matches last_class c = true
        /\ ~ In c trailing_punctuation.
Proof.
  split.
  - eexists. split; [vm_compute; reflexivity | reflexivity].
  - intros text us u Hus Hin.
    destruct (@parse_urls_encodes text us Hus) as [b Hb].
    destruct (@parse_urls_span_ok text b us u Hb Hus Hin)
      as [_ _ _ _ _ _ (c & Hc & Hl) _].
    exists c. repeat split; auto.
    intros Hp. unfold trailing_punctuation in Hp. simpl in Hp.
    repeat destruct Hp as [<-|Hp]; try discriminate. exact Hp.
Qed.

(** C1, as the specification states it, fails on a text with one
    well-formed URL between words: the pattern allows at most six
    characters after the last dot of the host, so
    [http://example.technology] is not found. *)
Lemma long_suffix_url_is_not_found :
  parse_urls (lit "see http://example.technology now") = Ok []
  /\ ~ (exists spans,
          parse_urls (lit "see http://example.technology now") = Ok spans
          /\ length spans = 1).
Proof.
  assert (H : parse_urls (lit "see http://example.technology now") = Ok [])
    by (vm_compute; reflexivity).
  split; [exact H|].
  intros (spans & Hs & Hl). rewrite H in Hs. injection Hs as <-.
  discriminate.
Qed.

(** C1, amended. Take a text made of words, then N times a white-space
    character, a URL and the words that follow it, where the scanner
    finds no URL in any of the words taken alone, and each URL is what
    the pattern takes of the characters from its start to the next white
    space (the URL, and any punctuation that stands right after it).  On
    every such text [parse_urls] returns exactly N spans, whose urls are
    these URLs in text order.  Words that can be encoded and do not hold
    [http] are words in which the scanner finds no URL.  For every text
    that can be encoded the spans come from left to right without
    overlap, and decoding the bytes of the encoded text from start to end
    of a span gives its url. *)
Theorem spaced_urls_are_all_found
        (words : str) (items : list (N * bytes * str))
        (Hwords : plain words) (Hitems : Forall spaced items) :
  (exists b spans,
      encode (text_of words items) = Ok b
      /\ parse_urls (text_of words items) = Ok spans
      /\ length spans = length items
      /\ map span_url spans = map (fun it => url_text (snd (fst it))) items
      /\ spans_ordered 0 spans
      /\ Forall (fun u => decode (slice b (span_start u) (span_end u))
                          = Ok (span_url u)) spans)
  /\ (forall s : str,
        str_encodable s -> find (lit "http") s = None -> plain s)
  /\ forall (text : str) (b : bytes),
      encode text = Ok b ->
      exists us,
        parse_urls text = Ok us
        /\ spans_ordered 0 us
        /\ Forall (fun u => decode (slice b (span_start u) (span_end u))
                            = Ok (span_url u)) us.
Proof.
  assert (Hall : forall (text : str) (b : bytes),
             encode text = Ok b ->
             exists us,
               parse_urls text = Ok us
               /\ spans_ordered 0 us
               /\ Forall (fun u => decode (slice b (span_start u) (span_end u))
                                   = Ok (span_url u)) us).
  { intros text b Hb.
    destruct (@parse_urls_spec text b Hb) as (us & Hus & Hok & Hord & _).
    exists us. repeat split; auto.
    eapply Forall_impl; [|exact Hok]. intros u Hu. apply Hu. }
  split; [|split; [exact words_without_http|exact Hall]].
  destruct (@parse_urls_spaced words items Hwords Hitems)
    as (spans & Hs & Hlen & Hurls).
  destruct (@parse_urls_encodes _ _ Hs) as [b Hb].
  destruct (Hall _ _ Hb) as (us & Hus & Hord & Hdec).
  rewrite Hs in Hus. injection Hus as <-.
  exists b, spans. auto 10.
Qed.

(** The URLs of [see http://a.com/x. also http://b.org], with the words
    that follow each. *)
Definition two_urls : list (N * bytes * str) :=
  [(32%N, blit "http://a.com/x", lit ". also");
   (32%N, blit "http://b.org", [])].

Lemma spaced_urls_are_all_found_witness :
  plain (lit "see") /\ Forall spaced two_urls
  /\ text_of (lit "see") two_urls
     = lit "see http://a.com/x. also http://b.org"
  /\ exists b spans,
      encode (text_of (lit "see") two_urls) = Ok b
      /\ parse_urls (text_of (lit "see") two_urls) = Ok spans
      /\ length spans = 2
      /\ map span_url spans
         = [lit "http://a.com/x"; lit "http://b.org"].
Proof.
  assert (Hw : plain (lit "see")) by (vm_compute; reflexivity).
  assert (H : Forall spaced two_urls).
  { repeat constructor; vm_compute; reflexivity. }
  split; [exact Hw|]. split; [exact H|]. split; [reflexivity|].
  destruct (@spaced_urls_are_all_found (lit "see") two_urls Hw H)
    as [(b & spans & Hb & Hs & Hl & Hu & _) _].
  exists b, spans. auto.
Defined.

(** C2. A text that is exactly one well-formed URL yields no span; after
    a space or an opening parenthesis the URL is found, and the span
    starts at the scheme, after the consumed byte.  On every text, a span
    never starts at offset 0: the byte before it is a byte of [[$|\W]],
    which is not a word character, and the span begins with [http]. *)
Theorem url_at_offset_zero_is_not_matched :
  parse_urls (lit "http://a.com") = Ok []
  /\ parse_urls (lit " http://a.com") = Ok [Span 1 13 (lit "http://a.com")]
  /\ parse_urls (lit "(http://a.com") = Ok [Span 1 13 (lit "http://a.com")]
  /\ forall (text : str) (b : bytes) (us : list span) (u : span),
      encode text = Ok b -> parse_urls text = Ok us -> In u us ->
      1 <= span_start u
      /\ (exists c, nth_error b (span_start u - 1) = Some c
                    /\ is_word c = false)
      /\ exists t, span_url u = lit "http" ++ t.
Proof.
  repeat (split; [vm_compute; reflexivity|]).
  intros text b us u Hb Hus Hin.
  destruct (@parse_urls_span_ok text b us u Hb Hus Hin)
    as [Hs _ _ _ (c & Hc & Hcl) Hh _ _].
  repeat split; auto.
  exists c. auto using boundary_class_not_word.
Qed.

(** * Further properties of the code *)

(** ** UTF-8 *)


Lemma N_of_byte_of (x : N) : (x < 256)%N -> N_of_ascii (byte_of x) = x.
Proof. apply N_ascii_embedding. Qed.

Ltac decide_tests :=
  repeat match goal with
         | |- context [(?a <? ?b)%N] =>
             first [ replace (a <? b)%N with true
                       by (symmetry; apply N.ltb_lt; lia)
                   | replace (a <? b)%N with false
                       by (symmetry; apply N.ltb_ge; lia) ]
         | |- context [(?a <=? ?b)%N] =>
             first [ replace (a <=? b)%N with true
                       by (symmetry; apply N.leb_le; lia)
                   | replace (a <=? b)%N with false
                       by (symmetry; apply N.leb_gt; lia) ]
         end.

(** Naming the value of a byte. *)
Ltac name_byte x b H :=
  assert (H : N_of_ascii (byte_of x) = x) by (apply N_of_byte_of; lia);
  revert H; generalize (byte_of x); intros b H.

Lemma decode_encode_cp (c : N) (bc rest : bytes) :
  encode_cp c = Ok bc ->
  decode (bc ++ rest) = (s <- decode rest ;; Ok (c :: s)).
Proof.
  unfold encode_cp.
  destruct (c <? 0x80)%N eqn:E1.
  - intros H; apply Ok_inj in H; subst bc. apply N.ltb_lt in E1.
    name_byte c b0 H0.
    cbn [app decode]. rewrite H0. decide_tests. reflexivity.
  - apply N.ltb_ge in E1. destruct (c <? 0x800)%N eqn:E2.
    + intros H; apply Ok_inj in H; subst bc. apply N.ltb_lt in E2.
      pose proof (N.Div0.div_mod c 0x40) as Hc.
      pose proof (N.mod_upper_bound c 0x40 ltac:(lia)) as Hr.
      revert Hc Hr. generalize (c / 0x40)%N (c mod 0x40)%N. intros q r Hc Hr.
      name_byte (0xC0 + q)%N b0 H0. name_byte (0x80 + r)%N b1 H1.
      cbn [app decode]. unfold is_cont, cont_bits. rewrite H0, H1.
      decide_tests. cbn [andb negb].
      destruct (decode rest); cbn [bind]; [|reflexivity]. do 2 f_equal. lia.
    + apply N.ltb_ge in E2. destruct (c <? 0x10000)%N eqn:E3.
      * destruct ((0xD800 <=? c) && (c <=? 0xDFFF))%N eqn:Es; [discriminate|].
        intros H; apply Ok_inj in H; subst bc. apply N.ltb_lt in E3.
        assert (Hs : (c < 0xD800 \/ 0xDFFF < c)%N).
        { apply andb_false_iff in Es as [Es|Es];
            [apply N.leb_gt in Es|apply N.leb_gt in Es]; lia. }
        pose proof (N.Div0.div_mod c 0x40) as Hc.
        pose proof (N.mod_upper_bound c 0x40 ltac:(lia)) as Hr.
        pose proof (N.Div0.div_mod (c / 0x40) 0x40) as Hc'.
        pose proof (N.mod_upper_bound (c / 0x40) 0x40 ltac:(lia)) as Hm.
        rewrite N.Div0.div_div in Hc'. change (0x40 * 0x40)%N with 0x1000%N in Hc'.
        set (m := ((c / 0x40) mod 0x40)%N) in *.
        set (a := (c / 0x1000)%N) in *.
        set (x := (c / 0x40)%N) in *.
        set (r := (c mod 0x40)%N) in *.
        clearbody m a x r.
        name_byte (0xE0 + a)%N b0 H0. name_byte (0x80 + m)%N b1 H1.
        name_byte (0x80 + r)%N b2 H2.
        cbn [app decode]. unfold is_cont, cont_bits. rewrite H0, H1, H2.
        decide_tests. cbn [andb negb].
        replace ((224 + a - 224) * 4096 + (128 + m - 128) * 64 + (128 + r - 128))%N
          with c by lia.
        decide_tests. cbn [andb negb].
        destruct Hs as [Hs|Hs]; decide_tests; cbn [andb negb];
          destruct (decode rest); reflexivity.
      * apply N.ltb_ge in E3. destruct (c <? 0x110000)%N eqn:E4; [|discriminate].
        intros H; apply Ok_inj in H; subst bc. apply N.ltb_lt in E4.
        pose proof (N.Div0.div_mod c 0x40) as Hc.
        pose proof (N.mod_upper_bound c 0x40 ltac:(lia)) as Hr.
        pose proof (N.Div0.div_mod (c / 0x40) 0x40) as Hc1.
        pose proof (N.mod_upper_bound (c / 0x40) 0x40 ltac:(lia)) as Hm1.
        rewrite N.Div0.div_div in Hc1.
        change (0x40 * 0x40)%N with 0x1000%N in Hc1.
        pose proof (N.Div0.div_mod (c / 0x1000) 0x40) as Hc2.
        pose proof (N.mod_upper_bound (c / 0x1000) 0x40 ltac:(lia)) as Hm2.
        rewrite N.Div0.div_div in Hc2.
        change (0x1000 * 0x40)%N with 0x40000%N in Hc2.
        set (m2 := ((c / 0x1000) mod 0x40)%N) in *.
        set (m1 := ((c / 0x40) mod 0x40)%N) in *.
        set (a := (c / 0x40000)%N) in *.
        set (y := (c / 0x1000)%N) in *.
        set (x := (c / 0x40)%N) in *.
        set (r := (c mod 0x40)%N) in *.
        clearbody m2 m1 a y x r.
        name_byte (0xF0 + a)%N b0 H0. name_byte (0x80 + m2)%N b1 H1.
        name_byte (0x80 + m1)%N b2 H2. name_byte (0x80 + r)%N b3 H3.
        cbn [app decode]. unfold is_cont, cont_bits. rewrite H0, H1, H2, H3.
        decide_tests. cbn [andb negb].
        replace ((240 + a - 240) * 262144 + (128 + m2 - 128) * 4096
                 + (128 + m1 - 128) * 64 + (128 + r - 128))%N
          with c by lia.
        decide_tests. cbn [andb negb].
        destruct (decode rest); reflexivity.
Qed.

Lemma decode_encode (s : str) (b : bytes) :
  encode s = Ok b -> decode b = Ok s.
Proof.
  revert b; induction s as [|c s IH]; intros b; simpl.
  - now intros [= <-].
  - destruct (encode_cp c) as [bc|] eqn:Ec; simpl; [|discriminate].
    destruct (encode s) as [bs|]; simpl; [|discriminate].
    intros [= <-]. rewrite (@decode_encode_cp c bc bs Ec), (IH bs eq_refl).
    reflexivity.
Qed.

Lemma div_mod_unique (c k q r : N) :
  (r < k)%N -> c = (k * q + r)%N -> (c / k = q /\ c mod k = r)%N.
Proof.
  intros Hr Hc. split.
  - symmetry. now apply N.div_unique with r.
  - symmetry. now apply N.mod_unique with q.
Qed.

Lemma byte_of_N (b : ascii) : byte_of (N_of_ascii b) = b.
Proof. apply ascii_N_embedding. Qed.

Lemma N_of_ascii_bound (b : ascii) : (N_of_ascii b < 256)%N.
Proof. apply N_ascii_bounded. Qed.

Ltac name_N b n B L :=
  pose proof (byte_of_N b) as B; pose proof (N_of_ascii_bound b) as L;
  revert B L; generalize (N_of_ascii b); intros n B L.

Lemma encode_decode (n : nat) :
  forall (b : bytes) (s : str),
    length b <= n -> decode b = Ok s -> encode s = Ok b.
Proof.
  induction n as [|n IH]; intros b s Hn.
  - destruct b; [|simpl in Hn; lia]. simpl. now intros [= <-].
  - destruct b as [|b0 t0]; [simpl; now intros [= <-]|].
    cbn [decode].
    pose proof (byte_of_N b0) as B0. pose proof (N_of_ascii_bound b0) as L0.
    revert B0 L0. generalize (N_of_ascii b0). intros n0 B0 L0.
    destruct (n0 <? 0x80)%N eqn:E1.
    + apply N.ltb_lt in E1.
      destruct (decode t0) as [s'|] eqn:Ed; cbn [bind]; [|discriminate].
      intros H; apply Ok_inj in H; subst s.
      cbn [encode]. unfold encode_cp. decide_tests.
      rewrite (IH t0 s') by (auto; simpl in Hn; lia).
      cbn [bind app]. now rewrite B0.
    + apply N.ltb_ge in E1.
      destruct ((0xC2 <=? n0) && (n0 <=? 0xDF))%N eqn:E2.
      { apply andb_prop in E2 as [E2 E2']. apply N.leb_le in E2, E2'.
        destruct t0 as [|b1 t1]; [discriminate|].
        unfold is_cont, cont_bits. name_N b1 n1 B1 L1.
        destruct ((0x80 <=? n1) && (n1 <=? 0xBF))%N eqn:C1; [|discriminate].
        apply andb_prop in C1 as [C1 C1']. apply N.leb_le in C1, C1'.
        destruct (decode t1) as [s'|] eqn:Ed; cbn [bind]; [|discriminate].
        intros H; apply Ok_inj in H; subst s.
        cbn [encode]. unfold encode_cp.
        remember ((n0 - 192) * 64 + (n1 - 128))%N as c eqn:Hc.
        decide_tests.
        destruct (@div_mod_unique c 64 (n0 - 192) (n1 - 128)) as [Hd Hm]; [lia|lia|].
        rewrite Hd, Hm.
        replace (192 + (n0 - 192))%N with n0 by lia.
        replace (128 + (n1 - 128))%N with n1 by lia.
        rewrite (IH t1 s') by (auto; simpl in Hn; lia).
        cbn [bind app]. now rewrite B0, B1. }
      destruct ((0xE0 <=? n0) && (n0 <=? 0xEF))%N eqn:E3.
      { apply andb_prop in E3 as [E3 E3']. apply N.leb_le in E3, E3'.
        destruct t0 as [|b1 [|b2 t2]]; [discriminate|discriminate|].
        unfold is_cont, cont_bits. name_N b1 n1 B1 L1. name_N b2 n2 B2 L2.
        remember ((n0 - 224) * 4096 + (n1 - 128) * 64 + (n2 - 128))%N as c eqn:Hc.
        destruct ((0x80 <=? n1) && (n1 <=? 0xBF))%N eqn:C1; [|discriminate].
        destruct ((0x80 <=? n2) && (n2 <=? 0xBF))%N eqn:C2; [|discriminate].
        apply andb_prop in C1 as [C1 C1']. apply N.leb_le in C1, C1'.
        apply andb_prop in C2 as [C2 C2']. apply N.leb_le in C2, C2'.
        cbn [andb].
        destruct (0x800 <=? c)%N eqn:G1; [|discriminate]. cbn [andb].
        destruct ((0xD800 <=? c) && (c <=? 0xDFFF))%N eqn:G2; [discriminate|].
        cbn [negb].
        destruct (decode t2) as [s'|] eqn:Ed; cbn [bind]; [|discriminate].
        intros H; apply Ok_inj in H; subst s.
        apply N.leb_le in G1.
        cbn [encode]. unfold encode_cp. rewrite G2.
        destruct (@div_mod_unique c 64 ((n0 - 224) * 64 + (n1 - 128)) (n2 - 128))
          as [Hd Hm]; [lia|lia|].
        destruct (@div_mod_unique ((n0 - 224) * 64 + (n1 - 128)) 64 (n0 - 224) (n1 - 128))
          as [_ Hm']; [lia|lia|].
        destruct (@div_mod_unique c 4096 (n0 - 224) ((n1 - 128) * 64 + (n2 - 128)))
          as [Hd' _]; [lia|lia|].
        rewrite Hd, Hm, Hm', Hd'.
        replace (c <? 128)%N with false by (symmetry; apply N.ltb_ge; lia).
        replace (c <? 2048)%N with false by (symmetry; apply N.ltb_ge; lia).
        replace (c <? 65536)%N with true by (symmetry; apply N.ltb_lt; lia).
        replace (224 + (n0 - 224))%N with n0 by lia.
        replace (128 + (n1 - 128))%N with n1 by lia.
        replace (128 + (n2 - 128))%N with n2 by lia.
        rewrite (IH t2 s') by (auto; simpl in Hn; lia).
        cbn [bind app]. now rewrite B0, B1, B2. }
      destruct ((0xF0 <=? n0) && (n0 <=? 0xF4))%N eqn:E4; [|discriminate].
      apply andb_prop in E4 as [E4 E4']. apply N.leb_le in E4, E4'.
      destruct t0 as [|b1 [|b2 [|b3 t3]]]; [discriminate|discriminate|discriminate|].
      unfold is_cont, cont_bits.
      name_N b1 n1 B1 L1. name_N b2 n2 B2 L2. name_N b3 n3 B3 L3.
      remember ((n0 - 240) * 262144 + (n1 - 128) * 4096 + (n2 - 128) * 64
                + (n3 - 128))%N as c eqn:Hc.
      destruct ((0x80 <=? n1) && (n1 <=? 0xBF))%N eqn:C1; [|discriminate].
      destruct ((0x80 <=? n2) && (n2 <=? 0xBF))%N eqn:C2; [|discriminate].
      destruct ((0x80 <=? n3) && (n3 <=? 0xBF))%N eqn:C3; [|discriminate].
      apply andb_prop in C1 as [C1 C1']. apply N.leb_le in C1, C1'.
      apply andb_prop in C2 as [C2 C2']. apply N.leb_le in C2, C2'.
      apply andb_prop in C3 as [C3 C3']. apply N.leb_le in C3, C3'.
      cbn [andb].
      destruct (0x10000 <=? c)%N eqn:G1; [|discriminate]. cbn [andb].
      destruct (c <? 0x110000)%N eqn:G2; [|discriminate].
      destruct (decode t3) as [s'|] eqn:Ed; cbn [bind]; [|discriminate].
      intros H; apply Ok_inj in H; subst s.
      apply N.leb_le in G1.
      cbn [encode]. unfold encode_cp. rewrite G2.
      set (a := (n0 - 240)%N) in *. set (m2 := (n1 - 128)%N) in *.
      set (m1 := (n2 - 128)%N) in *. set (r := (n3 - 128)%N) in *.
      destruct (@div_mod_unique c 64 (a * 4096 + m2 * 64 + m1) r)
        as [Hd Hm]; [lia|lia|].
      destruct (@div_mod_unique (a * 4096 + m2 * 64 + m1) 64 (a * 64 + m2) m1)
        as [_ Hm1]; [lia|lia|].
      destruct (@div_mod_unique c 4096 (a * 64 + m2) (m1 * 64 + r))
        as [Hd2 _]; [lia|lia|].
      destruct (@div_mod_unique (a * 64 + m2) 64 a m2)
        as [_ Hm2]; [lia|lia|].
      destruct (@div_mod_unique c 262144 a (m2 * 4096 + m1 * 64 + r))
        as [Hd3 _]; [lia|lia|].
      rewrite Hd, Hm, Hm1, Hd2, Hm2, Hd3.
      replace (c <? 128)%N with false by (symmetry; apply N.ltb_ge; lia).
      replace (c <? 2048)%N with false by (symmetry; apply N.ltb_ge; lia).
      replace (c <? 65536)%N with false by (symmetry; apply N.ltb_ge; lia).
      replace (240 + a)%N with n0 by lia.
      replace (128 + m2)%N with n1 by lia.
      replace (128 + m1)%N with n2 by lia.
      replace (128 + r)%N with n3 by lia.
      rewrite (IH t3 s') by (auto; simpl in Hn; lia).
      cbn [bind app]. now rewrite B0, B1, B2, B3.
Qed.

Lemma encode_cp_raises (c : N) (e : exn) :
  encode_cp c = Raise e -> e = UnicodeEncodeError /\ encodable c = false.
Proof.
  intros H. split.
  - revert H. unfold encode_cp.
    repeat match goal with
           | |- context [if ?t then _ else _] => destruct t
           end; intros H; try discriminate; now injection H.
  - destruct (encodable c) eqn:E; [|reflexivity].
    destruct (encode_cp_total c E) as [b Hb]. congruence.
Qed.

Lemma encode_raises (s : str) (e : exn) :
  encode s = Raise e ->
  e = UnicodeEncodeError /\ exists c, In c s /\ encodable c = false.
Proof.
  induction s as [|c s IH]; simpl; [discriminate|].
  destruct (encode_cp c) as [bc|e'] eqn:Ec; simpl.
  - destruct (encode s) as [bs|e''] eqn:Es; simpl; [discriminate|].
    intros [= <-]. destruct (IH eq_refl) as (He & c' & Hin & Hc').
    split; auto. exists c'. auto.
  - intros [= <-]. apply encode_cp_raises in Ec as [He Hc].
    split; auto. exists c. auto.
Qed.

(** X1. The UTF-8 codec behind [text.encode] and [m.group(1).decode] is a
    bijection where it is defined: decoding what [encode] returned gives
    the string back, and encoding what [decode] returned gives the bytes
    back.  [encode] returns on every string whose code points can all be
    encoded, and it raises nothing but UnicodeEncodeError, only on a
    string holding a code point that cannot be encoded (a surrogate). *)
Theorem utf8_round_trip :
  (forall (s : str) (b : bytes), encode s = Ok b -> decode b = Ok s)
  /\ (forall (b : bytes) (s : str), decode b = Ok s -> encode s = Ok b)
  /\ (forall s : str,
        Forall (fun c => encodable c = true) s -> exists b, encode s = Ok b)
  /\ (forall (s : str) (e : exn),
        encode s = Raise e ->
        e = UnicodeEncodeError /\ exists c, In c s /\ encodable c = false).
Proof.
  split; [exact decode_encode|].
  split; [intros b s; now apply (@encode_decode (length b))|].
  split; [exact encode_total|exact encode_raises].
Qed.

Lemma utf8_round_trip_witness :
  exists b,
    encode (lit "caf" ++ [0xE9; 0x20AC; 0x1F916]%N) = Ok b
    /\ decode b = Ok (lit "caf" ++ [0xE9; 0x20AC; 0x1F916]%N).
Proof.
  assert (H : exists b, encode (lit "caf" ++ [0xE9; 0x20AC; 0x1F916]%N) = Ok b)
    by (eexists; vm_compute; reflexivity).
  destruct H as [b Hb]. exists b. split; [exact Hb|].
  exact (proj1 utf8_round_trip _ _ Hb).
Defined.

(** X2. [parse_urls] returns on every text whose code points can all be
    encoded, and the only exception [parse_urls] or [parse_facets] raises
    is UnicodeEncodeError, on a text holding a code point that cannot be
    encoded. *)
Theorem parse_urls_raises_only_on_unencodable_text (text : str) :
  (Forall (fun c => encodable c = true) text ->
   exists us, parse_urls text = Ok us)
  /\ (forall e,
        parse_urls text = Raise e ->
        e = UnicodeEncodeError /\ exists c, In c text /\ encodable c = false)
  /\ (forall e,
        parse_facets text = Raise e ->
        e = UnicodeEncodeError /\ exists c, In c text /\ encodable c = false).
Proof.
  assert (Hurls : forall e,
             parse_urls text = Raise e ->
             e = UnicodeEncodeError
             /\ exists c, In c text /\ encodable c = false).
  { intros e H. destruct (encode text) as [b|e'] eqn:Eb.
    - destruct (@parse_urls_spec text b Eb) as (us & Hus & _). congruence.
    - unfold parse_urls in H. rewrite Eb in H. simpl in H.
      injection H as <-. now apply encode_raises. }
  split; [|split; [exact Hurls|]].
  - intros H. destruct (encode_total H) as [b Hb].
    destruct (@parse_urls_spec text b Hb) as (us & Hus & _). eauto.
  - intros e H. unfold parse_facets in H.
    destruct (parse_urls text) as [us|e'] eqn:Eu.
    + simpl in H. rewrite for_each_append in H. discriminate.
    + simpl in H. injection H as <-. now apply Hurls.
Qed.

Lemma parse_urls_raises_only_on_unencodable_text_witness :
  parse_urls (lit "see " ++ [0xD800%N]) = Raise UnicodeEncodeError
  /\ UnicodeEncodeError = UnicodeEncodeError
  /\ exists c, In c (lit "see " ++ [0xD800%N]) /\ encodable c = false.
Proof.
  assert (H : parse_urls (lit "see " ++ [0xD800%N]) = Raise UnicodeEncodeError)
    by (vm_compute; reflexivity).
  split; [exact H|].
  exact (proj1 (proj2 (@parse_urls_raises_only_on_unencodable_text
                         (lit "see " ++ [0xD800%N])))
               UnicodeEncodeError H).
Defined.

Lemma length_slice {A : Type} (l : list A) (a b : nat) :
  b <= length l -> length (slice l a b) = b - a.
Proof.
  intros H. unfold slice. rewrite length_firstn, length_skipn. lia.
Qed.

(** X3. The url of a span is the slice of the encoded text between the
    start and the end of the span: encoding the url gives that slice back.
    A url is made of ASCII characters only, none of them white space, and
    it has as many characters as the span has bytes. *)
Theorem span_url_is_the_ascii_slice
        (text : str) (b : bytes) (us : list span) (u : span)
        (Hb : encode text = Ok b) (Hus : parse_urls text = Ok us)
        (Hin : In u us) :
  encode (span_url u) = Ok (slice b (span_start u) (span_end u))
  /\ span_url u = map N_of_ascii (slice b (span_start u) (span_end u))
  /\ length (span_url u) = span_end u - span_start u
  /\ Forall (fun c => (c < 128)%N /\ isspace c = false) (span_url u).
Proof.
  destruct (@parse_urls_span_ok text b us u Hb Hus Hin)
    as [_ _ Hend Hurl _ _ _ (bs & Hbs & Hal)].
  assert (Henc : encode (span_url u)
                 = Ok (slice b (span_start u) (span_end u)))
    by now apply (@encode_decode (length (slice b (span_start u) (span_end u)))).
  assert (Hascii : Forall (fun c => (N_of_ascii c < 128)%N) bs).
  { eapply Forall_impl; [|exact Hal]. intros a. apply url_bytes_ascii. }
  assert (Hsl : slice b (span_start u) (span_end u) = bs).
  { rewrite Hbs, (encode_ascii Hascii) in Henc. now injection Henc. }
  split; [exact Henc|]. split; [now rewrite Hsl|].
  split; [rewrite Hbs, length_map, <- Hsl; now apply length_slice|].
  rewrite Hbs. apply Forall_map. eapply Forall_impl; [|exact Hal].
  intros a Ha. split; [now apply url_bytes_ascii|now apply url_bytes_not_space].
Qed.

Lemma span_url_is_the_ascii_slice_witness :
  encode (lit " http://a.com") = Ok (blit " http://a.com")
  /\ parse_urls (lit " http://a.com") = Ok [Span 1 13 (lit "http://a.com")]
  /\ length (lit "http://a.com") = 13 - 1.
Proof.
  assert (Hb : encode (lit " http://a.com") = Ok (blit " http://a.com"))
    by (vm_compute; reflexivity).
  assert (Hus : parse_urls (lit " http://a.com")
                = Ok [Span 1 13 (lit "http://a.com")])
    by (vm_compute; reflexivity).
  split; [exact Hb|]. split; [exact Hus|].
  exact (proj1 (proj2 (proj2
           (@span_url_is_the_ascii_slice _ _ _ _ Hb Hus (or_introl eq_refl))))).
Defined.

Lemma encode_ascii_text (text : str) :
  Forall (fun c => (c < 128)%N) text -> encode text = Ok (map byte_of text).
Proof.
  induction 1 as [|c text Hc _ IH]; [reflexivity|].
  simpl. unfold encode_cp. apply N.ltb_lt in Hc. rewrite Hc, IH. reflexivity.
Qed.

Lemma map_slice {A B : Type} (f : A -> B) (l : list A) (a b : nat) :
  map f (slice l a b) = slice (map f l) a b.
Proof.
  unfold slice. now rewrite skipn_map, firstn_map.
Qed.

(** X4. On a text of ASCII characters the byte offsets of a span are
    character offsets: the slice of the text itself from the start to the
    end of the span is the url. *)
Theorem ascii_text_offsets_are_character_offsets
        (text : str) (us : list span) (u : span)
        (Hascii : Forall (fun c => (c < 128)%N) text)
        (Hus : parse_urls text = Ok us) (Hin : In u us) :
  slice text (span_start u) (span_end u) = span_url u.
Proof.
  pose proof (encode_ascii_text Hascii) as Hb.
  destruct (@parse_urls_span_ok text _ us u Hb Hus Hin)
    as [_ _ _ Hurl _ _ _ _].
  rewrite <- map_slice in Hurl.
  assert (Hs : Forall (fun c => (c < 128)%N) (slice text (span_start u) (span_end u))).
  { unfold slice. apply Forall_firstn, Forall_skipn, Hascii. }
  rewrite decode_ascii in Hurl.
  - injection Hurl as <-. rewrite map_map.
    rewrite <- (map_id (slice text _ _)) at 1.
    apply map_ext_Forall. eapply Forall_impl; [|exact Hs].
    intros c Hc. cbv beta in *. symmetry. apply N_of_byte_of. lia.
  - apply Forall_map. eapply Forall_impl; [|exact Hs].
    intros c Hc. cbv beta in *. rewrite N_of_byte_of by lia. exact Hc.
Qed.

Lemma ascii_text_offsets_are_character_offsets_witness :
  Forall (fun c => (c < 128)%N) (lit "see http://a.com/x.")
  /\ slice (lit "see http://a.com/x.") 4 18 = lit "http://a.com/x".
Proof.
  assert (Ha : Forall (fun c => (c < 128)%N) (lit "see http://a.com/x."))
    by (repeat constructor).
  assert (Hus : parse_urls (lit "see http://a.com/x.")
                = Ok [Span 4 18 (lit "http://a.com/x")])
    by (vm_compute; reflexivity).
  split; [exact Ha|].
  exact (@ascii_text_offsets_are_character_offsets _ _ _ Ha Hus
           (or_introl eq_refl)).
Defined.

(** X5. A call of [create_post] that returns leaves the archive file
    alone and adds exactly one post after those already published.  The
    post has the text given, and it carries one facet for each span
    [parse_urls] finds in that text, in the same order, or no facets field
    at all when there is no span. *)
Theorem create_post_appends_one_post
        (text : str) (w w' : world) (H : create_post text w = Ok w') :
  disk w' = disk w
  /\ exists us,
      parse_urls text = Ok us
      /\ outbox w'
         = outbox w
           ++ [Post text (match us with
                          | [] => None
                          | _ => Some (map facet_of us)
                          end)].
Proof.
  unfold create_post in H.
  destruct (0 <? length text) eqn:El.
  - unfold parse_facets in H.
    destruct (parse_urls text) as [us|e]; simpl in H; [|discriminate].
    rewrite for_each_append in H. simpl in H. injection H as <-.
    split; [reflexivity|]. exists us. split; [reflexivity|].
    simpl. now destruct us.
  - simpl in H. injection H as <-. split; [reflexivity|].
    apply Nat.ltb_ge in El. destruct text; [|simpl in El; lia].
    exists []. split; [reflexivity|reflexivity].
Qed.

Lemma create_post_appends_one_post_witness :
  create_post (lit "see http://a.com/x.") (World Absent [])
  = Ok (World Absent
          [Post (lit "see http://a.com/x.")
                (Some [facet_of (Span 4 18 (lit "http://a.com/x"))])])
  /\ disk (World Absent
             [Post (lit "see http://a.com/x.")
                   (Some [facet_of (Span 4 18 (lit "http://a.com/x"))])])
     = Absent.
Proof.
  assert (H : create_post (lit "see http://a.com/x.") (World Absent [])
              = Ok (World Absent
                      [Post (lit "see http://a.com/x.")
                            (Some [facet_of (Span 4 18 (lit "http://a.com/x"))])]))
    by (vm_compute; reflexivity).
  split; [exact H|].
  exact (proj1 (@create_post_appends_one_post _ _ _ H)).
Defined.

(** The key of a feed entry. *)
Definition feed_key (e : raw_entry) : str := strip (raw_link e).

Lemma In_dict_set {V : Type} (k k0 : str) (v v0 : V) (d : dict V) :
  In (k, v) (dict_set k0 v0 d) -> In (k, v) d \/ (k = k0 /\ v = v0).
Proof.
  induction d as [|[k' v'] d IH]; simpl.
  - intros [[= <- <-]|[]]. now right.
  - destruct (str_eqb k0 k') eqn:E.
    + apply str_eqb_eq in E. subst k'.
      intros [[= <- <-]|H]; [now right|left; now right].
    + intros [H|H]; [left; now left|].
      destruct (IH H) as [H'|H']; [left; now right|now right].
Qed.

Lemma feed_items (entries : list raw_entry) (k : str) (v : entry) :
  In (k, v) (get_arxiv_feed entries) ->
  exists e, In e entries /\ k = feed_key e /\ v = entry_of e.
Proof.
  unfold get_arxiv_feed.
  assert (Hgen : forall acc,
             In (k, v) (fold_left
                          (fun res e => dict_set (strip (raw_link e)) (entry_of e) res)
                          entries acc) ->
             In (k, v) acc
             \/ exists e, In e entries /\ k = feed_key e /\ v = entry_of e).
  { induction entries as [|e entries IH]; intros acc H; simpl in H; [now left|].
    apply IH in H as [H|(e' & Hin & Hk & Hv)].
    - apply In_dict_set in H as [H|[Hk Hv]]; [now left|].
      right. exists e. simpl. auto.
    - right. exists e'. simpl. auto. }
  intros H. apply Hgen in H as [[]|H]. exact H.
Qed.

Lemma hd_split_no_sep (c : N) (s : str) : ~ In c (hd [] (split [c] s)).
Proof.
  rewrite split_at_find.
  destruct (find [c] s) as [i|] eqn:E; simpl.
  - apply find_Some in E as (a & b & -> & <- & Hmin).
    rewrite firstn_app, firstn_all, Nat.sub_diag. simpl. rewrite app_nil_r.
    intros Hin. apply in_split in Hin as (a1 & a2 & ->).
    specialize (Hmin a1 (a2 ++ [c] ++ b)).
    rewrite length_app in Hmin. simpl in Hmin.
    assert (length a1 + S (length a2) <= length a1); [|lia].
    apply Hmin. rewrite <- !app_assoc. reflexivity.
  - intros Hin. apply in_split in Hin as (a1 & a2 & ->).
    exact (@find_None _ _ E a1 a2 eq_refl).
Qed.

(** X6. Every item of the dict [get_arxiv_feed] returns is keyed by its
    own link and is the normalised form of some entry of the feed: its
    title, link and description have no white space left at either end,
    and its title holds no period. *)
Theorem feed_items_are_normalised
        (entries : list raw_entry) (k : str) (v : entry)
        (Hin : In (k, v) (get_arxiv_feed entries)) :
  k = link v
  /\ (exists e, In e entries /\ v = entry_of e)
  /\ strip (title v) = title v
  /\ strip (link v) = link v
  /\ strip (description v) = description v
  /\ ~ In (N_of_ascii ".") (title v).
Proof.
  apply feed_items in Hin as (e & He & -> & ->). unfold feed_key. simpl.
  split; [reflexivity|]. split; [eauto|].
  repeat (split; [apply strip_idem|]).
  intros H.
  assert (Hall : Forall (fun x => x <> N_of_ascii ".")
                        (strip (hd [] (split (lit ".") (raw_title e))))).
  { apply Forall_strip. apply Forall_forall. intros x Hx ->.
    exact (hd_split_no_sep _ _ Hx). }
  rewrite Forall_forall in Hall. exact (Hall _ H eq_refl).
Qed.

Lemma feed_items_are_normalised_witness :
  In (lit "http://arxiv.org/abs/1", entry_of raw_A)
     (get_arxiv_feed [raw_A; raw_B])
  /\ lit "http://arxiv.org/abs/1" = link (entry_of raw_A).
Proof.
  assert (H : In (lit "http://arxiv.org/abs/1", entry_of raw_A)
                 (get_arxiv_feed [raw_A; raw_B]))
    by (left; vm_compute; reflexivity).
  split; [exact H|].
  exact (proj1 (@feed_items_are_normalised _ _ _ H)).
Defined.

Lemma dict_get_set {V : Type} (k k0 : str) (v0 : V) (d : dict V) :
  dict_get k (dict_set k0 v0 d)
  = if str_eqb k k0 then Some v0 else dict_get k d.
Proof.
  induction d as [|[k' v'] d IH]; simpl; [reflexivity|].
  destruct (str_eqb k0 k') eqn:E0; simpl.
  - apply str_eqb_eq in E0. subst k'. now destruct (str_eqb k k0).
  - rewrite IH. destruct (str_eqb k k') eqn:E1; [|reflexivity].
    apply str_eqb_eq in E1. subst k'.
    destruct (str_eqb k k0) eqn:E2; [|reflexivity].
    apply str_eqb_eq in E2. subst k0.
    assert (str_eqb k k = true) by now apply str_eqb_eq. congruence.
Qed.

Definition str_dec : forall a b : str, {a = b} + {a <> b} :=
  list_eq_dec N.eq_dec.

Lemma feed_as_fold_right (entries : list raw_entry) :
  get_arxiv_feed entries
  = fold_right (fun e d => dict_set (feed_key e) (entry_of e) d) []
               (rev entries).
Proof.
  unfold get_arxiv_feed, feed_key.
  symmetry.
  apply (fold_left_rev_right
           (fun e res => dict_set (strip (raw_link e)) (entry_of e) res)).
Qed.

(** X7. The dict [get_arxiv_feed] returns holds each stripped link once:
    a link that several entries share keeps the place of the first of them
    and the fields of the last.  The dict never has more items than the
    feed has entries. *)
Theorem feed_keeps_first_place_and_last_value (entries : list raw_entry) :
  keys (get_arxiv_feed entries)
  = rev (nodup str_dec (rev (map feed_key entries)))
  /\ (forall k,
        dict_get k (get_arxiv_feed entries)
        = option_map entry_of
            (List.find (fun e => str_eqb k (feed_key e)) (rev entries)))
  /\ length (get_arxiv_feed entries) <= length entries.
Proof.
  rewrite feed_as_fold_right, <- map_rev, <- (length_rev entries).
  generalize (rev entries). intros l.
  split; [|split].
  - induction l as [|e l IH]; [reflexivity|].
    simpl. rewrite keys_dict_set, IH.
    destruct (in_dec str_dec (feed_key e) (map feed_key l)) as [Hi|Hi].
    + replace (dict_mem (feed_key e) _) with true; [reflexivity|].
      symmetry. apply dict_mem_In. rewrite IH, <- in_rev.
      now apply nodup_In.
    + replace (dict_mem (feed_key e) _) with false; [reflexivity|].
      symmetry. apply dict_mem_not_In. rewrite IH, <- in_rev.
      now rewrite nodup_In.
  - intros k. induction l as [|e l IH]; [reflexivity|].
    simpl. rewrite dict_get_set, IH.
    now destruct (str_eqb k (feed_key e)).
  - induction l as [|e l IH]; [simpl; lia|].
    simpl.
    assert (Hlen : forall (k : str) (v : entry) (d : dict entry),
               length (dict_set k v d) <= S (length d)).
    { intros k v d. induction d as [|[k' v'] d IHd]; simpl; [lia|].
      destruct (str_eqb k k'); simpl; lia. }
    specialize (Hlen (feed_key e) (entry_of e)
                     (fold_right (fun e d => dict_set (feed_key e) (entry_of e) d) [] l)).
    lia.
Qed.

Lemma find_single_absent (c : N) (s : str) : ~ In c s -> find [c] s = None.
Proof.
  intros H. destruct (find [c] s) as [i|] eqn:E; [|reflexivity].
  apply find_Some in E as (a & b & -> & _). exfalso. apply H.
  apply in_or_app. right. now left.
Qed.

Lemma hd_split_first (c : N) (pre rest : str) :
  ~ In c pre -> hd [] (split [c] (pre ++ [c] ++ rest)) = pre.
Proof.
  intros Hc. rewrite split_at_find.
  destruct (find [c] (pre ++ [c] ++ rest)) as [i|] eqn:E.
  2:{ exfalso. exact (@find_None _ _ E pre rest eq_refl). }
  apply find_Some in E as (a & b & Hs & <- & Hmin). simpl hd.
  assert (Hle : length a <= length pre) by (apply (Hmin pre rest); reflexivity).
  assert (Ha : a = pre).
  { symmetry in Hs. apply app_eq_app in Hs as [l [[Ha Hb]|[Hp Hb]]].
    - assert (l = []) as ->
          by (apply length_zero_iff_nil; subst a; rewrite length_app in Hle; lia).
      now rewrite app_nil_r in Ha.
    - destruct l as [|x l]; [now rewrite app_nil_r in Hp|].
      exfalso. apply Hc. simpl in Hb. injection Hb as <- _.
      subst pre. apply in_or_app. right. now left. }
  subst a. rewrite firstn_app, firstn_all, Nat.sub_diag. simpl.
  apply app_nil_r.
Qed.

(** X8. The title of an item is the raw title up to its first period,
    stripped; a raw title without a period is kept whole, stripped. *)
Theorem title_is_cut_at_first_period (e : raw_entry) :
  (forall pre rest : str,
      raw_title e = pre ++ lit "." ++ rest ->
      ~ In (N_of_ascii ".") pre ->
      title (entry_of e) = strip pre)
  /\ (~ In (N_of_ascii ".") (raw_title e) ->
      title (entry_of e) = strip (raw_title e)).
Proof.
  split.
  - intros pre rest Ht Hpre. simpl. rewrite Ht.
    change (lit ".") with [N_of_ascii "."]. now rewrite hd_split_first.
  - intros H. simpl. change (lit ".") with [N_of_ascii "."].
    now rewrite split_absent by now apply find_single_absent.
Qed.

Lemma title_is_cut_at_first_period_witness :
  raw_title raw_A = lit "A" ++ lit "." ++ lit " first"
  /\ ~ In (N_of_ascii ".") (lit "A")
  /\ title (entry_of raw_A) = strip (lit "A").
Proof.
  assert (Ht : raw_title raw_A = lit "A" ++ lit "." ++ lit " first")
    by reflexivity.
  assert (Hp : ~ In (N_of_ascii ".") (lit "A"))
    by (vm_compute; intuition discriminate).
  split; [exact Ht|]. split; [exact Hp|].
  exact (proj1 (@title_is_cut_at_first_period raw_A) _ _ Ht Hp).
Defined.

Lemma filter_none {A : Type} (f : A -> bool) (l : list A) :
  (forall x, In x l -> f x = false) -> filter f l = [].
Proof.
  induction l as [|x l IH]; intros H; simpl; [reflexivity|].
  rewrite (H x) by now left. apply IH. intros y Hy. apply H. now right.
Qed.

Lemma dict_mem_item {V : Type} (k : str) (v : V) (d : dict V) :
  In (k, v) d -> dict_mem k d = true.
Proof.
  intros H. apply dict_mem_In. unfold keys. apply in_map_iff.
  exists (k, v). auto.
Qed.

(** Once the new items are in the archive, nothing fetched is new. *)
Lemma new_items_merged (feed archive : dict entry) :
  new_items feed (archive ++ new_items feed archive) = [].
Proof.
  unfold new_items at 1. apply filter_none. intros [k v] Hin. simpl.
  apply negb_false_iff. rewrite dict_mem_app.
  destruct (dict_mem k archive) eqn:E; [reflexivity|]. simpl.
  apply (@dict_mem_item _ k v). apply new_items_spec. split; [exact Hin|].
  now apply dict_mem_not_In.
Qed.

Lemma main_ok_loaded (entries : list raw_entry) (w w' : world) :
  main entries w = Ok w' ->
  exists archive,
    try_except (load (disk w)) FileNotFoundError (Ok []) = Ok archive.
Proof.
  unfold main, get_and_write_feed_json.
  destruct (try_except (load (disk w)) FileNotFoundError (Ok []))
    as [archive|e]; [eauto|discriminate].
Qed.

Lemma create_post_placeholder (w : world) :
  create_post placeholder w
  = Ok (World (disk w) (outbox w ++ [Post placeholder None])).
Proof.
  unfold create_post.
  replace (0 <? length placeholder) with true by reflexivity.
  replace (parse_facets placeholder) with (Ok (@nil pyval))
    by (vm_compute; reflexivity).
  reflexivity.
Qed.

Lemma main_loop_nothing_new (feed : dict entry) (st : loop_state) :
  (forall k, In k (keys feed) -> dict_mem k (ls_archive st) = true) ->
  for_each main_step feed st = Ok st.
Proof.
  induction feed as [|[k v] feed IH]; intros H; simpl; [reflexivity|].
  rewrite (H k) by now left. simpl. apply IH. intros k' Hk'. apply H.
  now right.
Qed.

(** A run after a run that ended normally, in the model of the file. *)
Lemma main_twice (entries : list raw_entry) (w w1 : world) :
  main entries w = Ok w1 ->
  main entries w1
  = Ok (World (disk w1) (outbox w1 ++ [Post placeholder None])).
Proof.
  intros H1.
  destruct (main_ok_loaded _ _ H1) as [archive Hload].
  pose proof (@main_loaded entries w w1 archive Hload H1) as Hw1.
  set (feed := get_arxiv_feed entries) in *.
  set (news := new_items feed archive) in *.
  assert (Hnd : NoDup (keys (archive ++ news)))
    by (apply NoDup_keys_new_archive;
        [apply NoDup_keys_feed|eapply loaded_NoDup; eauto]).
  assert (Hload1 : try_except (load (disk w1)) FileNotFoundError (Ok [])
                   = Ok (archive ++ news)).
  { destruct news as [|kv news'] eqn:En.
    - destruct Hw1 as [-> _]. now rewrite app_nil_r.
    - destruct Hw1 as [-> _]. simpl. f_equal. now apply dict_of_members_dict. }
  unfold main. rewrite (get_and_write_loaded entries w1 Hload1).
  fold feed. unfold news. rewrite new_items_merged. fold news. cbn [bind].
  rewrite main_loop_nothing_new.
  - cbn [bind ls_new_posts ls_archive ls_world].
    rewrite placeholder_test_spec. cbn [Z.eqb]. apply create_post_placeholder.
  - simpl. intros k Hk. unfold keys in Hk. apply in_map_iff in Hk as ([k' v] & <- & Hin).
    simpl. rewrite dict_mem_app.
    destruct (dict_mem k' archive) eqn:E; [reflexivity|]. simpl.
    apply (@dict_mem_item _ k' v). apply new_items_spec. split; [exact Hin|].
    now apply dict_mem_not_In.
Qed.

(** X9. Take a feed whose strings hold no surrogate code point, and an
    archive file that is absent or holds an object whose keys hold none
    (so that [json.load] reads back the keys [json.dump] wrote).  Then a
    run ends normally, and a second run on the same feed finds nothing
    new: it ends normally too, leaves the archive file as the first run
    left it, and publishes exactly one more post, the placeholder,
    without facets. *)
Theorem second_run_posts_only_the_placeholder
        (entries : list raw_entry) (w : world) (archive : dict entry)
        (Hload : try_except (load (disk w)) FileNotFoundError (Ok [])
                 = Ok archive)
        (Hkeys : Forall str_encodable (keys archive))
        (Henc : Forall raw_encodable entries) :
  exists w1,
    main entries w = Ok w1
    /\ main entries w1
       = Ok (World (disk w1) (outbox w1 ++ [Post placeholder None])).
Proof.
  destruct (@main_total entries w archive Hload Henc) as [w1 H1].
  exists w1. split; [exact H1|]. exact (@main_twice entries w w1 H1).
Qed.

(** A match that starts before a separator ends before it. *)
Lemma url_end_before_sep (bf : option ascii) (p : nat) (c w : ascii)
      (todo post : bytes) (m : match_obj) :
  match_at url_regex bf p (c :: todo ++ w :: post) = Some m ->
  alphabet url_group w = false ->
  m_end m <= S p + length todo.
Proof.
  intros Hm Hw.
  apply url_match_shape in Hm
    as (b & url & rest' & Hr & _ & _ & He & _ & Hal & _).
  injection Hr as _ Hr. rewrite He.
  apply app_eq_app in Hr as [l [[Ht _]|[Hu Hl]]].
  - subst todo. rewrite length_app. lia.
  - destruct l as [|x l]; [subst url; rewrite app_nil_r; lia|].
    exfalso. simpl in Hl. injection Hl as <- _. subst url.
    apply Forall_app in Hal as [_ Hal]. inversion Hal; congruence.
Qed.

(** The scan reaches an accepted URL that stands after a separator,
    whatever comes before. *)
Lemma scan_finds (u post : bytes) (w : ascii)
      (Hu : accepts u = true) (Hw : sep_byte w = true)
      (Hpost : sep_next post) (todo : bytes) :
  forall (bf : option ascii) (p resume : nat),
    resume <= p + length todo ->
    exists m,
      In m (scan url_regex bf p (todo ++ w :: u ++ post) resume)
      /\ m_start m = p + length todo
      /\ m_end m = S (p + length todo) + length u
      /\ group_span m 1
         = Some (S (p + length todo), S (p + length todo) + length u).
Proof.
  assert (Hwa : alphabet url_group w = false).
  { unfold sep_byte in Hw. apply andb_prop in Hw as [_ Hw].
    now apply negb_true_iff. }
  induction todo as [|c todo IH]; intros bf p resume Hres.
  - simpl in Hres. rewrite Nat.add_0_r in *. simpl app. cbn [scan].
    replace (p <? resume) with false by (symmetry; apply Nat.ltb_ge; lia).
    destruct (@match_in_context u post w bf p Hu Hw Hpost)
      as (m & Hm & Hs & He & Hg).
    rewrite Hm. exists m. split; [now left|auto].
  - simpl app. cbn [scan]. simpl length in *.
    replace (p + S (length todo)) with (S p + length todo) in * by lia.
    destruct (p <? resume).
    + apply IH. lia.
    + destruct (match_at url_regex bf p (c :: todo ++ w :: u ++ post))
        as [m'|] eqn:Em.
      * pose proof (@url_end_before_sep bf p c w todo (u ++ post) m' Em Hwa)
          as Hend.
        destruct (IH (Some c) (S p) (Nat.max (m_end m') (S p)))
          as (m & Hin & H); [lia|].
        exists m. split; [now right|exact H].
      * apply IH. lia.
Qed.

Lemma span_of_match_appends (b : bytes) (acc r : list span) (m : match_obj) :
  span_of_match b acc m = Ok r -> exists sp, r = acc ++ [sp].
Proof.
  unfold span_of_match. destruct (group_span m 1) as [[s e]|]; [|discriminate].
  destruct (decode (slice b s e)); simpl; [|discriminate].
  intros [= <-]. eauto.
Qed.

Lemma parse_loop_keeps (b : bytes) (ms : list match_obj) :
  forall acc spans,
    for_each (span_of_match b) ms acc = Ok spans ->
    exists rest, spans = acc ++ rest.
Proof.
  induction ms as [|m ms IH]; intros acc spans; simpl.
  - intros [= <-]. exists []. now rewrite app_nil_r.
  - destruct (span_of_match b acc m) as [r|] eqn:E; simpl; [|discriminate].
    apply span_of_match_appends in E as [sp ->].
    intros H. apply IH in H as [rest ->]. exists (sp :: rest).
    now rewrite <- app_assoc.
Qed.

Lemma parse_loop_In (b : bytes) (m : match_obj) (sp : span)
      (Hm : forall acc, span_of_match b acc m = Ok (acc ++ [sp]))
      (ms : list match_obj) :
  forall acc spans,
    In m ms ->
    for_each (span_of_match b) ms acc = Ok spans ->
    In sp spans.
Proof.
  induction ms as [|m0 ms IH]; intros acc spans Hin; [contradiction|].
  simpl. destruct (span_of_match b acc m0) as [r|] eqn:E; simpl; [|discriminate].
  destruct Hin as [->|Hin].
  - rewrite Hm in E. injection E as <-. intros H.
    apply parse_loop_keeps in H as [rest ->].
    apply in_or_app. left. apply in_or_app. right. now left.
  - now apply IH.
Qed.

(** An accepted URL with a white-space character before it, and white
    space or nothing after it, gets its span. *)
Lemma url_after_space_found (pre post : str) (ws : N) (u : bytes)
      (us : list span) :
  isspace ws = true -> accepts u = true ->
  (forall c, hd_error post = Some c -> isspace c = true) ->
  parse_urls (pre ++ [ws] ++ url_text u ++ post) = Ok us ->
  exists bpre bws,
    encode pre = Ok bpre /\ encode [ws] = Ok bws
    /\ In (Span (length bpre + length bws)
                (length bpre + length bws + length u) (url_text u)) us.
Proof.
  intros Hws Hu Hpost Hus.
  destruct (@parse_urls_encodes _ _ Hus) as [b Hb].
  apply encode_app_inv in Hb as (bpre & b1 & Hpre & Hb1 & ->).
  apply encode_app_inv in Hb1 as (bws & b2 & Hbws & Hb2 & ->).
  apply encode_app_inv in Hb2 as (bu & bpost & Hbu & Hbpost & ->).
  unfold url_text in Hbu.
  rewrite (encode_ascii (accepts_ascii u Hu)) in Hbu. injection Hbu as <-.
  exists bpre, bws. split; [exact Hpre|]. split; [exact Hbws|].
  assert (Hgap : bws <> [] /\ Forall (fun c => sep_byte c = true) bws).
  { destruct (encode_space ws Hws) as (bs & Hbs & Hne & Hsep).
    simpl in Hbws. rewrite Hbs in Hbws. simpl in Hbws.
    injection Hbws as <-. rewrite app_nil_r. auto. }
  destruct Hgap as [Hne Hsep].
  destruct (exists_last Hne) as (gap0 & w & ->).
  apply Forall_app in Hsep as [_ Hw]. inversion Hw as [|? ? Hw' _]; subst.
  pose proof (sep_next_encode post Hpost Hbpost) as Hnext.
  destruct (@scan_finds u bpost w Hu Hw' Hnext (bpre ++ gap0) None 0 0
              (Nat.le_0_l _)) as (m & Hin & Hs & He & Hg).
  set (b := bpre ++ (gap0 ++ [w]) ++ u ++ bpost).
  assert (Hbeq : (bpre ++ gap0) ++ w :: u ++ bpost = b)
    by (unfold b; rewrite <- !app_assoc; reflexivity).
  rewrite Hbeq in Hin.
  assert (Hhit : hit b m u).
  { exists (bpre ++ gap0), w, bpost. rewrite Hbeq, Hs, He, Hg. auto. }
  unfold parse_urls in Hus.
  assert (Henc : encode (pre ++ [ws] ++ url_text u ++ post) = Ok b).
  { apply encode_app; [exact Hpre|]. apply encode_app; [exact Hbws|].
    apply encode_app; [|exact Hbpost].
    apply encode_ascii. now apply accepts_ascii. }
  rewrite Henc in Hus. simpl in Hus.
  pose proof (@parse_loop_In b m
                (Span (S (m_start m)) (m_end m) (url_text u))
                (fun acc => span_of_hit acc Hhit (accepts_ascii u Hu))
                _ [] us Hin Hus) as Hsp.
  rewrite Hs, He in Hsp. simpl in Hsp.
  rewrite !length_app in *. simpl in *.
  replace (length bpre + (length gap0 + 1)) with (S (length bpre + length gap0)) by lia.
  exact Hsp.
Qed.

(** X10. Whatever else the text holds, a URL the pattern accepts that
    stands right after a white-space character, and before white space or
    the end of the text, gets a span: its start is the number of bytes
    that encode what precedes it, its end lies the length of the URL
    further, and [parse_facets] returns the facet of that span. *)
Theorem url_after_white_space_gets_its_facet
        (pre post : str) (ws : N) (u : bytes) (fs : list pyval)
        (Hws : isspace ws = true) (Hu : accepts u = true)
        (Hpost : forall c, hd_error post = Some c -> isspace c = true)
        (Hfs : parse_facets (pre ++ [ws] ++ url_text u ++ post) = Ok fs) :
  exists bpre bws us,
    encode pre = Ok bpre /\ encode [ws] = Ok bws
    /\ parse_urls (pre ++ [ws] ++ url_text u ++ post) = Ok us
    /\ In (Span (length bpre + length bws)
                (length bpre + length bws + length u) (url_text u)) us
    /\ In (facet_of (Span (length bpre + length bws)
                          (length bpre + length bws + length u) (url_text u)))
          fs.
Proof.
  unfold parse_facets in Hfs.
  destruct (parse_urls (pre ++ [ws] ++ url_text u ++ post)) as [us|] eqn:Hus;
    simpl in Hfs; [|discriminate].
  rewrite for_each_append in Hfs. simpl in Hfs. injection Hfs as <-.
  destruct (@url_after_space_found pre post ws u us Hws Hu Hpost Hus)
    as (bpre & bws & Hpre & Hbws & Hin).
  exists bpre, bws, us. repeat split; auto. now apply in_map.
Qed.

Lemma url_after_white_space_gets_its_facet_witness :
  isspace 10 = true
  /\ accepts (blit "https://arxiv.org/abs/2401.01234") = true
  /\ exists fs,
      parse_facets (lit "caf" ++ [0xE9%N] ++ [10%N]
                      ++ url_text (blit "https://arxiv.org/abs/2401.01234") ++ [])
      = Ok fs
      /\ In (facet_of (Span 6 38 (url_text (blit "https://arxiv.org/abs/2401.01234"))))
            fs.
Proof.
  assert (Hws : isspace 10 = true) by reflexivity.
  assert (Hu : accepts (blit "https://arxiv.org/abs/2401.01234") = true)
    by (vm_compute; reflexivity).
  split; [exact Hws|]. split; [exact Hu|].
  assert (Hfs : exists fs,
             parse_facets ((lit "caf" ++ [0xE9%N]) ++ [10%N]
                             ++ url_text (blit "https://arxiv.org/abs/2401.01234") ++ [])
             = Ok fs)
    by (eexists; vm_compute; reflexivity).
  destruct Hfs as [fs Hfs]. exists fs.
  split; [rewrite <- app_assoc in Hfs; exact Hfs|].
  assert (Hpost : forall c : N, hd_error (@nil N) = Some c -> isspace c = true)
    by (intros c H; discriminate H).
  destruct (@url_after_white_space_gets_its_facet
              (lit "caf" ++ [0xE9%N]) [] 10%N
              (blit "https://arxiv.org/abs/2401.01234") fs Hws Hu
              Hpost Hfs)
    as (bpre & bws & us & Hpre & Hbws & _ & _ & Hin).
  assert (bpre = [byte_of 99; byte_of 97; byte_of 102; byte_of 0xC3; byte_of 0xA9]) as ->
    by (vm_compute in Hpre; injection Hpre as <-; reflexivity).
  assert (bws = [byte_of 10]) as ->
    by (vm_compute in Hbws; injection Hbws as <-; reflexivity).
  exact Hin.
Defined.

Lemma second_run_posts_only_the_placeholder_witness :
  try_except (load Absent) FileNotFoundError (Ok []) = Ok []
  /\ Forall str_encodable (keys (@nil (str * entry)))
  /\ Forall raw_encodable [raw_A; raw_B]
  /\ exists w1,
      main [raw_A; raw_B] (World Absent []) = Ok w1
      /\ main [raw_A; raw_B] w1
         = Ok (World (disk w1) (outbox w1 ++ [Post placeholder None])).
Proof.
  assert (Hload : try_except (load (disk (World Absent [])))
                             FileNotFoundError (Ok [])
                  = Ok (@nil (str * entry))) by reflexivity.
  assert (Hkeys : Forall str_encodable (keys (@nil (str * entry))))
    by constructor.
  assert (Henc : Forall raw_encodable [raw_A; raw_B])
    by (repeat constructor).
  split; [exact Hload|]. split; [exact Hkeys|]. split; [exact Henc|].
  exact (@second_run_posts_only_the_placeholder
           [raw_A; raw_B] (World Absent []) [] Hload Hkeys Henc).
Defined.

Lemma length_url_text (u : bytes) : length (url_text u) = length u.
Proof. unfold url_text. apply length_map. Qed.

Lemma compose_post_keeps_link (v : entry) :
  length (title v) + length (link v) + 2 <= 293 ->
  exists rest,
    compose_post v = title v ++ [10%N] ++ link v ++ [10%N] ++ rest.
Proof.
  intros Hlen. unfold compose_post, content, newline.
  set (a := abstract_fragment (description v)).
  exists (firstn (293 - (length (title v) + length (link v) + 2)) a ++ suffix).
  replace (title v ++ [10%N] ++ link v ++ [10%N] ++ a)
    with ((title v ++ [10%N] ++ link v ++ [10%N]) ++ a)
    by (now rewrite <- !app_assoc).
  rewrite firstn_app.
  rewrite firstn_all2 by (rewrite !length_app; simpl; lia).
  rewrite !length_app. cbn [length].
  replace (293 - (length (title v) + (1 + (length (link v) + 1))))
    with (293 - (length (title v) + length (link v) + 2)) by lia.
  now rewrite <- !app_assoc.
Qed.

Lemma create_post_facets (text : str) (w w' : world) :
  create_post text w = Ok w' ->
  exists fs,
    (text <> [] -> parse_facets text = Ok fs)
    /\ outbox w' = outbox w
                   ++ [Post text (match fs with [] => None | _ => Some fs end)].
Proof.
  unfold create_post. destruct text as [|c text].
  - simpl. intros [= <-]. exists []. split; [congruence|reflexivity].
  - change (0 <? length (c :: text)) with true. cbv iota.
    destruct (parse_facets (c :: text)) as [fs|e]; simpl; [|discriminate].
    intros [= <-]. exists fs. split; [reflexivity|]. simpl.
    now destruct fs.
Qed.

(** X11. The post made for an entry links the entry's link.  When the
    link is a URL the pattern accepts, and title, link and the two line
    breaks fit in the 293 characters that are kept, the post published by
    [create_post] for [compose_post v] carries facets, and one of them
    covers the link: it starts one byte after the encoded title and spans
    the length of the link. *)
Theorem entry_post_links_its_link
        (v : entry) (u : bytes) (w w' : world)
        (Hu : accepts u = true) (Hl : link v = url_text u)
        (Hlen : length (title v) + length u + 2 <= 293)
        (Hp : create_post (compose_post v) w = Ok w') :
  exists bt fs,
    encode (title v) = Ok bt
    /\ outbox w' = outbox w ++ [Post (compose_post v) (Some fs)]
    /\ In (facet_of (Span (length bt + 1) (length bt + 1 + length u) (link v)))
          fs.
Proof.
  destruct (@compose_post_keeps_link v) as [rest Hc].
  { rewrite Hl, length_url_text. exact Hlen. }
  destruct (create_post_facets _ _ Hp) as (fs & Hfs & Hout).
  assert (Hne : compose_post v <> []).
  { rewrite Hc. destruct (title v); discriminate. }
  specialize (Hfs Hne). rewrite Hc, Hl in Hfs.
  unfold parse_facets in Hfs.
  destruct (parse_urls (title v ++ [10%N] ++ url_text u ++ [10%N] ++ rest))
    as [us|] eqn:Hus; simpl in Hfs; [|discriminate].
  rewrite for_each_append in Hfs. simpl in Hfs. injection Hfs as <-.
  destruct (@url_after_space_found (title v) ([10%N] ++ rest) 10%N u us)
    as (bt & bws & Hbt & Hbws & Hin); auto.
  { simpl. intros c [= <-]. reflexivity. }
  assert (bws = [byte_of 10]) as ->
    by (vm_compute in Hbws; injection Hbws as <-; reflexivity).
  exists bt, (map facet_of us). split; [exact Hbt|]. split.
  - rewrite Hout. destruct us; [destruct Hin|reflexivity].
  - rewrite Hl. cbn [length] in Hin.
    apply (in_map facet_of) in Hin. exact Hin.
Qed.

Lemma entry_post_links_its_link_witness :
  let v := entry_of raw_A in
  exists u w',
    accepts u = true /\ link v = url_text u
    /\ length (title v) + length u + 2 <= 293
    /\ create_post (compose_post v) (World Absent []) = Ok w'
    /\ exists bt fs,
        encode (title v) = Ok bt
        /\ outbox w' = [Post (compose_post v) (Some fs)]
        /\ In (facet_of (Span (length bt + 1) (length bt + 1 + length u)
                              (link v))) fs.
Proof.
  intros v.
  assert (Hl : exists u, link v = url_text u /\ accepts u = true
                         /\ length (title v) + length u + 2 <= 293).
  { exists (map (fun c => byte_of c) (link v)). vm_compute.
    repeat split. repeat constructor. }
  destruct Hl as (u & Hl & Hu & Hlen).
  assert (Hp : exists w', create_post (compose_post v) (World Absent []) = Ok w')
    by (eexists; vm_compute; reflexivity).
  destruct Hp as [w' Hp]. exists u, w'.
  repeat (split; [assumption|]).
  exact (@entry_post_links_its_link v u (World Absent []) w' Hu Hl Hlen Hp).
Defined.

(** ** Spans from left to right *)

Lemma spans_ordered_later (b : bytes) (lo : nat) (us : list span) (v : span) :
  Forall (span_ok b) us -> spans_ordered lo us -> In v us ->
  lo < span_start v.
Proof.
  revert lo; induction us as [|u us IH]; intros lo Hok Hord Hin;
    [destruct Hin|].
  inversion Hok as [|? ? Hu Hus]; subst. destruct Hord as [H1 H2].
  destruct Hin as [<-|Hin]; [exact H1|].
  pose proof (ok_nonempty Hu). specialize (IH _ Hus H2 Hin). lia.
Qed.

Lemma spans_ordered_pairs (b : bytes) (lo : nat) (l1 l2 : list span) (u v : span) :
  Forall (span_ok b) (l1 ++ u :: l2) -> spans_ordered lo (l1 ++ u :: l2) ->
  In v l2 -> span_end u < span_start v.
Proof.
  revert lo; induction l1 as [|w l1 IH]; intros lo Hok Hord Hin; simpl in *.
  - inversion Hok as [|? ? Hu Hus]; subst. destruct Hord as [_ Ho].
    eapply spans_ordered_later; eauto.
  - inversion Hok as [|? ? Hu Hus]; subst. destruct Hord as [_ Ho].
    eapply IH; eauto.
Qed.

(** X12. The spans [parse_urls] returns are disjoint and in text order.
    Each span, also when it is the only one, is non-empty, starts after
    offset 0 and ends within the encoded text; and a span that comes
    later in the list starts after the end of every span before it. *)
Theorem spans_are_disjoint_and_in_text_order
        (text : str) (us : list span) (Hus : parse_urls text = Ok us) :
  exists b,
    encode text = Ok b
    /\ (forall u, In u us ->
                  1 <= span_start u /\ span_start u < span_end u
                  /\ span_end u <= length b)
    /\ (forall l1 u l2 v,
           us = l1 ++ u :: l2 -> In v l2 -> span_end u < span_start v).
Proof.
  destruct (parse_urls_encodes _ Hus) as [b Hb]. exists b.
  destruct (@parse_urls_spec text b Hb) as (us' & Hus' & Hok & Hord & _).
  rewrite Hus in Hus'. injection Hus' as <-.
  split; [exact Hb|]. split.
  - intros u Hin. rewrite Forall_forall in Hok. specialize (Hok u Hin).
    split; [exact (ok_start Hok)|].
    split; [exact (ok_nonempty Hok)|exact (ok_end Hok)].
  - intros l1 u l2 v -> Hin.
    exact (@spans_ordered_pairs b 0 l1 l2 u v Hok Hord Hin).
Qed.

Lemma spans_are_disjoint_and_in_text_order_witness :
  exists us u v b,
    parse_urls (lit " http://a.io http://b.io") = Ok us
    /\ us = [u; v]
    /\ encode (lit " http://a.io http://b.io") = Ok b
    /\ (1 <= span_start u /\ span_start u < span_end u
        /\ span_end u <= length b)
    /\ span_end u < span_start v.
Proof.
  assert (H : exists u v, parse_urls (lit " http://a.io http://b.io")
                          = Ok [u; v])
    by (do 2 eexists; vm_compute; reflexivity).
  destruct H as (u & v & Hus).
  destruct (@spans_are_disjoint_and_in_text_order
              (lit " http://a.io http://b.io") [u; v] Hus)
    as (b & Hb & Hone & Hpair).
  exists [u; v], u, v, b.
  split; [exact Hus|]. split; [reflexivity|]. split; [exact Hb|].
  split; [apply Hone; left; reflexivity|].
  apply (Hpair [] u [v] v); [reflexivity|left; reflexivity].
Defined.

(** ** Paragraph tags *)

Lemma find_skip (c : N) (old' pre s : str) :
  ~ In c pre ->
  find (c :: old') (pre ++ s)
  = option_map (fun i => length pre + i) (find (c :: old') s).
Proof.
  induction pre as [|x pre IH]; intros Hc.
  - simpl app. destruct (find (c :: old') s); reflexivity.
  - change ((x :: pre) ++ s) with (x :: (pre ++ s)). cbn [find starts_with].
    destruct (N.eqb_spec c x) as [->|Hne]; [exfalso; apply Hc; now left|].
    cbn [andb]. rewrite IH by (intros Hin; apply Hc; now right).
    destruct (find (c :: old') s); reflexivity.
Qed.

Lemma replace_nil (c : N) (old' new : str) : replace (c :: old') new [] = [].
Proof. now rewrite replace_at_find. Qed.

(** X14. A raw description that is one paragraph, the body between the
    tags [<p>] and [</p>] with no [<] in the body, is stored as the body,
    stripped: both tags are removed. *)
Theorem description_drops_the_paragraph_tags
        (e : raw_entry) (body : str)
        (Hbody : ~ In 60%N body)
        (Hraw : raw_description e = lit "<p>" ++ body ++ lit "</p>") :
  description (entry_of e) = strip body.
Proof.
  unfold entry_of. cbn [description]. rewrite Hraw. f_equal.
  change (lit "<p>") with [60; 112; 62]%N.
  change (lit "</p>") with [60; 47; 112; 62]%N.
  rewrite (@replace_at_find 60%N [112; 62]%N []).
  change (find [60; 112; 62]%N ([60; 112; 62]%N ++ body ++ [60; 47; 112; 62]%N))
    with (Some 0).
  cbn [firstn length Nat.add]. 
  change (skipn 3 ([60; 112; 62]%N ++ body ++ [60; 47; 112; 62]%N))
    with (body ++ [60; 47; 112; 62]%N).
  rewrite (@replace_at_find 60%N [112; 62]%N []).
  rewrite (@find_skip 60%N [112; 62]%N body _ Hbody).
  change (find [60; 112; 62]%N [60; 47; 112; 62]%N) with (@None nat).
  cbn [option_map app].
  rewrite (@replace_at_find 60%N [47; 112; 62]%N []).
  rewrite (@find_skip 60%N [47; 112; 62]%N body _ Hbody).
  change (find [60; 47; 112; 62]%N [60; 47; 112; 62]%N) with (Some 0).
  cbn [option_map length]. rewrite Nat.add_0_r.
  rewrite firstn_app, firstn_all, Nat.sub_diag. cbn [firstn].
  rewrite skipn_app.
  rewrite skipn_all2 by lia.
  replace (length body + 4 - length body) with 4 by lia.
  cbn [skipn app]. rewrite replace_nil. now rewrite !app_nil_r.
Qed.

Lemma description_drops_the_paragraph_tags_witness :
  ~ In 60%N (lit " Abstract: a ")
  /\ description (entry_of (RawEntry (lit "T") (lit "http://a.io")
                              (lit "<p> Abstract: a </p>")))
     = strip (lit " Abstract: a ").
Proof.
  assert (Hbody : ~ In 60%N (lit " Abstract: a "))
    by (vm_compute; intuition discriminate).
  split; [exact Hbody|].
  exact (@description_drops_the_paragraph_tags
           (RawEntry (lit "T") (lit "http://a.io") (lit "<p> Abstract: a </p>"))
           (lit " Abstract: a ") Hbody eq_refl).
Defined.
